(** * Icon generator: a shallow embedding of [generate_icons.py]

    The script turns one source image into a fixed set of icon files.  This
    development embeds its functions one by one, keeping their names, and
    proves the properties of the specification against them.

    Conventions of the embedding:
    - a Python [str] is a [string]; a character is the code point held by an
      [ascii], so the strings covered are those over U+0000..U+00FF;
    - a Python [int] is a [Z];
    - a raised exception is the [Raise] case of [result];
    - the file system is an explicit state threaded through the writers. *)

From Stdlib Require Import ZArith Bool List Ascii String Lia.
From Stdlib Require Import Floats.SpecFloat.
From stdpp Require Import base option gmap strings list fin_maps.

Open Scope Z_scope.

(** ** Exceptions and results *)

Abbreviation path := (list string).

Inductive exn : Type :=
| InvalidLiteral (s : string)          (* ValueError of [int(s, 16)] *)
| InvalidColor (value : string)        (* ValueError of [_parse_hex_color] *)
| UnknownTargets (unknown : gset string) (* ValueError of [_parse_targets] *)
| OverflowError                        (* int too large for a float *)
| ImagesDoNotMatch                     (* ValueError of [Image.alpha_composite] *)
| BadImageSize                         (* ValueError of Pillow on a negative size *)
| EmptySequence                        (* ValueError of [max] on no sizes *)
| FileExistsError (p : path)           (* [mkdir] of a path that is a regular file *)
| NotADirectoryError (p : path)        (* [mkdir] below a regular file *)
| IsADirectoryError (p : path)         (* saving onto a directory *)
| CannotOpenImage (p : path)           (* [Image.open] failed *)
| CannotConvertNaN                     (* ValueError of [round] on a NaN *)
| SystemExit (msg : string).           (* [raise SystemExit(msg)] *)

Inductive result (A : Type) : Type :=
| Ok (a : A)
| Raise (e : exn).
Arguments Ok {A} a.
Arguments Raise {A} e.

Definition rbind {A B} (r : result A) (k : A -> result B) : result B :=
  match r with
  | Ok a => k a
  | Raise e => Raise e
  end.

Notation "'let!' x ':=' r 'in' k" := (rbind r (fun x => k))
  (at level 10, x pattern, r at level 100, k at level 200).

(** ** Python strings *)

Module PyStr.

Definition code (c : ascii) : Z := Z.of_N (N_of_ascii c).

Definition in_range (lo hi : Z) (c : ascii) : bool :=
  (lo <=? code c) && (code c <=? hi).

(** [str.isspace] on one character, for code points below 256: TAB..CR,
    FS..US, SPACE, NEL and NBSP.  This is the set [str.strip()] removes. *)
Definition isspace (c : ascii) : bool :=
  in_range 9 13 c || in_range 28 31 c
  || (code c =? 32) || (code c =? 133) || (code c =? 160).

(** The white space [int()] skips: non-ASCII white space is first turned
    into a blank, ASCII characters are tested with the C table, which does
    not hold FS..US. *)
Definition int_isspace (c : ascii) : bool :=
  in_range 9 13 c || (code c =? 32) || (code c =? 133) || (code c =? 160).

Fixpoint lstrip (s : string) : string :=
  match s with
  | String c s' => if isspace c then lstrip s' else s
  | EmptyString => EmptyString
  end.

Fixpoint rstrip (s : string) : string :=
  match s with
  | String c s' =>
      match rstrip s' with
      | EmptyString => if isspace c then EmptyString else String c EmptyString
      | r => String c r
      end
  | EmptyString => EmptyString
  end.

(** [s.strip()] *)
Definition strip (s : string) : string := rstrip (lstrip s).

(** [s.lstrip(ch)] for a one-character argument *)
Fixpoint lstrip_char (ch : ascii) (s : string) : string :=
  match s with
  | String c s' => if Ascii.eqb c ch then lstrip_char ch s' else s
  | EmptyString => EmptyString
  end.

(** [s.split(sep)] for a one-character separator: never an empty list. *)
Fixpoint split (sep : ascii) (s : string) : list string :=
  match s with
  | EmptyString => [EmptyString]
  | String c s' =>
      if Ascii.eqb c sep then EmptyString :: split sep s'
      else match split sep s' with
           | h :: t => String c h :: t
           | [] => [String c EmptyString]
           end
  end.

(** [str.lower] on one character: A..Z, and the Latin-1 capitals
    U+00C0..U+00DE without the multiplication sign U+00D7. *)
Definition lower_char (c : ascii) : ascii :=
  if in_range 65 90 c
     || (in_range 192 222 c && negb (code c =? 215))
  then ascii_of_N (N_of_ascii c + 32)
  else c.

Fixpoint lower (s : string) : string :=
  match s with
  | String c s' => String (lower_char c) (lower s')
  | EmptyString => EmptyString
  end.

(** [s[i:j]] for [0 <= i <= j] *)
Definition slice (i j : nat) (s : string) : string :=
  String.substring i (j - i) s.

(** The digit table of [int()]: 0-9, a-z and A-Z. *)
Definition digit_value (c : ascii) : option Z :=
  if in_range 48 57 c then Some (code c - 48)
  else if in_range 97 122 c then Some (code c - 97 + 10)
  else if in_range 65 90 c then Some (code c - 65 + 10)
  else None.

Definition hex_value (c : ascii) : option Z :=
  match digit_value c with
  | Some d => if d <? 16 then Some d else None
  | None => None
  end.

Definition is_hex (c : ascii) : bool :=
  match hex_value c with Some _ => true | None => false end.

Definition is_underscore (c : ascii) : bool := code c =? 95.

(** The digit loop of [int()]: digits of the base with single underscores
    between them.  Returns the value, the number of digits and the text
    left, or [None] on a doubled or trailing underscore. *)
Fixpoint scan_digits (s : string) (acc : Z) (ndigits : nat) (prev_us : bool)
  : option (Z * nat * string) :=
  match s with
  | EmptyString => if prev_us then None else Some (acc, ndigits, s)
  | String c s' =>
      if is_underscore c then
        if prev_us then None else scan_digits s' acc ndigits true
      else
        match hex_value c with
        | Some d => scan_digits s' (16 * acc + d) (S ndigits) false
        | None => if prev_us then None else Some (acc, ndigits, s)
        end
  end.

Fixpoint skip_int_space (s : string) : string :=
  match s with
  | String c s' => if int_isspace c then skip_int_space s' else s
  | EmptyString => EmptyString
  end.

Definition take_sign (s : string) : bool * string :=
  match s with
  | String c s' =>
      if code c =? 43 then (false, s')
      else if code c =? 45 then (true, s')
      else (false, s)
  | EmptyString => (false, s)
  end.

Definition skip_0x (s : string) : string :=
  match s with
  | String c0 (String c1 s') =>
      if (code c0 =? 48) && ((code c1 =? 120) || (code c1 =? 88)) then
        match s' with
        | String c2 s'' => if is_underscore c2 then s'' else s'
        | EmptyString => s'
        end
      else s
  | _ => s
  end.

(** [int(s, 16)]: white space, a sign, an optional [0x], digits, white
    space; anything else is a [ValueError]. *)
Definition int16 (s : string) : result Z :=
  let '(neg, s1) := take_sign (skip_int_space s) in
  let s2 := skip_0x s1 in
  match s2 with
  | String c _ =>
      if is_underscore c then Raise (InvalidLiteral s)
      else
        match scan_digits s2 0 0 false with
        | Some (n, S _, rest) =>
            match skip_int_space rest with
            | EmptyString => Ok (if neg then - n else n)
            | _ => Raise (InvalidLiteral s)
            end
        | _ => Raise (InvalidLiteral s)
        end
  | EmptyString => Raise (InvalidLiteral s)
  end.

(** *** Notions for the statements *)

Definition all_space (s : string) : bool :=
  forallb isspace (list_ascii_of_string s).

Definition all_hex (s : string) : bool :=
  forallb is_hex (list_ascii_of_string s).

(** [n] times the character [#] *)
Fixpoint hashes (n : nat) : string :=
  match n with
  | O => EmptyString
  | S n' => String "#" (hashes n')
  end.

(** The digit a hexadecimal character stands for. *)
Definition hex_digit (c : ascii) : Z := default 0 (hex_value c).

(** The byte spelled by the two hexadecimal digits of [v] at offsets [i]
    and [i + 1]. *)
Definition byte_at (i : nat) (v : string) : Z :=
  match String.get i v, String.get (S i) v with
  | Some hi, Some lo => 16 * hex_digit hi + hex_digit lo
  | _, _ => 0
  end.

(** What is left of a colour string once the white space around it and
    the hashes before it are gone. *)
Definition color_remainder (value : string) : string :=
  lstrip_char "#" (strip value).

End PyStr.

(** ** The colour parser *)

Definition rgba_tuple : Type := Z * Z * Z * Z.

Definition _parse_hex_color (value : string) : result rgba_tuple :=
  let v := PyStr.lstrip_char "#" (PyStr.strip value) in
  if Nat.eqb (String.length v) 6 then
    let! r := PyStr.int16 (PyStr.slice 0 2 v) in
    let! g := PyStr.int16 (PyStr.slice 2 4 v) in
    let! b := PyStr.int16 (PyStr.slice 4 6 v) in
    Ok (r, g, b, 255)
  else if Nat.eqb (String.length v) 8 then
    let! r := PyStr.int16 (PyStr.slice 0 2 v) in
    let! g := PyStr.int16 (PyStr.slice 2 4 v) in
    let! b := PyStr.int16 (PyStr.slice 4 6 v) in
    let! a := PyStr.int16 (PyStr.slice 6 8 v) in
    Ok (r, g, b, a)
  else Raise (InvalidColor value).

(** ** Rasters

    Every image the script handles has been converted to RGBA, so a raster
    is its size and its pixels in row-major order. *)

Record pixel : Type := Pixel { red : Z; green : Z; blue : Z; alpha : Z }.

Record Image : Type := MkImage { width : Z; height : Z; data : list pixel }.

Definition size (img : Image) : Z * Z := (width img, height img).

Definition wf_image (img : Image) : Prop :=
  0 <= width img /\ 0 <= height img /\
  length (data img) = Z.to_nat (width img * height img).

Module PIL.

Definition transparent : pixel := Pixel 0 0 0 0.

Definition in_bounds (img : Image) (x y : Z) : bool :=
  (0 <=? x) && (x <? width img) && (0 <=? y) && (y <? height img).

(** [img.getpixel((x, y))]; [None] stands for the [IndexError]. *)
Definition getpixel (img : Image) (x y : Z) : option pixel :=
  if in_bounds img x y then data img !! Z.to_nat (y * width img + x)
  else None.

(** The raster of size [w] x [h] whose pixel at [(x, y)] is [f x y]. *)
Definition tabulate (w h : Z) (f : Z -> Z -> pixel) : Image :=
  MkImage w h
    ((fun i => f (Z.of_nat i mod w) (Z.of_nat i / w))
       <$> seq 0 (Z.to_nat (w * h))).

Definition CLIP8 (v : Z) : Z :=
  if v <=? 0 then 0 else if v <? 256 then v else 255.

(** The ink of a colour tuple in mode RGBA: each channel is clipped. *)
Definition ink (c : rgba_tuple) : pixel :=
  let '(r, g, b, a) := c in Pixel (CLIP8 r) (CLIP8 g) (CLIP8 b) (CLIP8 a).

(** [Image.new("RGBA", (w, h), color)] *)
Definition new (sz : Z * Z) (color : rgba_tuple) : result Image :=
  let '(w, h) := sz in
  if (w <? 0) || (h <? 0) then Raise BadImageSize
  else Ok (tabulate w h (fun _ _ => ink color)).

(** [img.crop((left, upper, right, lower))]: what lies outside the source
    is transparent black. *)
Definition crop (img : Image) (box : Z * Z * Z * Z) : result Image :=
  let '(x0, y0, x1, y1) := box in
  if (x1 <? x0) || (y1 <? y0) then Raise BadImageSize
  else Ok (tabulate (x1 - x0) (y1 - y0)
             (fun x y => default transparent (getpixel img (x0 + x) (y0 + y)))).

Definition SHIFTFORDIV255 (a : Z) : Z := Z.shiftr (Z.shiftr a 8 + a) 8.

Definition PRECISION_BITS : Z := 7.

(** One pixel of [ImagingAlphaComposite]: [src] over [dst]. *)
Definition composite_pixel (dst src : pixel) : pixel :=
  if alpha src =? 0 then dst
  else
    let blend := alpha dst * (255 - alpha src) in
    let outa255 := alpha src * 255 + blend in
    let coef1 := alpha src * 255 * 255 * Z.shiftl 1 PRECISION_BITS / outa255 in
    let coef2 := 255 * Z.shiftl 1 PRECISION_BITS - coef1 in
    let channel s d :=
      Z.shiftr (SHIFTFORDIV255 (s * coef1 + d * coef2 + Z.shiftl 128 PRECISION_BITS))
               PRECISION_BITS in
    Pixel (channel (red src) (red dst))
          (channel (green src) (green dst))
          (channel (blue src) (blue dst))
          (SHIFTFORDIV255 (outa255 + 128)).

(** [Image.alpha_composite(im1, im2)]: both of one size. *)
Definition alpha_composite (im1 im2 : Image) : result Image :=
  if (width im1 =? width im2) && (height im1 =? height im2) then
    Ok (tabulate (width im1) (height im1)
          (fun x y => composite_pixel
                        (default transparent (getpixel im1 x y))
                        (default transparent (getpixel im2 x y))))
  else Raise ImagesDoNotMatch.

(** [self.paste(im, box)] for an RGBA [im] of the size of [box]: the
    pixels of [self] inside the box are overwritten. *)
Definition paste (self im : Image) (box : Z * Z * Z * Z) : Image :=
  let '(x0, y0, x1, y1) := box in
  tabulate (width self) (height self)
    (fun x y =>
       if (x0 <=? x) && (x <? x1) && (y0 <=? y) && (y <? y1)
       then default transparent (getpixel im (x - x0) (y - y0))
       else default transparent (getpixel self x y)).

(** [self.alpha_composite(im, dest)], the in-place method, returning the
    new contents of [self]. *)
Definition alpha_composite_at (self im : Image) (dest : Z * Z) : result Image :=
  let '(dx, dy) := dest in
  let overlay := im in
  let box := (dx, dy, dx + width overlay, dy + height overlay) in
  let! background :=
    (if (dx =? 0) && (dy =? 0) && (width overlay =? width self)
        && (height overlay =? height self)
     then Ok self else crop self box) in
  let! result := alpha_composite background overlay in
  Ok (paste self result box).

(** The box [im] covers when composited at [(dx, dy)]. *)
Definition in_box (im : Image) (dx dy x y : Z) : bool :=
  (dx <=? x) && (x <? dx + width im) && (dy <=? y) && (y <? dy + height im).

Definition pixel_at (img : Image) (x y : Z) : pixel :=
  default transparent (getpixel img x y).

End PIL.

(** ** Python floats

    A [float] is an IEEE 754 binary64 value, computed with the Standard
    Library's executable specification of the format. *)

Module PyFloat.

Definition prec : Z := 53.
Definition emax : Z := 1024.

(** [0.1], [1.0] and the default [--maskable-scale 0.80] *)
Definition f0_1 : spec_float := S754_finite false 7205759403792794 (-56).
Definition f1_0 : spec_float := S754_finite false 4503599627370496 (-52).
Definition f0_80 : spec_float := S754_finite false 7205759403792794 (-53).

(** [float(n)] as done by [n * x]: correctly rounded, [OverflowError]
    past the largest double. *)
Definition of_int (n : Z) : result spec_float :=
  match binary_normalize prec emax n 0 false with
  | S754_infinity _ => Raise OverflowError
  | f => Ok f
  end.

Definition lt (a b : spec_float) : bool := SFltb a b.

(** [min(a, b)] and [max(a, b)] of the builtins: the first argument is
    kept unless the second compares strictly below (above) it. *)
Definition min (a b : spec_float) : spec_float := if lt b a then b else a.
Definition max (a b : spec_float) : spec_float := if lt a b then b else a.

Definition mul (a b : spec_float) : spec_float := SFmul prec emax a b.

(** [m / d] rounded to the nearest integer, ties to the even one. *)
Definition div_half_even (m d : Z) : Z :=
  let q := m / d in
  let r := m mod d in
  match 2 * r ?= d with
  | Lt => q
  | Gt => q + 1
  | Eq => if Z.even q then q else q + 1
  end.

(** [round(x)] with one argument *)
Definition round (x : spec_float) : result Z :=
  match x with
  | S754_zero _ => Ok 0
  | S754_finite s m e =>
      let a := if 0 <=? e then Z.pos m * 2 ^ e
               else div_half_even (Z.pos m) (2 ^ (- e)) in
      Ok (if s then - a else a)
  | S754_infinity _ => Raise OverflowError
  | S754_nan => Raise CannotConvertNaN
  end.

(** A mantissa and exponent whose value stays below [2 ^ K]. *)
Definition below (K m e : Z) : Prop :=
  0 <= m /\ (m = 0 \/ Zdigits2 m + e <= K) /\ e <= K.

(** A float that is zero or a positive finite number below [2 ^ K]. *)
Definition small (K : Z) (f : spec_float) : Prop :=
  f = S754_zero false
  \/ exists m e, f = S754_finite false m e /\ Z.pos (digits2_pos m) + e <= K.

End PyFloat.

(** ** The file system

    A path is the list of its components.  A saved file is recorded as the
    call that wrote it: the format, the raster and, for an icon container,
    the sizes asked for. *)

Inductive file : Type :=
| PngFile (img : Image)
| IcoFile (base : Image) (sizes : list (Z * Z)).

Inductive node : Type :=
| Dir
| File (f : file).

Abbreviation FS := (gmap path node).

Definition io (A : Type) : Type := FS -> result A * FS.

Definition iret {A} (a : A) : io A := fun fs => (Ok a, fs).

Definition ibind {A B} (m : io A) (k : A -> io B) : io B :=
  fun fs =>
    match m fs with
    | (Ok a, fs') => k a fs'
    | (Raise e, fs') => (Raise e, fs')
    end.

Definition lift {A} (r : result A) : io A := fun fs => (r, fs).

Notation "'do!' x ':=' m 'in' k" := (ibind m (fun x => k))
  (at level 10, x pattern, m at level 100, k at level 200).
Notation "m ';;' k" := (ibind m (fun _ => k))
  (at level 100, k at level 200, right associativity).

Module Fs.

(** [p.parent] *)
Definition parent (p : path) : path := removelast p.

(** [p / name] *)
Definition join (p : path) (name : string) : path := p ++ [name].

(** Creates the directories [base/c1], [base/c1/c2], ... in turn; a
    regular file in the way is an error, which names the directory asked
    for: [os.mkdir] fails with [EEXIST] when the file is that directory
    itself, and with [ENOTDIR] when the file is one of its ancestors. *)
Fixpoint mkdir_from (base : path) (rest : list string) (fs : FS)
  : result unit * FS :=
  match rest with
  | [] => (Ok tt, fs)
  | c :: rest' =>
      let p := join base c in
      match fs !! p with
      | Some (File _) =>
          (Raise (match rest' with
                  | [] => FileExistsError p
                  | _ :: _ => NotADirectoryError (p ++ rest')
                  end), fs)
      | _ => mkdir_from p rest' (<[p := Dir]> fs)
      end
  end.

(** [p.mkdir(parents=True, exist_ok=True)] *)
Definition mkdir (p : path) : io unit := mkdir_from [] p.

(** [img.save(p, ...)]: creates or overwrites the file at [p]. *)
Definition save (p : path) (f : file) : io unit :=
  fun fs =>
    match fs !! p with
    | Some Dir => (Raise (IsADirectoryError p), fs)
    | _ => (Ok tt, <[p := File f]> fs)
    end.

(** The text of [name] from its last dot on, when that dot is neither
    the first nor the last character: [PurePath.suffix]. *)
Fixpoint from_last_dot (s : string) : option string :=
  match s with
  | EmptyString => None
  | String c s' =>
      match from_last_dot s' with
      | Some r => Some r
      | None => if Ascii.eqb c "." then Some s else None
      end
  end.

Definition suffix (p : path) : string :=
  match last p with
  | Some (String _ rest) =>
      match from_last_dot rest with
      | Some r => if Nat.ltb 1 (String.length r) then r else EmptyString
      | None => EmptyString
      end
  | _ => EmptyString
  end.

(** The regular files of a file system. *)
Definition files (fs : FS) : gmap path file :=
  omap (fun n => match n with File f => Some f | Dir => None end) fs.

(** No regular file stands where [d] or one of its ancestors must be a
    directory. *)
Definition no_file_above (fs : FS) (d : path) : Prop :=
  forall q f, q `prefix_of` d -> fs !! q <> Some (File f).

End Fs.

(** ** The script *)

Record Options : Type := MkOptions {
  input_path : path;
  out_dir : path;
  targets : gset string;
  pad_to_square : bool;
  background : string;
  maskable_scale : spec_float;
  resample : Z
}.

(** The parsed command line: the namespace [parser.parse_args()] returns. *)
Record Args : Type := MkArgs {
  arg_input : path;
  arg_out : path;
  arg_targets : string;
  arg_no_pad : bool;
  arg_background : string;
  arg_maskable_scale : spec_float
}.

Definition _is_svg (p : path) : bool :=
  String.eqb (PyStr.lower (Fs.suffix p)) ".svg".

Definition _parse_targets (value : string) : result (gset string) :=
  let targets : gset string :=
    list_to_set
      ((fun t => PyStr.lower (PyStr.strip t)) <$>
         filter (fun t => PyStr.strip t <> EmptyString) (PyStr.split "," value)) in
  let allowed : gset string := {[ "web"; "ue" ]} in
  let unknown := targets ∖ allowed in
  if decide (unknown = ∅) then Ok targets
  else Raise (UnknownTargets unknown).

Section Script.

(** What lies outside the script: Pillow's resampling, the decoding of
    the input file, and CairoSVG when it is installed. *)
Variable pil_resize : Image -> Z * Z -> Z -> Image.
Variable image_open : FS -> path -> result Image.
Variable cairosvg : option (FS -> path -> result Image).
Variable LANCZOS : Z.

(** [Image.resize] returns a raster of the size asked for. *)
Hypothesis pil_resize_size :
  forall img w h r, 0 < w -> 0 < h -> size (pil_resize img (w, h) r) = (w, h).

Definition _load_image (p : path) : io Image :=
  fun fs =>
    if _is_svg p then
      match cairosvg with
      | Some svg2png => (svg2png fs p, fs)
      | None =>
          (Raise (SystemExit
             "SVG input requires CairoSVG (pip install cairosvg) or export SVG to a 1024x1024 PNG first."),
           fs)
      end
    else (image_open fs p, fs).

Definition _ensure_square (img : Image) (pad_to_square : bool)
           (background_rgba : rgba_tuple) : result Image :=
  let '(w, h) := size img in
  if w =? h then Ok img
  else if negb pad_to_square then
    let side := Z.min w h in
    let left := (w - side) / 2 in
    let top := (h - side) / 2 in
    PIL.crop img (left, top, left + side, top + side)
  else
    let side := Z.max w h in
    let! canvas := PIL.new (side, side) background_rgba in
    let x := (side - w) / 2 in
    let y := (side - h) / 2 in
    PIL.alpha_composite_at canvas img (x, y).

Definition _resize (img : Image) (sz : Z) (resample : Z) : Image :=
  if decide (size img = (sz, sz)) then img
  else pil_resize img (sz, sz) resample.

(** The side of the content square of [_fit_with_padding]. *)
Definition inner_size (sz : Z) (content_scale : spec_float) : result Z :=
  let content_scale :=
    PyFloat.max PyFloat.f0_1 (PyFloat.min content_scale PyFloat.f1_0) in
  let! fsize := PyFloat.of_int sz in
  let! inner := PyFloat.round (PyFloat.mul fsize content_scale) in
  Ok (Z.max 1 (Z.min inner sz)).

Definition _fit_with_padding (img : Image) (sz : Z) (content_scale : spec_float)
           (background_rgba : rgba_tuple) (resample : Z) : result Image :=
  let! inner := inner_size sz content_scale in
  let inner_img := _resize img inner resample in
  let! canvas := PIL.new (sz, sz) background_rgba in
  let x := (sz - inner) / 2 in
  let y := (sz - inner) / 2 in
  PIL.alpha_composite_at canvas inner_img (x, y).

Definition _write_png (img : Image) (p : path) : io unit :=
  Fs.mkdir (Fs.parent p) ;;
  Fs.save p (PngFile img).

(** [max(sizes)] *)
Definition max_of (sizes : list Z) : result Z :=
  match sizes with
  | [] => Raise EmptySequence
  | s :: rest => Ok (fold_left Z.max rest s)
  end.

Definition _write_ico (source_square : Image) (p : path) (sizes : list Z)
           (resample : Z) : io unit :=
  Fs.mkdir (Fs.parent p) ;;
  let icon_sizes := map (fun s => (s, s)) sizes in
  do! max_size := lift (max_of sizes) in
  let base := _resize source_square max_size resample in
  Fs.save p (IcoFile base icon_sizes).

Definition generate_web (opts : Options) (src_square : Image) : io unit :=
  let out := out_dir opts in
  _write_ico src_square (Fs.join out "favicon.ico") [16; 32; 48] (resample opts) ;;
  _write_png (_resize src_square 180 (resample opts)) (Fs.join out "apple-touch-icon.png") ;;
  _write_png (_resize src_square 192 (resample opts)) (Fs.join out "icon-192.png") ;;
  _write_png (_resize src_square 512 (resample opts)) (Fs.join out "icon-512.png") ;;
  do! bg := lift (_parse_hex_color (background opts)) in
  do! maskable :=
    lift (_fit_with_padding src_square 512 (maskable_scale opts) bg (resample opts)) in
  _write_png maskable (Fs.join out "icon-maskable-512.png").

(** The standard mac iconset filenames. *)
Definition mac_entries : list (string * Z) :=
  [ ("icon_16x16.png", 16);
    ("icon_16x16@2x.png", 32);
    ("icon_32x32.png", 32);
    ("icon_32x32@2x.png", 64);
    ("icon_128x128.png", 128);
    ("icon_128x128@2x.png", 256);
    ("icon_256x256.png", 256);
    ("icon_256x256@2x.png", 512);
    ("icon_512x512.png", 512);
    ("icon_512x512@2x.png", 1024) ].

(** [for x in xs: body(x)] *)
Fixpoint for_each {A} (xs : list A) (body : A -> io unit) : io unit :=
  match xs with
  | [] => iret tt
  | x :: xs' => body x ;; for_each xs' body
  end.

Definition generate_ue (opts : Options) (src_square : Image) : io unit :=
  let out := out_dir opts in
  _write_ico src_square
    (Fs.join (Fs.join (Fs.join out "ue") "windows") "icon.ico")
    [16; 24; 32; 48; 64; 128; 256] (resample opts) ;;
  let iconset_dir := Fs.join (Fs.join (Fs.join out "ue") "mac") "AppIcon.iconset" in
  Fs.mkdir iconset_dir ;;
  for_each mac_entries
    (fun '(filename, sz) =>
       _write_png (_resize src_square sz (resample opts)) (Fs.join iconset_dir filename)) ;;
  _write_png (_resize src_square 256 (resample opts))
    (Fs.join (Fs.join (Fs.join out "ue") "linux") "icon-256.png") ;;
  _write_png (_resize src_square 512 (resample opts))
    (Fs.join (Fs.join (Fs.join out "ue") "linux") "icon-512.png").

Definition main (args : Args) : io Z :=
  let input_path := arg_input args in
  let out_dir := arg_out args in
  Fs.mkdir out_dir ;;
  do! targets := lift (_parse_targets (arg_targets args)) in
  let resample := LANCZOS in
  let opts := MkOptions input_path out_dir targets (negb (arg_no_pad args))
                (arg_background args) (arg_maskable_scale args) resample in
  do! bg := lift (_parse_hex_color (background opts)) in
  do! src := _load_image (input_path) in
  do! src_square := lift (_ensure_square src (pad_to_square opts) bg) in
  (if decide ("web" ∈ targets) then generate_web opts src_square else iret tt) ;;
  (if decide ("ue" ∈ targets) then generate_ue opts src_square else iret tt) ;;
  iret 0.

(** The exit status of [raise SystemExit(main())]: the value returned, or
    1 when an exception or a [SystemExit] with a message ends the run. *)
Definition exit_code (r : result Z) : Z :=
  match r with
  | Ok n => n
  | Raise _ => 1
  end.

End Script.

(** ** Output plans

    What a generator does to the file system is a list of directory
    creations and saves, at paths relative to the output directory. *)

Inductive op : Type :=
| MkDir (d : path)
| Save (p : path) (f : file).

Definition run_op (base : path) (o : op) : io unit :=
  match o with
  | MkDir d => Fs.mkdir (base ++ d)
  | Save p f => Fs.save (base ++ p) f
  end.

Definition run_ops (base : path) (ops : list op) : io unit :=
  for_each ops (run_op base).

Definition made (ops : list op) : list path :=
  omap (fun o => match o with MkDir d => Some d | Save _ _ => None end) ops.

Definition saved (ops : list op) : list (path * file) :=
  omap (fun o => match o with Save p f => Some (p, f) | MkDir _ => None end) ops.

(** No path saved to is one of the directories made, or above one. *)
Definition conflict_free (ops : list op) : Prop :=
  forall p d, p ∈ (saved ops).*1 -> d ∈ made ops -> ~ p `prefix_of` d.

Definition apply_saves (base : path) (ops : list op) (F : gmap path file)
  : gmap path file :=
  foldl (fun F o => match o with
                    | Save p f => <[base ++ p := f]> F
                    | MkDir _ => F
                    end) F ops.

(** [m] does to the file system what the plan [ops] does under [base]. *)
Definition runs_as (base : path) (m : io unit) (ops : list op) : Prop :=
  forall fs, m fs = run_ops base ops fs.

(** The plan of [_write_png] and [_write_ico] for a file at [base ++ rel]. *)
Definition write_plan (rel : path) (f : file) : list op :=
  [MkDir (removelast rel); Save rel f].

(** ** The plan of the engine-packaging target *)

(** The directories of the target, relative to the output directory. *)
Definition ue_dirs : list path :=
  [ ["ue"; "windows"]; ["ue"; "mac"; "AppIcon.iconset"]; ["ue"; "linux"] ].

(** The sizes of the Windows icon container. *)
Definition ue_ico_sizes : list Z := [16; 24; 32; 48; 64; 128; 256].

(** The PNG files of the target with their sizes: the ten of the iconset,
    then the two Linux ones. *)
Definition ue_pngs : list (path * Z) :=
  ((fun '(name, n) => (["ue"; "mac"; "AppIcon.iconset"; name], n)) <$> mac_entries)
  ++ [ (["ue"; "linux"; "icon-256.png"], 256); (["ue"; "linux"; "icon-512.png"], 512) ].

Section UePlan.

Variable pil_resize : Image -> Z * Z -> Z -> Image.

(** Every file the target writes, relative to the output directory. *)
Definition ue_manifest (opts : Options) (src : Image) : list (path * file) :=
  (["ue"; "windows"; "icon.ico"],
   IcoFile (_resize pil_resize src 256 (resample opts)) ((fun s => (s, s)) <$> ue_ico_sizes))
  :: ((fun '(rel, n) => (rel, PngFile (_resize pil_resize src n (resample opts)))) <$> ue_pngs).

Definition mac_plan (opts : Options) (src : Image) (entry : string * Z) : list op :=
  let '(filename, sz) := entry in
  write_plan ["ue"; "mac"; "AppIcon.iconset"; filename]
    (PngFile (_resize pil_resize src sz (resample opts))).

Definition ue_plan (opts : Options) (src : Image) : list op :=
  write_plan ["ue"; "windows"; "icon.ico"]
    (IcoFile (_resize pil_resize src 256 (resample opts)) ((fun s => (s, s)) <$> ue_ico_sizes))
  ++ [MkDir ["ue"; "mac"; "AppIcon.iconset"]]
  ++ concat (mac_plan opts src <$> mac_entries)
  ++ write_plan ["ue"; "linux"; "icon-256.png"]
       (PngFile (_resize pil_resize src 256 (resample opts)))
  ++ write_plan ["ue"; "linux"; "icon-512.png"]
       (PngFile (_resize pil_resize src 512 (resample opts))).

End UePlan.

(** ** A sample environment

    One resampler and two decoders that meet what the script assumes of
    Pillow; the theorems below hold for every such environment and are
    run on this one. *)

Module Sample.

(** Nearest-neighbour resampling. *)
Definition nearest (img : Image) (sz : Z * Z) (resample : Z) : Image :=
  let '(w, h) := sz in
  PIL.tabulate w h
    (fun x y => default PIL.transparent
                  (PIL.getpixel img (x * width img / w) (y * height img / h))).

(** A decoder that finds no image, and one that always decodes [img]. *)
Definition unreadable : FS -> path -> result Image :=
  fun _ p => Raise (CannotOpenImage p).

Definition decodes (img : Image) : FS -> path -> result Image :=
  fun _ _ => Ok img.

(** A 3 x 2 raster, half transparent on its right column. *)
Definition wide : Image :=
  PIL.tabulate 3 2 (fun x y => Pixel (10 * x) (10 * y) 7 (if x =? 2 then 128 else 255)).

(** A 2 x 2 raster. *)
Definition square : Image :=
  PIL.tabulate 2 2 (fun x y => Pixel x y 0 (if x =? y then 0 else 255)).

(** [--input icon.png --out dist --targets bogus] and [--targets " , "] *)
Definition bogus_args : Args :=
  MkArgs ["icon.png"] ["dist"] "bogus" false "#000000" PyFloat.f0_80.

Definition blank_args : Args :=
  MkArgs ["icon.png"] ["dist"] " , " false "#000000" PyFloat.f0_80.

(** [--input icon.png --out dist --targets ue] *)
Definition ue_opts : Options :=
  MkOptions ["icon.png"] ["dist"] {[ "ue" ]} true "#000000" PyFloat.f0_80 1.

End Sample.

(** ** Notions for the further properties *)

(** A pixel whose four channels are bytes. *)
Definition byte_pixel (p : pixel) : Prop :=
  0 <= red p <= 255 /\ 0 <= green p <= 255 /\ 0 <= blue p <= 255 /\ 0 <= alpha p <= 255.

(** The plan of the web target, relative to the output directory. *)
Definition web_ico_sizes : list Z := [16; 32; 48].

Definition web_pngs : list (path * Z) :=
  [ (["apple-touch-icon.png"], 180); (["icon-192.png"], 192); (["icon-512.png"], 512) ].

Definition web_paths : list path :=
  [ ["favicon.ico"]; ["apple-touch-icon.png"]; ["icon-192.png"]; ["icon-512.png"];
    ["icon-maskable-512.png"] ].

Section WebPlan.

Variable pil_resize : Image -> Z * Z -> Z -> Image.

(** Every file the web target writes, [maskable] being the canvas of the
    padded-fit composer. *)
Definition web_manifest (opts : Options) (src maskable : Image) : list (path * file) :=
  (["favicon.ico"],
   IcoFile (_resize pil_resize src 48 (resample opts)) ((fun s => (s, s)) <$> web_ico_sizes))
  :: ((fun '(rel, n) => (rel, PngFile (_resize pil_resize src n (resample opts)))) <$> web_pngs)
  ++ [ (["icon-maskable-512.png"], PngFile maskable) ].

Definition web_plan (opts : Options) (src maskable : Image) : list op :=
  concat ((fun '(rel, f) => write_plan rel f) <$> web_manifest opts src maskable).

(** The plan of a whole run for the targets [tg]. *)
Definition selected_plan (tg : gset string) (opts : Options) (src maskable : Image)
  : list op :=
  (if decide ("web" ∈ tg) then web_plan opts src maskable else [])
  ++ (if decide ("ue" ∈ tg) then ue_plan pil_resize opts src else []).

End WebPlan.

(** The options [main] builds from the command line and the targets. *)
Definition main_options (LANCZOS : Z) (args : Args) (tg : gset string) : Options :=
  MkOptions (arg_input args) (arg_out args) tg (negb (arg_no_pad args))
    (arg_background args) (arg_maskable_scale args) LANCZOS.

(** The relative paths of the thirteen files of the engine-packaging
    target, and the paths a run for the targets [tg] writes to. *)
Definition ue_paths : list path :=
  ["ue"; "windows"; "icon.ico"] :: ue_pngs.*1.

Definition selected_paths (tg : gset string) : list path :=
  (if decide ("web" ∈ tg) then web_paths else [])
  ++ (if decide ("ue" ∈ tg) then ue_paths else []).

(** [--input icon.png --out dist --targets web,ue] and
    [--input logo.svg --out dist] *)
Definition both_args : Args :=
  MkArgs ["icon.png"] ["dist"] "web,ue" false "#000000" PyFloat.f0_80.

Definition svg_args : Args :=
  MkArgs ["logo.svg"] ["dist"] "web" false "#000000" PyFloat.f0_80.

(** * Properties *)

(** ** Runs on concrete inputs *)

Lemma nearest_size img w h r :
  0 < w -> 0 < h -> size (Sample.nearest img (w, h) r) = (w, h).
Proof. reflexivity. Qed.

Example parse_black : _parse_hex_color "#000000" = Ok (0, 0, 0, 255).
Proof. reflexivity. Qed.

Example parse_mixed_case : _parse_hex_color "  #00fF7f80 " = Ok (0, 255, 127, 128).
Proof. reflexivity. Qed.

Example parse_signed : _parse_hex_color "+1+2+3" = Ok (1, 2, 3, 255).
Proof. reflexivity. Qed.

Example parse_negative : _parse_hex_color "#-1-2-3" = Ok (-1, -2, -3, 255).
Proof. reflexivity. Qed.

Example parse_short : _parse_hex_color "#fff" = Raise (InvalidColor "#fff").
Proof. reflexivity. Qed.

Example parse_not_hex : _parse_hex_color "#00gg00" = Raise (InvalidLiteral "gg").
Proof. reflexivity. Qed.

Example round_409_6 :
  (let! f := PyFloat.of_int 512 in PyFloat.round (PyFloat.mul f PyFloat.f0_80))
  = Ok 410.
Proof. vm_compute. reflexivity. Qed.

(** ** Strings *)

Module PyStrFacts.
Import PyStr.

Lemma append_cons c s t : String c s +:+ t = String c (s +:+ t).
Proof. reflexivity. Qed.

Lemma append_nil s : EmptyString +:+ s = s.
Proof. reflexivity. Qed.

Lemma lstrip_spaces ws s : all_space ws = true -> lstrip (ws +:+ s) = lstrip s.
Proof.
  unfold all_space. induction ws as [|c ws IH]; simpl; intros H.
  - reflexivity.
  - apply andb_prop in H as [Hc Hws]. rewrite ?append_cons. simpl.
    rewrite Hc. auto.
Qed.

Lemma rstrip_all_space ws : all_space ws = true -> rstrip ws = EmptyString.
Proof.
  unfold all_space. induction ws as [|c ws IH]; simpl; intros H.
  - reflexivity.
  - apply andb_prop in H as [Hc Hws]. rewrite (IH Hws), Hc. reflexivity.
Qed.

Lemma rstrip_spaces s ws : all_space ws = true -> rstrip (s +:+ ws) = rstrip s.
Proof.
  intros H. induction s as [|c s IH].
  - rewrite append_nil. simpl. apply rstrip_all_space, H.
  - rewrite ?append_cons. simpl. rewrite IH. reflexivity.
Qed.

Lemma rstrip_cons_nonspace c s :
  isspace c = false -> rstrip (String c s) = String c (rstrip s).
Proof. intros H. simpl. rewrite H. destruct (rstrip s); reflexivity. Qed.

Lemma rstrip_hashes n s : rstrip (hashes n +:+ s) = hashes n +:+ rstrip s.
Proof.
  induction n as [|n IH]; simpl hashes.
  - reflexivity.
  - rewrite ?append_cons, rstrip_cons_nonspace by reflexivity.
    rewrite IH. reflexivity.
Qed.

Lemma lstrip_char_hashes n s :
  lstrip_char "#" (hashes n +:+ s) = lstrip_char "#" s.
Proof. induction n as [|n IH]; simpl hashes; [reflexivity|].
  rewrite ?append_cons. simpl. exact IH.
Qed.

(** What the colour parser keeps of a padded, hash-prefixed string. *)
Lemma remainder_padded ws1 ws2 n v :
  all_space ws1 = true -> all_space ws2 = true ->
  lstrip_char "#" (strip (ws1 +:+ String "#" (hashes n +:+ v +:+ ws2)))
  = lstrip_char "#" (rstrip v).
Proof.
  intros H1 H2. unfold strip. rewrite lstrip_spaces by assumption.
  replace (lstrip (String "#" (hashes n +:+ v +:+ ws2)))
    with (String "#" (hashes n +:+ v +:+ ws2)) by reflexivity.
  rewrite rstrip_cons_nonspace by reflexivity.
  rewrite rstrip_hashes, rstrip_spaces by assumption.
  simpl. apply lstrip_char_hashes.
Qed.

(** A hexadecimal digit is none of the characters [int()] treats
    specially. *)
Lemma hex_value_plain c d :
  hex_value c = Some d ->
  0 <= d < 16 /\ int_isspace c = false /\ is_underscore c = false
  /\ (code c =? 43) = false /\ (code c =? 45) = false
  /\ (code c =? 120) = false /\ (code c =? 88) = false.
Proof.
  destruct c as [[] [] [] [] [] [] [] []]; vm_compute; intros H;
    try discriminate H; injection H as <-; repeat split; congruence.
Qed.

(** [int(s, 16)] of two hexadecimal digits. *)
Lemma int16_two_hex c1 c2 d1 d2 :
  hex_value c1 = Some d1 -> hex_value c2 = Some d2 ->
  int16 (String c1 (String c2 EmptyString)) = Ok (16 * d1 + d2).
Proof.
  intros H1 H2.
  destruct (hex_value_plain _ _ H1) as (_ & Hs1 & Hu1 & Hp1 & Hm1 & _ & _).
  destruct (hex_value_plain _ _ H2) as (_ & Hs2 & Hu2 & _ & _ & Hx2 & HX2).
  unfold int16. simpl skip_int_space. rewrite Hs1.
  unfold take_sign. rewrite Hp1, Hm1.
  unfold skip_0x. rewrite Hx2, HX2, andb_false_r.
  rewrite Hu1. simpl scan_digits. rewrite Hu1, H1, Hu2, H2.
  cbn [skip_int_space]. f_equal; lia.
Qed.

Lemma is_hex_value c : is_hex c = true -> hex_value c = Some (hex_digit c).
Proof. unfold is_hex, hex_digit. destruct (hex_value c); [reflexivity | discriminate]. Qed.

End PyStrFacts.

(** ** The colour parser *)

Section ColorParser.
Import PyStr PyStrFacts.

Lemma parse_hex_color_six c1 c2 c3 c4 c5 c6 value :
  color_remainder value
  = String c1 (String c2 (String c3 (String c4 (String c5 (String c6 EmptyString))))) ->
  _parse_hex_color value
  = (let! r := int16 (String c1 (String c2 EmptyString)) in
     let! g := int16 (String c3 (String c4 EmptyString)) in
     let! b := int16 (String c5 (String c6 EmptyString)) in
     Ok (r, g, b, 255)).
Proof. unfold color_remainder, _parse_hex_color. intros ->. reflexivity. Qed.

Lemma parse_hex_color_eight c1 c2 c3 c4 c5 c6 c7 c8 value :
  color_remainder value
  = String c1 (String c2 (String c3 (String c4 (String c5 (String c6
      (String c7 (String c8 EmptyString))))))) ->
  _parse_hex_color value
  = (let! r := int16 (String c1 (String c2 EmptyString)) in
     let! g := int16 (String c3 (String c4 EmptyString)) in
     let! b := int16 (String c5 (String c6 EmptyString)) in
     let! a := int16 (String c7 (String c8 EmptyString)) in
     Ok (r, g, b, a)).
Proof. unfold color_remainder, _parse_hex_color. intros ->. reflexivity. Qed.

Lemma parse_hex_color_bad_length value :
  String.length (color_remainder value) <> 6%nat ->
  String.length (color_remainder value) <> 8%nat ->
  _parse_hex_color value = Raise (InvalidColor value).
Proof.
  unfold color_remainder, _parse_hex_color. intros H6 H8.
  apply Nat.eqb_neq in H6, H8. rewrite H6, H8. reflexivity.
Qed.

(** The tuple returned depends on the remainder alone. *)
Lemma parse_hex_color_remainder value1 value2 t :
  color_remainder value1 = color_remainder value2 ->
  _parse_hex_color value1 = Ok t -> _parse_hex_color value2 = Ok t.
Proof.
  unfold color_remainder, _parse_hex_color. intros ->.
  destruct (Nat.eqb _ 6); [auto|]. destruct (Nat.eqb _ 8); [auto|].
  discriminate.
Qed.

Ltac split_hex H :=
  cbn [all_hex list_ascii_of_string forallb] in H;
  repeat (apply andb_prop in H as [?%is_hex_value H]).

(** C5: when what is left of the string after stripping is six
    hexadecimal digits, the parser returns the three bytes they spell and
    alpha 255; when it is eight hexadecimal digits, it returns the four
    bytes they spell, the alpha being the value of the last two digits. *)
Theorem parse_hex_color_valid (value v : string) :
  color_remainder value = v ->
  all_hex v = true ->
  (String.length v = 6%nat ->
   _parse_hex_color value = Ok (byte_at 0 v, byte_at 2 v, byte_at 4 v, 255))
  /\
  (String.length v = 8%nat ->
   _parse_hex_color value
   = Ok (byte_at 0 v, byte_at 2 v, byte_at 4 v, byte_at 6 v)).
Proof.
  intros Hv Hhex. split; intros Hlen.
  - destruct v as [|c1 [|c2 [|c3 [|c4 [|c5 [|c6 [|c7 v]]]]]]]; try discriminate Hlen.
    split_hex Hhex.
    rewrite (parse_hex_color_six _ _ _ _ _ _ _ Hv).
    repeat (erewrite int16_two_hex by eassumption). reflexivity.
  - destruct v as [|c1 [|c2 [|c3 [|c4 [|c5 [|c6 [|c7 [|c8 [|c9 v]]]]]]]]];
      try discriminate Hlen.
    split_hex Hhex.
    rewrite (parse_hex_color_eight _ _ _ _ _ _ _ _ _ Hv).
    repeat (erewrite int16_two_hex by eassumption). reflexivity.
Qed.

Lemma parse_hex_color_valid_witness :
  _parse_hex_color "#00ff7f" = Ok (0, 255, 127, 255)
  /\ _parse_hex_color " #00FF7F80" = Ok (0, 255, 127, 128).
Proof.
  split.
  - exact (proj1 (parse_hex_color_valid "#00ff7f" "00ff7f" eq_refl eq_refl) eq_refl).
  - exact (proj2 (parse_hex_color_valid " #00FF7F80" "00FF7F80" eq_refl eq_refl) eq_refl).
Defined.

(** C2: a string whose remainder has six characters, three of them plus
    signs, is not rejected: [int] reads each pair as a signed number and
    the parser returns a tuple. *)
Theorem parse_hex_color_accepts_sign :
  String.length (color_remainder "+1+2+3") = 6%nat
  /\ all_hex (color_remainder "+1+2+3") = false
  /\ _parse_hex_color "+1+2+3" = Ok (1, 2, 3, 255).
Proof. repeat split. Qed.

(** White space inside a pair and a minus sign are read the same way; the
    latter yields channels that are no bytes. *)
Example parse_hex_color_accepts_more :
  _parse_hex_color "#1 2 34" = Ok (1, 2, 52, 255)
  /\ _parse_hex_color "#-1-2-3ff" = Ok (-1, -2, -3, 255).
Proof. split; reflexivity. Qed.

(** A hexadecimal digit is neither white space nor a hash. *)
Lemma is_hex_plain c : is_hex c = true -> isspace c = false /\ Ascii.eqb c "#" = false.
Proof.
  destruct c as [[] [] [] [] [] [] [] []]; vm_compute; intros H;
    try discriminate H; split; reflexivity.
Qed.

Lemma rstrip_hex v : all_hex v = true -> rstrip v = v.
Proof.
  unfold all_hex. induction v as [|c v IH]; [reflexivity|].
  cbn [list_ascii_of_string forallb]. intros [Hc Hv]%andb_prop.
  rewrite rstrip_cons_nonspace by apply (is_hex_plain c Hc).
  rewrite IH by exact Hv. reflexivity.
Qed.

Lemma lstrip_char_hex v : all_hex v = true -> lstrip_char "#" v = v.
Proof.
  unfold all_hex. destruct v as [|c v]; [reflexivity|].
  cbn [list_ascii_of_string forallb lstrip_char]. intros [Hc _]%andb_prop.
  destruct (is_hex_plain c Hc) as [_ ->]. reflexivity.
Qed.

(** What is left of a padded string of hexadecimal digits is the digits. *)
Lemma remainder_padded_hex ws1 ws2 n v :
  all_space ws1 = true -> all_space ws2 = true -> all_hex v = true ->
  color_remainder (ws1 +:+ String "#" (hashes n +:+ v +:+ ws2)) = v.
Proof.
  intros H1 H2 Hhex. unfold color_remainder.
  rewrite remainder_padded by assumption.
  rewrite rstrip_hex by assumption. apply lstrip_char_hex, Hhex.
Qed.

(** The tuple of a string whose remainder is hexadecimal digits. *)
Lemma parse_hex_color_digits (value v : string) :
  color_remainder value = v ->
  all_hex v = true ->
  (String.length v = 6%nat ->
   _parse_hex_color value = Ok (byte_at 0 v, byte_at 2 v, byte_at 4 v, 255))
  /\
  (String.length v = 8%nat ->
   _parse_hex_color value
   = Ok (byte_at 0 v, byte_at 2 v, byte_at 4 v, byte_at 6 v)).
Proof.
  intros Hv Hhex. split; intros Hlen.
  - destruct v as [|c1 [|c2 [|c3 [|c4 [|c5 [|c6 [|c7 v]]]]]]]; try discriminate Hlen.
    split_hex Hhex.
    rewrite (parse_hex_color_six _ _ _ _ _ _ _ Hv).
    repeat (erewrite int16_two_hex by eassumption). reflexivity.
  - destruct v as [|c1 [|c2 [|c3 [|c4 [|c5 [|c6 [|c7 [|c8 [|c9 v]]]]]]]]];
      try discriminate Hlen.
    split_hex Hhex.
    rewrite (parse_hex_color_eight _ _ _ _ _ _ _ _ _ Hv).
    repeat (erewrite int16_two_hex by eassumption). reflexivity.
Qed.

(** C10: white space around the string and every hash before the digits
    are dropped before anything else: a string padded with white space
    and carrying any number of further hashes leaves the remainder its
    single-hash form leaves and parses to the same tuple, and a remainder
    of neither six nor eight characters is rejected.  When the text after
    the hashes is hexadecimal digits, the remainder is that text: with six
    or eight digits the padded string and the single-hash form both
    return the tuple the digits spell, and with another number of digits
    the padded string is rejected whatever its own length. *)
Theorem parse_hex_color_strips (ws1 ws2 v : string) (n : nat) :
  all_space ws1 = true ->
  all_space ws2 = true ->
  color_remainder (ws1 +:+ String "#" (hashes n +:+ v +:+ ws2))
  = color_remainder (String "#" v)
  /\ (forall t,
        _parse_hex_color (ws1 +:+ String "#" (hashes n +:+ v +:+ ws2)) = Ok t
        <-> _parse_hex_color (String "#" v) = Ok t)
  /\ (String.length (color_remainder (String "#" v)) <> 6%nat ->
      String.length (color_remainder (String "#" v)) <> 8%nat ->
      _parse_hex_color (ws1 +:+ String "#" (hashes n +:+ v +:+ ws2))
      = Raise (InvalidColor (ws1 +:+ String "#" (hashes n +:+ v +:+ ws2))))
  /\ (all_hex v = true ->
      color_remainder (ws1 +:+ String "#" (hashes n +:+ v +:+ ws2)) = v
      /\ (String.length v = 6%nat ->
          _parse_hex_color (ws1 +:+ String "#" (hashes n +:+ v +:+ ws2))
          = Ok (byte_at 0 v, byte_at 2 v, byte_at 4 v, 255)
          /\ _parse_hex_color (String "#" v)
             = Ok (byte_at 0 v, byte_at 2 v, byte_at 4 v, 255))
      /\ (String.length v = 8%nat ->
          _parse_hex_color (ws1 +:+ String "#" (hashes n +:+ v +:+ ws2))
          = Ok (byte_at 0 v, byte_at 2 v, byte_at 4 v, byte_at 6 v)
          /\ _parse_hex_color (String "#" v)
             = Ok (byte_at 0 v, byte_at 2 v, byte_at 4 v, byte_at 6 v))
      /\ (String.length v <> 6%nat -> String.length v <> 8%nat ->
          _parse_hex_color (ws1 +:+ String "#" (hashes n +:+ v +:+ ws2))
          = Raise (InvalidColor (ws1 +:+ String "#" (hashes n +:+ v +:+ ws2))))).
Proof.
  intros H1 H2.
  assert (Hrem : color_remainder (ws1 +:+ String "#" (hashes n +:+ v +:+ ws2))
                 = color_remainder (String "#" v)).
  { unfold color_remainder at 1. rewrite remainder_padded by assumption.
    unfold color_remainder, strip.
    replace (lstrip (String "#" v)) with (String "#" v) by reflexivity.
    rewrite rstrip_cons_nonspace by reflexivity. reflexivity. }
  split; [exact Hrem|]. split; [|split].
  - intros t. split; apply parse_hex_color_remainder; [|symmetry]; exact Hrem.
  - intros H6 H8. apply parse_hex_color_bad_length; rewrite Hrem; assumption.
  - intros Hhex.
    pose proof (remainder_padded_hex ws1 ws2 n v H1 H2 Hhex) as Hv.
    assert (Hv' : color_remainder (String "#" v) = v) by (rewrite <- Hrem; exact Hv).
    destruct (parse_hex_color_digits _ v Hv Hhex) as [P6 P8].
    destruct (parse_hex_color_digits _ v Hv' Hhex) as [Q6 Q8].
    split; [exact Hv|]. split; [|split].
    + intros Hlen. split; [apply P6 | apply Q6]; exact Hlen.
    + intros Hlen. split; [apply P8 | apply Q8]; exact Hlen.
    + intros H6 H8. apply parse_hex_color_bad_length; rewrite Hv; assumption.
Qed.

Lemma parse_hex_color_strips_witness :
  (_parse_hex_color "  ##00ff00  " = Ok (0, 255, 0, 255)
   <-> _parse_hex_color "#00ff00" = Ok (0, 255, 0, 255))
  /\ _parse_hex_color "  ###00ff0  " = Raise (InvalidColor "  ###00ff0  ")
  /\ _parse_hex_color "##00ff00" = Ok (0, 255, 0, 255)
  /\ _parse_hex_color "  #00ff00  " = Ok (0, 255, 0, 255)
  /\ _parse_hex_color "#00ff00" = Ok (0, 255, 0, 255)
  /\ _parse_hex_color " ##00FF7f80 " = Ok (0, 255, 127, 128).
Proof.
  split; [|split; [|split; [|split; [|split]]]].
  - exact (proj1 (proj2 (parse_hex_color_strips "  " "  " "00ff00" 1 eq_refl eq_refl))
             (0, 255, 0, 255)).
  - refine (proj1 (proj2 (proj2 (parse_hex_color_strips "  " "  " "00ff0" 2
                                   eq_refl eq_refl))) _ _);
      vm_compute; discriminate.
  - destruct (parse_hex_color_strips "" "" "00ff00" 1 eq_refl eq_refl) as (_ & _ & _ & D).
    destruct (D eq_refl) as (_ & F6 & _ & _). exact (proj1 (F6 eq_refl)).
  - destruct (parse_hex_color_strips "  " "  " "00ff00" 0 eq_refl eq_refl) as (_ & _ & _ & D).
    destruct (D eq_refl) as (_ & F6 & _ & _). exact (proj1 (F6 eq_refl)).
  - destruct (parse_hex_color_strips "  " "  " "00ff00" 0 eq_refl eq_refl) as (_ & _ & _ & D).
    destruct (D eq_refl) as (_ & F6 & _ & _). exact (proj2 (F6 eq_refl)).
  - destruct (parse_hex_color_strips " " " " "00FF7f80" 1 eq_refl eq_refl) as (_ & _ & _ & D).
    destruct (D eq_refl) as (_ & _ & F8 & _). exact (proj1 (F8 eq_refl)).
Defined.

Example parse_hex_color_same_tuple :
  _parse_hex_color "##00ff00" = Ok (0, 255, 0, 255)
  /\ _parse_hex_color "  #00ff00  " = Ok (0, 255, 0, 255)
  /\ _parse_hex_color "#00ff00" = Ok (0, 255, 0, 255).
Proof. repeat split. Qed.

End ColorParser.

(** ** The file system *)

Module FsFacts.
Import Fs.

Lemma files_lookup (fs : FS) p :
  files fs !! p = match fs !! p with Some (File f) => Some f | _ => None end.
Proof. unfold files. rewrite lookup_omap. destruct (fs !! p) as [[|f]|]; reflexivity. Qed.

Lemma files_insert_dir (fs : FS) p :
  (forall f, fs !! p <> Some (File f)) -> files (<[p := Dir]> fs) = files fs.
Proof.
  intros H. apply map_eq. intros q. rewrite !files_lookup.
  destruct (decide (p = q)) as [->|Hne].
  - rewrite lookup_insert_eq. destruct (fs !! q) as [[|f]|] eqn:E; try reflexivity.
    exfalso. exact (H f eq_refl).
  - rewrite lookup_insert_ne by assumption. reflexivity.
Qed.

Lemma files_insert_file (fs : FS) p f :
  files (<[p := File f]> fs) = <[p := f]> (files fs).
Proof. unfold files. rewrite omap_insert. reflexivity. Qed.

(** Making directories writes no file. *)
Lemma mkdir_from_files rest : forall base fs,
  files (mkdir_from base rest fs).2 = files fs.
Proof.
  induction rest as [|c rest IH]; intros base fs; simpl; [reflexivity|].
  destruct (fs !! join base c) as [[|f]|] eqn:E; simpl; try reflexivity.
  - rewrite IH. apply files_insert_dir. intros f. rewrite E. discriminate.
  - rewrite IH. apply files_insert_dir. intros f. rewrite E. discriminate.
Qed.

Lemma mkdir_files d fs : files (mkdir d fs).2 = files fs.
Proof. apply mkdir_from_files. Qed.

(** A directory stays one under [mkdir]. *)
Lemma mkdir_from_keeps_dir rest : forall base fs q,
  fs !! q = Some Dir -> (mkdir_from base rest fs).2 !! q = Some Dir.
Proof.
  induction rest as [|c rest IH]; intros base fs q Hq; simpl; [exact Hq|].
  destruct (fs !! join base c) as [[|f]|] eqn:E; simpl; try exact Hq.
  - apply IH. destruct (decide (join base c = q)) as [->|Hne].
    + apply lookup_insert_eq.
    + rewrite lookup_insert_ne by assumption. exact Hq.
  - apply IH. destruct (decide (join base c = q)) as [->|Hne].
    + apply lookup_insert_eq.
    + rewrite lookup_insert_ne by assumption. exact Hq.
Qed.

(** What [mkdir] leaves at a path: what was there, or a directory at a
    prefix of the path made. *)
Lemma mkdir_from_lookup rest : forall base fs q,
  (mkdir_from base rest fs).2 !! q = fs !! q
  \/ ((mkdir_from base rest fs).2 !! q = Some Dir /\ q `prefix_of` base ++ rest).
Proof.
  induction rest as [|c rest IH]; intros base fs q; simpl; [left; reflexivity|].
  destruct (fs !! join base c) as [[|f]|] eqn:E; simpl; [| left; reflexivity |].
  - destruct (IH (join base c) (<[join base c := Dir]> fs) q) as [H|[H1 H2]].
    + rewrite H. destruct (decide (join base c = q)) as [<-|Hne].
      * rewrite lookup_insert_eq. left. symmetry. exact E.
      * left. apply lookup_insert_ne. assumption.
    + right. split; [exact H1|]. unfold join in H2. rewrite <- app_assoc in H2. exact H2.
  - destruct (IH (join base c) (<[join base c := Dir]> fs) q) as [H|[H1 H2]].
    + rewrite H. destruct (decide (join base c = q)) as [<-|Hne].
      * rewrite lookup_insert_eq. right. split; [reflexivity|].
        unfold join. apply prefix_app, prefix_cons, prefix_nil.
      * left. apply lookup_insert_ne. assumption.
    + right. split; [exact H1|]. unfold join in H2. rewrite <- app_assoc in H2. exact H2.
Qed.

(** [mkdir] succeeds when no regular file is in the way, and then the
    directory exists. *)
Lemma mkdir_from_ok rest : forall base fs,
  no_file_above fs (base ++ rest) ->
  (mkdir_from base rest fs).1 = Ok tt
  /\ (rest <> [] -> (mkdir_from base rest fs).2 !! (base ++ rest) = Some Dir).
Proof.
  induction rest as [|c rest IH]; intros base fs Hno; simpl.
  - split; [reflexivity | congruence].
  - assert (Hp : join base c `prefix_of` base ++ c :: rest).
    { unfold join. apply prefix_app, prefix_cons, prefix_nil. }
    assert (Hnext : no_file_above (<[join base c := Dir]> fs) (join base c ++ rest)).
    { intros q f Hq. unfold join in Hq. rewrite <- app_assoc in Hq.
      destruct (decide (join base c = q)) as [<-|Hne].
      - rewrite lookup_insert_eq. discriminate.
      - rewrite lookup_insert_ne by assumption. apply Hno. exact Hq. }
    assert (Happ : join base c ++ rest = base ++ c :: rest).
    { unfold join. rewrite <- app_assoc. reflexivity. }
    destruct (fs !! join base c) as [[|f]|] eqn:E.
    + destruct (IH _ _ Hnext) as [H1 H2]. split; [exact H1|]. intros _.
      destruct rest as [|c' rest'].
      * simpl. rewrite app_nil_r in Happ. rewrite <- Happ. apply lookup_insert_eq.
      * rewrite <- Happ. apply H2. discriminate.
    + exfalso. exact (Hno _ f Hp E).
    + destruct (IH _ _ Hnext) as [H1 H2]. split; [exact H1|]. intros _.
      destruct rest as [|c' rest'].
      * simpl. rewrite app_nil_r in Happ. rewrite <- Happ. apply lookup_insert_eq.
      * rewrite <- Happ. apply H2. discriminate.
Qed.

Lemma mkdir_ok d fs :
  no_file_above fs d ->
  exists fs', mkdir d fs = (Ok tt, fs') /\ files fs' = files fs
              /\ (d <> [] -> fs' !! d = Some Dir).
Proof.
  intros Hno. destruct (mkdir_from_ok d [] fs Hno) as [H1 H2].
  exists (mkdir d fs).2. unfold mkdir in *.
  pose proof (mkdir_from_files d [] fs) as Hf.
  destruct (mkdir_from [] d fs) as [r fs'] eqn:E. simpl in *. subst r.
  split; [reflexivity|]. split; [exact Hf | exact H2].
Qed.

End FsFacts.

(** ** Rasters *)

Module PILFacts.
Import PIL.

Lemma size_tabulate w h f : size (tabulate w h f) = (w, h).
Proof. reflexivity. Qed.

Lemma wf_tabulate w h f : 0 <= w -> 0 <= h -> wf_image (tabulate w h f).
Proof.
  intros Hw Hh. unfold wf_image. simpl.
  rewrite length_fmap, length_seq. auto.
Qed.

Lemma getpixel_tabulate w h f x y :
  0 <= x < w -> 0 <= y < h -> getpixel (tabulate w h f) x y = Some (f x y).
Proof.
  intros Hx Hy. unfold getpixel, in_bounds. simpl.
  replace ((0 <=? x) && (x <? w) && (0 <=? y) && (y <? h)) with true
    by (symmetry; repeat (apply andb_true_intro; split); lia).
  rewrite list_lookup_fmap, lookup_seq_lt by nia.
  simpl. rewrite Z2Nat.id by nia.
  replace (y * w + x) with (x + y * w) by lia.
  rewrite Z.mod_add, Z.div_add by lia.
  rewrite Z.mod_small, Z.div_small by lia. reflexivity.
Qed.

Lemma getpixel_outside img x y :
  ~ (0 <= x < width img /\ 0 <= y < height img) -> getpixel img x y = None.
Proof.
  intros H. unfold getpixel, in_bounds.
  destruct ((0 <=? x) && (x <? width img) && (0 <=? y) && (y <? height img)) eqn:E;
    [|reflexivity].
  exfalso. apply H. repeat (apply andb_prop in E as [E ?]). lia.
Qed.

Lemma getpixel_wf img x y :
  wf_image img -> 0 <= x < width img -> 0 <= y < height img ->
  exists p, getpixel img x y = Some p.
Proof.
  intros (Hw & Hh & Hlen) Hx Hy. unfold getpixel, in_bounds.
  replace ((0 <=? x) && (x <? width img) && (0 <=? y) && (y <? height img)) with true
    by (symmetry; repeat (apply andb_true_intro; split); lia).
  apply lookup_lt_is_Some. rewrite Hlen. nia.
Qed.

Lemma new_ok w h c :
  0 <= w -> 0 <= h -> new (w, h) c = Ok (tabulate w h (fun _ _ => ink c)).
Proof.
  intros Hw Hh. unfold new.
  replace ((w <? 0) || (h <? 0)) with false by (symmetry; apply orb_false_intro; lia).
  reflexivity.
Qed.

Lemma crop_ok img x0 y0 x1 y1 :
  x0 <= x1 -> y0 <= y1 ->
  crop img (x0, y0, x1, y1)
  = Ok (tabulate (x1 - x0) (y1 - y0)
          (fun x y => default transparent (getpixel img (x0 + x) (y0 + y)))).
Proof.
  intros Hx Hy. unfold crop.
  replace ((x1 <? x0) || (y1 <? y0)) with false by (symmetry; apply orb_false_intro; lia).
  reflexivity.
Qed.

(** Over an opaque pixel the composite is opaque, whatever lies on top. *)
Lemma composite_pixel_opaque dst src :
  alpha dst = 255 -> alpha (composite_pixel dst src) = 255.
Proof.
  intros Hd. unfold composite_pixel.
  destruct (alpha src =? 0); [exact Hd|]. simpl. rewrite Hd.
  replace (alpha src * 255 + 255 * (255 - alpha src) + 128) with 65153 by lia.
  reflexivity.
Qed.

(** A transparent pixel on top leaves what is below. *)
Lemma composite_pixel_transparent dst src :
  alpha src = 0 -> composite_pixel dst src = dst.
Proof. intros Hs. unfold composite_pixel. rewrite Hs. reflexivity. Qed.

(** The in-place composite: the size of [self] is kept, inside the box
    each pixel is the overlay's pixel over the one of [self], outside
    nothing changes. *)
Lemma alpha_composite_at_spec self im dx dy :
  0 <= width im -> 0 <= height im ->
  exists r,
    alpha_composite_at self im (dx, dy) = Ok r
    /\ size r = size self
    /\ forall x y, 0 <= x < width self -> 0 <= y < height self ->
         getpixel r x y
         = Some (if in_box im dx dy x y
                 then composite_pixel (pixel_at self x y) (pixel_at im (x - dx) (y - dy))
                 else pixel_at self x y).
Proof.
  intros Hw Hh. unfold alpha_composite_at.
  destruct ((dx =? 0) && (dy =? 0) && (width im =? width self)
            && (height im =? height self)) eqn:Ewhole.
  - repeat (apply andb_prop in Ewhole as [Ewhole ?]).
    assert (dx = 0) as -> by lia. assert (dy = 0) as -> by lia.
    assert (Ewi : width im = width self) by lia.
    assert (Ehe : height im = height self) by lia.
    cbn [rbind]. unfold alpha_composite.
    replace ((width self =? width im) && (height self =? height im)) with true
      by (symmetry; apply andb_true_intro; lia).
    cbn [rbind]. eexists. split; [reflexivity|]. split; [reflexivity|].
    intros x y Hx Hy. unfold paste. rewrite getpixel_tabulate by assumption.
    unfold in_box. rewrite !Z.add_0_l, Ewi, Ehe.
    destruct ((0 <=? x) && (x <? width self) && (0 <=? y) && (y <? height self)) eqn:E.
    + rewrite !Z.sub_0_r. rewrite getpixel_tabulate by assumption. reflexivity.
    + exfalso. repeat (apply andb_false_elim in E as [E|E]); lia.
  - rewrite crop_ok by lia. cbn [rbind]. unfold alpha_composite.
    cbn [width height tabulate].
    replace ((dx + width im - dx =? width im) && (dy + height im - dy =? height im))
      with true by (symmetry; apply andb_true_intro; lia).
    cbn [rbind]. eexists. split; [reflexivity|]. split; [reflexivity|].
    intros x y Hx Hy. unfold paste. rewrite getpixel_tabulate by assumption.
    unfold in_box.
    destruct ((dx <=? x) && (x <? dx + width im) && (dy <=? y) && (y <? dy + height im)) eqn:E.
    + repeat (apply andb_prop in E as [E ?]).
      rewrite getpixel_tabulate by lia. cbn [default].
      rewrite getpixel_tabulate by lia. cbn [default].
      unfold pixel_at. replace (dx + (x - dx)) with x by lia.
      replace (dy + (y - dy)) with y by lia. reflexivity.
    + reflexivity.
Qed.

End PILFacts.

(** ** Floats: the content size is always computed *)

Module FloatFacts.
Import PyFloat.

Lemma digits2_size p : digits2_pos p = Pos.size p.
Proof. induction p; simpl; congruence. Qed.

Lemma Zdigits2_log2 p : Z.pos (digits2_pos p) = Z.log2 (Z.pos p) + 1.
Proof.
  rewrite digits2_size. destruct p; simpl; try reflexivity; lia.
Qed.

(** [m] has at most [d] binary digits exactly when it lies below [2 ^ d]. *)
Lemma Zdigits2_le m d : 0 <= m -> 0 <= d -> (Zdigits2 m <= d <-> m < 2 ^ d).
Proof.
  intros Hm Hd. destruct m as [|p|p]; [| |lia].
  - simpl. split; [intros _; apply Z.pow_pos_nonneg; lia | intros _; exact Hd].
  - cbn [Zdigits2]. rewrite Zdigits2_log2.
    rewrite (Z.log2_lt_pow2 (Z.pos p) d) by lia. lia.
Qed.

Lemma Zdigits2_nonneg m : 0 <= Zdigits2 m.
Proof. destruct m; simpl; lia. Qed.

Lemma shr_1_m mrs : 0 <= shr_m mrs -> shr_m (shr_1 mrs) = shr_m mrs / 2.
Proof.
  destruct mrs as [m r s]. cbn [shr_m]. intros Hm.
  rewrite <- Z.div2_div.
  destruct m as [|[p|p|]|p]; try reflexivity; lia.
Qed.

Lemma iter_shr_m p : forall mrs,
  0 <= shr_m mrs -> shr_m (SpecFloat.iter_pos shr_1 p mrs) = shr_m mrs / 2 ^ Z.pos p.
Proof.
  induction p as [p IH|p IH|]; intros mrs Hm; cbn [SpecFloat.iter_pos].
  - assert (H1 : 0 <= shr_m (shr_1 mrs)) by (rewrite shr_1_m by lia; apply Z.div_pos; lia).
    assert (H2 : 0 <= shr_m (SpecFloat.iter_pos shr_1 p (shr_1 mrs)))
      by (rewrite IH by lia; apply Z.div_pos; lia).
    rewrite IH, IH, shr_1_m by lia.
    rewrite !Z.div_div by lia. f_equal.
    replace (Z.pos p~1) with (1 + Z.pos p + Z.pos p) by lia.
    rewrite !Z.pow_add_r by lia. lia.
  - assert (H2 : 0 <= shr_m (SpecFloat.iter_pos shr_1 p mrs))
      by (rewrite IH by lia; apply Z.div_pos; lia).
    rewrite IH, IH by lia.
    rewrite !Z.div_div by lia. f_equal.
    replace (Z.pos p~0) with (Z.pos p + Z.pos p) by lia.
    rewrite !Z.pow_add_r by lia. lia.
  - rewrite shr_1_m by lia. reflexivity.
Qed.

Abbreviation fexp64 := (fexp 53 1024).

Lemma Zdigits2_div m n :
  0 < m / 2 ^ n -> 0 <= n -> Zdigits2 (m / 2 ^ n) <= Zdigits2 m - n.
Proof.
  intros Hq Hn.
  assert (Hp : 0 < 2 ^ n) by (apply Z.pow_pos_nonneg; lia).
  assert (Hm : 0 < m).
  { destruct (Z.le_gt_cases m 0) as [Hle|]; [|assumption].
    assert (m / 2 ^ n <= 0) by (apply Z.div_le_upper_bound; lia). lia. }
  assert (Hup : m < 2 ^ Zdigits2 m)
    by (apply Zdigits2_le; [lia | apply Zdigits2_nonneg | lia]).
  assert (Hlow : 2 ^ n <= m).
  { destruct (Z.le_gt_cases (2 ^ n) m); [assumption|].
    rewrite Z.div_small in Hq by lia. lia. }
  assert (Hdn : n < Zdigits2 m).
  { destruct (Z.le_gt_cases (Zdigits2 m) n) as [Hle|]; [|assumption].
    assert (2 ^ Zdigits2 m <= 2 ^ n) by (apply Z.pow_le_mono_r; lia). lia. }
  apply Zdigits2_le; [lia | lia |].
  apply Z.div_lt_upper_bound; [lia|].
  rewrite <- Z.pow_add_r by lia. replace (n + (Zdigits2 m - n)) with (Zdigits2 m) by lia.
  exact Hup.
Qed.

Lemma shr_fexp_below K m e :
  -1074 <= K -> below K m e ->
  below K (shr_m (fst (shr_fexp 53 1024 m e loc_Exact)))
          (snd (shr_fexp 53 1024 m e loc_Exact)).
Proof.
  intros HK (Hm & Hd & He). unfold shr_fexp, shr.
  destruct (fexp64 (Zdigits2 m + e) - e) as [|p|p] eqn:En; cbn [fst snd shr_record_of_loc shr_m];
    try (repeat split; assumption).
  rewrite iter_shr_m by (cbn [shr_m]; exact Hm). cbn [shr_m].
  assert (Hfe : e + Z.pos p = fexp64 (Zdigits2 m + e)) by lia.
  unfold fexp, emin in Hfe.
  split; [apply Z.div_pos; [lia | apply Z.pow_pos_nonneg; lia]|].
  split.
  - destruct (Z.eq_dec (m / 2 ^ Z.pos p) 0) as [Hz|Hnz]; [left; exact Hz | right].
    assert (Hq : 0 < m / 2 ^ Z.pos p).
    { assert (0 <= m / 2 ^ Z.pos p) by (apply Z.div_pos; [lia | apply Z.pow_pos_nonneg; lia]). lia. }
    pose proof (Zdigits2_div m (Z.pos p) Hq ltac:(lia)) as Hdiv.
    destruct Hd as [->|Hd]; [rewrite Z.div_0_l in Hq by (apply Z.pow_nonzero; lia); lia|].
    lia.
  - destruct Hd as [->|Hd]; cbn [Zdigits2] in Hfe; lia.
Qed.

Lemma round_nearest_even_below K m e l :
  below K m e -> below (K + 1) (round_nearest_even m l) e.
Proof.
  intros (Hm & Hd & He).
  assert (Hr : round_nearest_even m l = m \/ round_nearest_even m l = m + 1).
  { unfold round_nearest_even. destruct l as [|[]]; auto. destruct (Z.even m); auto. }
  destruct Hr as [-> | ->].
  - repeat split; [lia | destruct Hd; [left|right]; lia | lia].
  - split; [lia|]. split; [right | lia].
    destruct Hd as [->|Hd]; [change (Zdigits2 (0 + 1)) with 1; lia|].
    assert (Hup : m < 2 ^ Zdigits2 m)
      by (apply Zdigits2_le; [lia | apply Zdigits2_nonneg | lia]).
    assert (Zdigits2 (m + 1) <= Zdigits2 m + 1); [|lia].
    apply Zdigits2_le; [lia | pose proof (Zdigits2_nonneg m); lia |].
    rewrite Z.pow_add_r by (try apply Zdigits2_nonneg; lia). lia.
Qed.

(** Rounding a product that stays below [2 ^ 970] gives zero or a finite
    number, never an infinity or a NaN. *)
Lemma binary_round_aux_finite K s m e :
  0 <= K <= 970 -> below K m e ->
  binary_round_aux 53 1024 s m e loc_Exact = S754_zero s
  \/ exists m' e', binary_round_aux 53 1024 s m e loc_Exact = S754_finite s m' e'
                   /\ Z.pos (digits2_pos m') + e' <= K + 1.
Proof.
  intros HK Hb. unfold binary_round_aux.
  pose proof (shr_fexp_below K m e ltac:(lia) Hb) as H1.
  destruct (shr_fexp 53 1024 m e loc_Exact) as [mrs' e']. cbn [fst snd] in H1.
  pose proof (round_nearest_even_below K _ _ (loc_of_shr_record mrs') H1) as H2.
  pose proof (shr_fexp_below (K + 1) _ _ ltac:(lia) H2) as H3.
  destruct (shr_fexp 53 1024 (round_nearest_even (shr_m mrs') (loc_of_shr_record mrs')) e' loc_Exact)
    as [mrs'' e'']. cbn [fst snd] in H3.
  destruct H3 as (Hm & Hd & He).
  destruct (shr_m mrs'') as [|p|p]; [left; reflexivity | right | lia].
  replace (e'' <=? 1024 - 53) with true by (symmetry; apply Z.leb_le; lia).
  exists p, e''. split; [reflexivity|].
  destruct Hd as [Hd|Hd]; [discriminate | exact Hd].
Qed.

Lemma digits2_iter_xO m d :
  Z.pos (digits2_pos (Pos.iter xO m d)) = Z.pos (digits2_pos m) + Z.pos d.
Proof.
  induction d as [|d IH] using Pos.peano_ind.
  - simpl. lia.
  - rewrite Pos.iter_succ. cbn [digits2_pos]. lia.
Qed.

Lemma shl_align_digits m e e' :
  Z.pos (digits2_pos (fst (shl_align m e e'))) + snd (shl_align m e e')
  = Z.pos (digits2_pos m) + e.
Proof.
  unfold shl_align. destruct (e' - e) as [|d|d] eqn:E; cbn [fst snd]; try reflexivity.
  rewrite digits2_iter_xO. lia.
Qed.

Lemma of_int_small n :
  0 < n < 2 ^ 53 -> exists f, of_int n = Ok f /\ small 54 f.
Proof.
  intros Hn. destruct n as [|p|p]; try lia.
  unfold of_int, binary_normalize, binary_round.
  pose proof (shl_align_digits p 0 (fexp prec emax (Z.pos (digits2_pos p) + 0))) as Hal.
  destruct (shl_align p 0 (fexp prec emax (Z.pos (digits2_pos p) + 0))) as [mz ez].
  cbn [fst snd] in Hal.
  assert (Hd : Z.pos (digits2_pos p) <= 53).
  { apply (Zdigits2_le (Z.pos p) 53); lia. }
  destruct (binary_round_aux_finite 53 false (Z.pos mz) ez ltac:(lia)) as [Hz|(m' & e' & Hf & Hb)].
  - split; [lia|]. split; [right; cbn [Zdigits2]; lia | lia].
  - unfold prec, emax. rewrite Hz. eexists. split; [reflexivity | left; reflexivity].
  - unfold prec, emax. rewrite Hf. eexists. split; [reflexivity|].
    right. exists m', e'. split; [reflexivity | lia].
Qed.

(** The clamped content scale lies between 0.1 and 1.0. *)
Lemma clamp_small cs :
  valid_binary prec emax cs = true ->
  small 1 (max f0_1 (min cs f1_0)).
Proof.
  intros Hv. unfold max, min, lt.
  destruct (SFltb f1_0 cs) eqn:E1.
  - right. vm_compute. eexists _, _. split; [reflexivity | vm_compute; discriminate].
  - destruct (SFltb f0_1 cs) eqn:E0.
    + destruct cs as [s|s| |s m e]; try discriminate E0.
      * destruct s; discriminate.
      * destruct s; [discriminate|].
        right. exists m, e. split; [reflexivity|].
        unfold SFltb, SFcompare, f0_1, f1_0 in E0, E1.
        cbn [valid_binary] in Hv. unfold bounded, canonical_mantissa, fexp, emin, prec, emax in Hv.
        apply andb_prop in Hv as [Hc _]. apply Z.eqb_eq in Hc.
        destruct (Z.compare_spec (-56) e); destruct (Z.compare_spec (-52) e);
          try discriminate; lia.
    + right. vm_compute. eexists _, _. split; [reflexivity | vm_compute; discriminate].
Qed.

Lemma digits2_mul m1 m2 :
  Z.pos (digits2_pos (m1 * m2)) <= Z.pos (digits2_pos m1) + Z.pos (digits2_pos m2).
Proof.
  apply (Zdigits2_le (Z.pos (m1 * m2))); [lia | lia |].
  assert (H1 : Z.pos m1 < 2 ^ Z.pos (digits2_pos m1))
    by (apply (Zdigits2_le (Z.pos m1)); cbn [Zdigits2]; lia).
  assert (H2 : Z.pos m2 < 2 ^ Z.pos (digits2_pos m2))
    by (apply (Zdigits2_le (Z.pos m2)); cbn [Zdigits2]; lia).
  rewrite Z.pow_add_r by lia. rewrite Pos2Z.inj_mul. nia.
Qed.

Lemma mul_small K1 K2 f1 f2 :
  0 <= K1 + K2 <= 970 -> small K1 f1 -> small K2 f2 ->
  small (K1 + K2 + 1) (mul f1 f2).
Proof.
  intros HK [->|(m1 & e1 & -> & H1)] [->|(m2 & e2 & -> & H2)];
    try (left; reflexivity).
  unfold mul, SFmul. cbn [xorb].
  pose proof (digits2_mul m1 m2) as Hd.
  destruct (binary_round_aux_finite (K1 + K2) false (Z.pos (m1 * m2)) (e1 + e2) HK)
    as [Hz|(m' & e' & Hf & Hb)].
  - split; [lia|]. split; [right; cbn [Zdigits2]; lia | lia].
  - left. exact Hz.
  - right. exists m', e'. split; assumption.
Qed.

Lemma round_small K f : small K f -> exists n, round f = Ok n.
Proof. intros [->|(m & e & -> & _)]; eexists; reflexivity. Qed.

End FloatFacts.

(** ** The image operations of the script *)

Section ImageOps.
Import PIL PILFacts.

Variable pil_resize : Image -> Z * Z -> Z -> Image.
Hypothesis pil_resize_size :
  forall img w h r, 0 < w -> 0 < h -> size (pil_resize img (w, h) r) = (w, h).

Lemma resize_size img sz r : 0 < sz -> size (_resize pil_resize img sz r) = (sz, sz).
Proof.
  intros Hsz. unfold _resize. destruct (decide (size img = (sz, sz))) as [E|_].
  - exact E.
  - apply pil_resize_size; assumption.
Qed.

(** C8: asked for the size the raster already has, the resizer returns
    the raster itself and resamples nothing; asked for another positive
    size, it returns Pillow's resampling, a raster of that size. *)
Theorem resize_same_or_exact (img : Image) (sz resample : Z) :
  0 < sz ->
  (size img = (sz, sz) -> _resize pil_resize img sz resample = img)
  /\ (size img <> (sz, sz) ->
      _resize pil_resize img sz resample = pil_resize img (sz, sz) resample)
  /\ size (_resize pil_resize img sz resample) = (sz, sz).
Proof.
  intros Hsz. split; [|split].
  - intros E. unfold _resize. destruct (decide (size img = (sz, sz))); [reflexivity | contradiction].
  - intros E. unfold _resize. destruct (decide (size img = (sz, sz))); [contradiction | reflexivity].
  - apply resize_size, Hsz.
Qed.

Lemma ensure_square_of_square img pad bg :
  width img = height img -> _ensure_square img pad bg = Ok img.
Proof.
  intros E. unfold _ensure_square, size. rewrite E, Z.eqb_refl. reflexivity.
Qed.

(** C7: on a raster as wide as it is high the square normalizer returns
    the raster itself, with its size and its pixels, under the crop
    policy and under the pad policy. *)
Theorem ensure_square_identity (img : Image) (pad_to_square : bool) (bg : rgba_tuple) :
  width img = height img -> _ensure_square img pad_to_square bg = Ok img.
Proof. apply ensure_square_of_square. Qed.

Lemma ensure_square_identity_witness :
  _ensure_square Sample.square false (0, 0, 0, 255) = Ok Sample.square
  /\ _ensure_square Sample.square true (0, 0, 0, 255) = Ok Sample.square.
Proof.
  split; apply ensure_square_identity; reflexivity.
Defined.

(** The pixels of a crop are those of the source, moved. *)
Lemma ensure_square_crop img bg :
  wf_image img -> width img <> height img ->
  let side := Z.min (width img) (height img) in
  let left := (width img - side) / 2 in
  let top := (height img - side) / 2 in
  exists sq,
    _ensure_square img false bg = Ok sq
    /\ size sq = (side, side)
    /\ forall x y, 0 <= x < side -> 0 <= y < side ->
         getpixel sq x y = getpixel img (left + x) (top + y).
Proof.
  intros Hwf Hne side left top. pose proof Hwf as (Hw & Hh & _).
  unfold _ensure_square, size. apply Z.eqb_neq in Hne. rewrite Hne. cbn [negb].
  fold side. fold left. fold top.
  assert (0 <= side) by (unfold side; lia).
  assert (0 <= left /\ left + side <= width img).
  { unfold left. split; [apply Z.div_pos; unfold side; lia|].
    assert (2 * ((width img - side) / 2) <= width img - side)
      by (apply Z.mul_div_le; lia).
    unfold side in *. lia. }
  assert (0 <= top /\ top + side <= height img).
  { unfold top. split; [apply Z.div_pos; unfold side; lia|].
    assert (2 * ((height img - side) / 2) <= height img - side)
      by (apply Z.mul_div_le; lia).
    unfold side in *. lia. }
  rewrite crop_ok by lia. eexists. split; [reflexivity|]. split.
  - unfold size. cbn [width height tabulate]. f_equal; lia.
  - intros x y Hx Hy. rewrite getpixel_tabulate by lia.
    destruct (getpixel_wf img (left + x) (top + y) Hwf) as [p Hp]; [lia | lia |].
    rewrite Hp. reflexivity.
Qed.

(** The pixels of a padded square: the source over the background inside
    the box the source covers, the background elsewhere. *)
Lemma ensure_square_pad img bg :
  wf_image img -> width img <> height img ->
  let side := Z.max (width img) (height img) in
  let x0 := (side - width img) / 2 in
  let y0 := (side - height img) / 2 in
  exists sq,
    _ensure_square img true bg = Ok sq
    /\ size sq = (side, side)
    /\ forall x y, 0 <= x < side -> 0 <= y < side ->
         getpixel sq x y
         = Some (if in_box img x0 y0 x y
                 then composite_pixel (ink bg) (pixel_at img (x - x0) (y - y0))
                 else ink bg).
Proof.
  intros Hwf Hne side x0 y0. pose proof Hwf as (Hw & Hh & _).
  unfold _ensure_square, size. apply Z.eqb_neq in Hne. rewrite Hne. cbn [negb].
  fold side. fold x0. fold y0.
  assert (0 <= side) by (unfold side; lia).
  rewrite new_ok by assumption. cbn [rbind].
  destruct (alpha_composite_at_spec (tabulate side side (fun _ _ => ink bg)) img x0 y0 Hw Hh)
    as (r & Hr & Hsize & Hpix).
  exists r. split; [exact Hr|]. split; [exact Hsize|].
  intros x y Hx Hy. rewrite (Hpix x y Hx Hy).
  unfold pixel_at at 1 3. rewrite getpixel_tabulate by assumption. reflexivity.
Qed.

Lemma ensure_square_total img pad bg :
  wf_image img -> exists sq, _ensure_square img pad bg = Ok sq.
Proof.
  intros Hwf. destruct (decide (width img = height img)) as [E|Hne].
  - exists img. apply ensure_square_of_square, E.
  - destruct pad.
    + destruct (ensure_square_pad img bg Hwf Hne) as (sq & H & _). eauto.
    + destruct (ensure_square_crop img bg Hwf Hne) as (sq & H & _). eauto.
Qed.

(** C6: on a raster that is not square, the crop policy yields the
    square of side [min w h] whose pixels are those of the window placed
    at [(w - side) / 2] and [(h - side) / 2], the odd pixel left over
    falling off the trailing edge; the pad policy yields the square of
    side [max w h] holding the source composited over the background
    colour at [(side - w) / 2] and [(side - h) / 2], and the background
    colour elsewhere. *)
Theorem ensure_square_non_square (img : Image) (bg : rgba_tuple) :
  wf_image img ->
  width img <> height img ->
  (exists sq,
      _ensure_square img false bg = Ok sq
      /\ size sq = (Z.min (width img) (height img), Z.min (width img) (height img))
      /\ (forall x y,
            0 <= x < Z.min (width img) (height img) ->
            0 <= y < Z.min (width img) (height img) ->
            getpixel sq x y
            = getpixel img ((width img - Z.min (width img) (height img)) / 2 + x)
                           ((height img - Z.min (width img) (height img)) / 2 + y))
      /\ (let side := Z.min (width img) (height img) in
          let left := (width img - side) / 2 in
          let top := (height img - side) / 2 in
          0 <= left /\ left <= width img - (left + side) <= left + 1
          /\ 0 <= top /\ top <= height img - (top + side) <= top + 1))
  /\
  (exists sq,
      _ensure_square img true bg = Ok sq
      /\ size sq = (Z.max (width img) (height img), Z.max (width img) (height img))
      /\ (forall x y,
            0 <= x < Z.max (width img) (height img) ->
            0 <= y < Z.max (width img) (height img) ->
            getpixel sq x y
            = Some (if in_box img ((Z.max (width img) (height img) - width img) / 2)
                                  ((Z.max (width img) (height img) - height img) / 2) x y
                    then composite_pixel (ink bg)
                           (pixel_at img
                              (x - (Z.max (width img) (height img) - width img) / 2)
                              (y - (Z.max (width img) (height img) - height img) / 2))
                    else ink bg))
      /\ (let side := Z.max (width img) (height img) in
          let x0 := (side - width img) / 2 in
          let y0 := (side - height img) / 2 in
          0 <= x0 /\ x0 <= side - (x0 + width img) <= x0 + 1
          /\ 0 <= y0 /\ y0 <= side - (y0 + height img) <= y0 + 1)).
Proof.
  intros Hwf Hne. pose proof Hwf as (Hw & Hh & _). split.
  - destruct (ensure_square_crop img bg Hwf Hne) as (sq & Hsq & Hsize & Hpix).
    exists sq. split; [exact Hsq|]. split; [exact Hsize|]. split; [exact Hpix|].
    cbv zeta.
    pose proof (Z.div_mod (width img - Z.min (width img) (height img)) 2 ltac:(lia)).
    pose proof (Z.mod_pos_bound (width img - Z.min (width img) (height img)) 2 ltac:(lia)).
    pose proof (Z.div_mod (height img - Z.min (width img) (height img)) 2 ltac:(lia)).
    pose proof (Z.mod_pos_bound (height img - Z.min (width img) (height img)) 2 ltac:(lia)).
    lia.
  - destruct (ensure_square_pad img bg Hwf Hne) as (sq & Hsq & Hsize & Hpix).
    exists sq. split; [exact Hsq|]. split; [exact Hsize|]. split; [exact Hpix|].
    cbv zeta.
    pose proof (Z.div_mod (Z.max (width img) (height img) - width img) 2 ltac:(lia)).
    pose proof (Z.mod_pos_bound (Z.max (width img) (height img) - width img) 2 ltac:(lia)).
    pose proof (Z.div_mod (Z.max (width img) (height img) - height img) 2 ltac:(lia)).
    pose proof (Z.mod_pos_bound (Z.max (width img) (height img) - height img) 2 ltac:(lia)).
    lia.
Qed.

Lemma ensure_square_non_square_witness :
  (exists sq, _ensure_square Sample.wide false (0, 0, 0, 255) = Ok sq /\ size sq = (2, 2))
  /\ (exists sq, _ensure_square Sample.wide true (0, 0, 0, 255) = Ok sq /\ size sq = (3, 3)).
Proof.
  assert (Hwf : wf_image Sample.wide) by (apply wf_tabulate; lia).
  assert (Hne : width Sample.wide <> height Sample.wide) by (simpl; lia).
  destruct (ensure_square_non_square Sample.wide (0, 0, 0, 255) Hwf Hne)
    as [(sq1 & H1 & S1 & _) (sq2 & H2 & S2 & _)].
  split; [exists sq1 | exists sq2]; split; assumption.
Defined.

Example ensure_square_crop_wide :
  _ensure_square Sample.wide false (0, 0, 0, 255)
  = Ok (MkImage 2 2 [Pixel 0 0 7 255; Pixel 10 0 7 255; Pixel 0 10 7 255; Pixel 10 10 7 255]).
Proof. vm_compute. reflexivity. Qed.

Example ensure_square_pad_wide :
  _ensure_square Sample.wide true (9, 9, 9, 255)
  = Ok (MkImage 3 3
          [Pixel 0 0 7 255; Pixel 10 0 7 255; Pixel 15 4 8 255;
           Pixel 0 10 7 255; Pixel 10 10 7 255; Pixel 15 10 8 255;
           Pixel 9 9 9 255; Pixel 9 9 9 255; Pixel 9 9 9 255]).
Proof. vm_compute. reflexivity. Qed.

(** *** The padded-fit composer *)

Lemma inner_size_total sz cs :
  0 < sz < 2 ^ 53 -> valid_binary 53 1024 cs = true ->
  exists inner, inner_size sz cs = Ok inner /\ 1 <= inner <= sz.
Proof.
  intros Hsz Hv. unfold inner_size.
  destruct (FloatFacts.of_int_small sz Hsz) as (f & Hf & Hsmall).
  rewrite Hf. cbn [rbind].
  pose proof (FloatFacts.clamp_small cs Hv) as Hc.
  pose proof (FloatFacts.mul_small 54 1 _ _ ltac:(lia) Hsmall Hc) as Hm.
  destruct (FloatFacts.round_small _ _ Hm) as [n Hn].
  rewrite Hn. cbn [rbind]. eexists. split; [reflexivity | lia].
Qed.

(** The canvas of the composer: the resized content over the background
    inside the centred box, the background elsewhere. *)
Lemma fit_with_padding_spec img sz cs bg resample inner :
  0 < sz -> inner_size sz cs = Ok inner -> 1 <= inner <= sz ->
  exists canvas,
    _fit_with_padding pil_resize img sz cs bg resample = Ok canvas
    /\ size canvas = (sz, sz)
    /\ forall x y, 0 <= x < sz -> 0 <= y < sz ->
         getpixel canvas x y
         = Some (if in_box (_resize pil_resize img inner resample)
                           ((sz - inner) / 2) ((sz - inner) / 2) x y
                 then composite_pixel (ink bg)
                        (pixel_at (_resize pil_resize img inner resample)
                           (x - (sz - inner) / 2) (y - (sz - inner) / 2))
                 else ink bg).
Proof.
  intros Hsz Hin Hrange. unfold _fit_with_padding. rewrite Hin. cbn [rbind].
  rewrite new_ok by lia. cbn [rbind].
  pose proof (resize_size img inner resample ltac:(lia)) as Hrs.
  injection Hrs as Hrw Hrh.
  destruct (alpha_composite_at_spec (tabulate sz sz (fun _ _ => ink bg))
              (_resize pil_resize img inner resample)
              ((sz - inner) / 2) ((sz - inner) / 2) ltac:(lia) ltac:(lia))
    as (r & Hr & Hsize & Hpix).
  exists r. split; [exact Hr|]. split; [exact Hsize|].
  intros x y Hx Hy. rewrite (Hpix x y Hx Hy).
  unfold pixel_at at 1 3. rewrite getpixel_tabulate by assumption. reflexivity.
Qed.

(** C4: with a background of alpha 255 the composer returns a canvas of
    the size asked for whose border pixels all have alpha 255, whatever
    the source raster and the content scale. *)
Theorem fit_with_padding_opaque_border
        (img : Image) (sz : Z) (content_scale : spec_float) (r g b resample : Z) :
  0 < sz < 2 ^ 53 ->
  valid_binary 53 1024 content_scale = true ->
  exists canvas,
    _fit_with_padding pil_resize img sz content_scale (r, g, b, 255) resample = Ok canvas
    /\ size canvas = (sz, sz)
    /\ forall x y,
         0 <= x < sz -> 0 <= y < sz ->
         x = 0 \/ x = sz - 1 \/ y = 0 \/ y = sz - 1 ->
         exists p, getpixel canvas x y = Some p /\ alpha p = 255.
Proof.
  intros Hsz Hv.
  destruct (inner_size_total sz content_scale Hsz Hv) as (inner & Hin & Hrange).
  destruct (fit_with_padding_spec img sz content_scale (r, g, b, 255) resample inner
              ltac:(lia) Hin Hrange) as (canvas & Hc & Hsize & Hpix).
  exists canvas. split; [exact Hc|]. split; [exact Hsize|].
  intros x y Hx Hy _. rewrite (Hpix x y Hx Hy). eexists. split; [reflexivity|].
  destruct (in_box _ _ _ x y); [apply composite_pixel_opaque|]; reflexivity.
Qed.

End ImageOps.

Lemma fit_with_padding_opaque_border_witness :
  exists canvas,
    _fit_with_padding Sample.nearest Sample.square 4 PyFloat.f0_80 (0, 0, 0, 255) 1 = Ok canvas
    /\ size canvas = (4, 4)
    /\ forall x y,
         0 <= x < 4 -> 0 <= y < 4 ->
         x = 0 \/ x = 4 - 1 \/ y = 0 \/ y = 4 - 1 ->
         exists p, PIL.getpixel canvas x y = Some p /\ alpha p = 255.
Proof.
  apply (fit_with_padding_opaque_border Sample.nearest nearest_size).
  - lia.
  - reflexivity.
Defined.

Lemma resize_same_or_exact_witness :
  (size Sample.square = (2, 2) -> _resize Sample.nearest Sample.square 2 1 = Sample.square)
  /\ (size Sample.square <> (2, 2) ->
      _resize Sample.nearest Sample.square 2 1 = Sample.nearest Sample.square (2, 2) 1)
  /\ size (_resize Sample.nearest Sample.square 2 1) = (2, 2).
Proof.
  apply (resize_same_or_exact Sample.nearest nearest_size). lia.
Defined.

(** A transparent source leaves the whole canvas opaque, content box
    included. *)
Example fit_with_padding_transparent_source :
  _fit_with_padding Sample.nearest (MkImage 1 1 [Pixel 5 5 5 0]) 2 PyFloat.f0_80
    (1, 2, 3, 255) 1
  = Ok (MkImage 2 2 [Pixel 1 2 3 255; Pixel 1 2 3 255; Pixel 1 2 3 255; Pixel 1 2 3 255]).
Proof. vm_compute. reflexivity. Qed.

(** ** Targets and the main program *)

Lemma parse_targets_blank value :
  Forall (fun t => PyStr.strip t = EmptyString) (PyStr.split "," value) ->
  _parse_targets value = Ok ∅.
Proof.
  intros Hblank. unfold _parse_targets.
  assert (Hnil : filter (fun t => PyStr.strip t <> EmptyString) (PyStr.split "," value) = []).
  { induction Hblank as [|t l Ht _ IH]; [reflexivity|].
    rewrite filter_cons_False by (intros Hne; exact (Hne Ht)). exact IH. }
  rewrite Hnil. cbn [fmap list_fmap list_to_set].
  destruct (decide (_ = _)) as [_|Hne]; [reflexivity|].
  exfalso. apply Hne. set_solver.
Qed.

Lemma parse_targets_unknown value t :
  t ∈ PyStr.split "," value ->
  PyStr.strip t <> EmptyString ->
  PyStr.lower (PyStr.strip t) <> "web" ->
  PyStr.lower (PyStr.strip t) <> "ue" ->
  exists unknown,
    _parse_targets value = Raise (UnknownTargets unknown)
    /\ PyStr.lower (PyStr.strip t) ∈ unknown.
Proof.
  intros Hin Hne Hweb Hue. unfold _parse_targets.
  set (found := list_to_set _ : gset string).
  assert (Hfound : PyStr.lower (PyStr.strip t) ∈ found).
  { unfold found. apply elem_of_list_to_set, list_elem_of_fmap.
    exists t. split; [reflexivity|]. apply list_elem_of_filter. split; assumption. }
  assert (Hunknown : PyStr.lower (PyStr.strip t) ∈ found ∖ ({[ "web"; "ue" ]} : gset string)).
  { apply elem_of_difference. split; [exact Hfound|].
    rewrite elem_of_union, !elem_of_singleton. intros [H|H]; congruence. }
  destruct (decide (_ = _)) as [Hempty|_].
  - exfalso. rewrite Hempty in Hunknown. set_solver.
  - eexists. split; [reflexivity | exact Hunknown].
Qed.

Section MainFacts.
Import Fs FsFacts.

Variable pil_resize : Image -> Z * Z -> Z -> Image.
Variable image_open : FS -> path -> result Image.
Variable cairosvg : option (FS -> path -> result Image).
Variable LANCZOS : Z.

Abbreviation run_main := (main pil_resize image_open cairosvg LANCZOS).

Lemma load_image_state p fs : (_load_image image_open cairosvg p fs).2 = fs.
Proof. unfold _load_image. destruct (_is_svg p); [destruct cairosvg|]; reflexivity. Qed.

(** With an unknown target the run stops right after the output directory
    was made. *)
Lemma main_unknown_stops args fs t :
  t ∈ PyStr.split "," (arg_targets args) ->
  PyStr.strip t <> EmptyString ->
  PyStr.lower (PyStr.strip t) <> "web" ->
  PyStr.lower (PyStr.strip t) <> "ue" ->
  exists e,
    run_main args fs = (Raise e, (Fs.mkdir (arg_out args) fs).2)
    /\ ((Fs.mkdir (arg_out args) fs).1 = Ok tt ->
        exists unknown, e = UnknownTargets unknown /\ PyStr.lower (PyStr.strip t) ∈ unknown).
Proof.
  intros Hin Hne Hweb Hue.
  destruct (parse_targets_unknown _ t Hin Hne Hweb Hue) as (unknown & Hparse & Hmem).
  unfold main, ibind. destruct (Fs.mkdir (arg_out args) fs) as [[[]|e] fs1]; cbn [fst snd].
  - unfold lift. rewrite Hparse. eexists. split; [reflexivity|]. intros _. eauto.
  - eexists. split; [reflexivity|]. discriminate.
Qed.

(** C3: when one entry of the targets is neither blank nor, once stripped
    and lowered, [web] or [ue], the run ends in an exception, so with a
    non-zero exit status, and the regular files of the file system are
    those it started with; the exception is the unknown-target error
    whenever the output directory could be made. *)
Theorem main_unknown_target (args : Args) (fs : FS) (t : string) :
  t ∈ PyStr.split "," (arg_targets args) ->
  PyStr.strip t <> EmptyString ->
  PyStr.lower (PyStr.strip t) <> "web" ->
  PyStr.lower (PyStr.strip t) <> "ue" ->
  (exists e, (run_main args fs).1 = Raise e)
  /\ exit_code (run_main args fs).1 <> 0
  /\ Fs.files (run_main args fs).2 = Fs.files fs
  /\ (no_file_above fs (arg_out args) ->
      exists unknown,
        (run_main args fs).1 = Raise (UnknownTargets unknown)
        /\ PyStr.lower (PyStr.strip t) ∈ unknown).
Proof.
  intros Hin Hne Hweb Hue.
  destruct (main_unknown_stops args fs t Hin Hne Hweb Hue) as (e & Hrun & Hkind).
  rewrite Hrun. cbn [fst snd exit_code]. split; [eauto|]. split; [lia|].
  split; [apply mkdir_files|].
  intros Hno. destruct (mkdir_ok _ _ Hno) as (fs1 & Hmk & _).
  destruct Hkind as (unknown & -> & Hmem); [rewrite Hmk; reflexivity|]. eauto.
Qed.

(** With no target at all the run touches nothing but the output
    directory. *)
Lemma main_blank_state args fs :
  _parse_targets (arg_targets args) = Ok ∅ ->
  exists r, run_main args fs = (r, (Fs.mkdir (arg_out args) fs).2).
Proof.
  intros Hparse. unfold main, ibind.
  destruct (Fs.mkdir (arg_out args) fs) as [[[]|e] fs1]; cbn [fst snd]; [|eauto].
  unfold lift. rewrite Hparse. cbn [background input_path pad_to_square].
  destruct (_parse_hex_color (arg_background args)) as [bg|e]; [|eauto].
  pose proof (load_image_state (arg_input args) fs1) as Hst.
  destruct (_load_image image_open cairosvg (arg_input args) fs1) as [[src|e] fs2];
    cbn [snd] in Hst; subst fs2; [|eauto].
  destruct (_ensure_square src (negb (arg_no_pad args)) bg) as [sq|e]; [|eauto].
  destruct (decide ("web" ∈ (∅ : gset string))) as [Hin|_]; [set_solver|].
  destruct (decide ("ue" ∈ (∅ : gset string))) as [Hin|_]; [set_solver|].
  unfold iret. eauto.
Qed.

Lemma main_blank_run args fs bg src :
  _parse_targets (arg_targets args) = Ok ∅ ->
  (Fs.mkdir (arg_out args) fs).1 = Ok tt ->
  _parse_hex_color (arg_background args) = Ok bg ->
  (_load_image image_open cairosvg (arg_input args) (Fs.mkdir (arg_out args) fs).2).1 = Ok src ->
  wf_image src ->
  run_main args fs = (Ok 0, (Fs.mkdir (arg_out args) fs).2).
Proof.
  intros Hparse Hmk Hbg Hload Hwf. unfold main, ibind.
  destruct (Fs.mkdir (arg_out args) fs) as [[[]|e] fs1]; cbn [fst snd] in *; [|discriminate].
  unfold lift. rewrite Hparse. cbn [background input_path pad_to_square]. rewrite Hbg.
  pose proof (load_image_state (arg_input args) fs1) as Hst.
  destruct (_load_image image_open cairosvg (arg_input args) fs1) as [r fs2];
    cbn [fst snd] in *; subst fs2 r.
  destruct (ensure_square_total src (negb (arg_no_pad args)) bg Hwf) as [sq Hsq].
  rewrite Hsq.
  destruct (decide ("web" ∈ (∅ : gset string))) as [Hin|_]; [set_solver|].
  destruct (decide ("ue" ∈ (∅ : gset string))) as [Hin|_]; [set_solver|].
  reflexivity.
Qed.

(** C9: when every comma-separated entry of the targets is blank, target
    parsing returns the empty set, and the run writes no regular file; if
    moreover the output directory can be made, the background colour
    parses and the input image loads, the run ends with exit status 0 and
    the output directory exists. *)
Theorem main_blank_targets (args : Args) (fs : FS) :
  Forall (fun t => PyStr.strip t = EmptyString) (PyStr.split "," (arg_targets args)) ->
  _parse_targets (arg_targets args) = Ok ∅
  /\ Fs.files (run_main args fs).2 = Fs.files fs
  /\ (forall bg src,
        no_file_above fs (arg_out args) ->
        _parse_hex_color (arg_background args) = Ok bg ->
        (_load_image image_open cairosvg (arg_input args)
           (Fs.mkdir (arg_out args) fs).2).1 = Ok src ->
        wf_image src ->
        (run_main args fs).1 = Ok 0
        /\ exit_code (run_main args fs).1 = 0
        /\ (arg_out args <> [] -> (run_main args fs).2 !! arg_out args = Some Dir)).
Proof.
  intros Hblank. pose proof (parse_targets_blank _ Hblank) as Hparse.
  split; [exact Hparse|]. split.
  - destruct (main_blank_state args fs Hparse) as [r ->]. apply mkdir_files.
  - intros bg src Hno Hbg Hload Hwf.
    destruct (mkdir_ok _ _ Hno) as (fs1 & Hmk & _ & Hdir).
    rewrite (main_blank_run args fs bg src Hparse ltac:(rewrite Hmk; reflexivity) Hbg Hload Hwf).
    rewrite Hmk. cbn [fst snd exit_code]. auto.
Qed.

End MainFacts.

Module PlanFacts.
Import Fs FsFacts.

Lemma no_file_above_files (fs fs1 : FS) d :
  files fs1 = files fs -> no_file_above fs d -> no_file_above fs1 d.
Proof.
  intros Hf Hno q f Hq Hlook.
  assert (Hfl : files fs1 !! q = Some f) by (rewrite files_lookup, Hlook; reflexivity).
  rewrite Hf, files_lookup in Hfl.
  destruct (fs !! q) as [[|f']|] eqn:E; try discriminate.
  injection Hfl as ->. exact (Hno q f Hq E).
Qed.

Lemma save_ok (p : path) (f : file) (fs : FS) :
  fs !! p <> Some Dir -> save p f fs = (Ok tt, <[p := File f]> fs).
Proof.
  intros H. unfold save. destruct (fs !! p) as [[|f']|]; try reflexivity.
  contradiction.
Qed.

Lemma conflict_free_tail o ops : conflict_free (o :: ops) -> conflict_free ops.
Proof.
  intros H p d Hp Hd. apply H.
  - unfold saved in *. cbn [omap list_omap]. destruct o; cbn; [|right]; assumption.
  - unfold made in *. cbn [omap list_omap]. destruct o; cbn; [right|]; assumption.
Qed.

Lemma apply_saves_other base ops : forall F q,
  (forall p, p ∈ (saved ops).*1 -> base ++ p <> q) ->
  apply_saves base ops F !! q = F !! q.
Proof.
  induction ops as [|[d|p f] ops IH]; intros F q Hq; [reflexivity | |].
  - apply IH. exact Hq.
  - cbn [apply_saves foldl]. fold (apply_saves base ops (<[base ++ p := f]> F)).
    rewrite IH by (intros p' Hp'; apply Hq; cbn; right; exact Hp').
    apply lookup_insert_ne. apply Hq. cbn. left.
Qed.

Lemma apply_saves_in base ops : forall F p f,
  NoDup (saved ops).*1 -> (p, f) ∈ saved ops ->
  apply_saves base ops F !! (base ++ p) = Some f.
Proof.
  induction ops as [|[d|p0 f0] ops IH]; intros F p f Hnd Hin.
  - inversion Hin.
  - apply IH; assumption.
  - cbn in Hnd, Hin. apply NoDup_cons in Hnd as [Hnotin Hnd].
    cbn [apply_saves foldl]. fold (apply_saves base ops (<[base ++ p0 := f0]> F)).
    apply elem_of_cons in Hin as [Heq|Hin].
    + injection Heq as -> ->.
      rewrite apply_saves_other; [apply lookup_insert_eq|].
      intros p' Hp' Heq. apply app_inv_head in Heq. subst p'. contradiction.
    + apply IH; assumption.
Qed.

(** A plan without conflicts runs to its end on a file system that has no
    regular file where a directory is due and no directory where a file is
    due; it leaves the files it saved and the directories it made. *)
Lemma run_ops_ok base ops : forall fs : FS,
  conflict_free ops ->
  (forall d, d ∈ made ops -> no_file_above fs (base ++ d)) ->
  (forall p, p ∈ (saved ops).*1 -> fs !! (base ++ p) <> Some Dir) ->
  exists fs',
    run_ops base ops fs = (Ok tt, fs')
    /\ files fs' = apply_saves base ops (files fs)
    /\ (forall q, fs !! q = Some Dir ->
          (forall p, p ∈ (saved ops).*1 -> base ++ p <> q) -> fs' !! q = Some Dir)
    /\ (forall d, d ∈ made ops -> base ++ d <> [] -> fs' !! (base ++ d) = Some Dir).
Proof.
  induction ops as [|[d|p f] ops IH]; intros fs Hcf Hmade Hsaved.
  - exists fs. repeat split; auto. intros d Hd. inversion Hd.
  - assert (Hno : no_file_above fs (base ++ d)) by (apply Hmade; cbn; left).
    destruct (mkdir_ok _ _ Hno) as (fs1 & Hmk & Hfiles & Hdir).
    destruct (IH fs1 (conflict_free_tail _ _ Hcf)) as (fs' & Hrun & Hf' & Hkeep & Hdirs).
    + intros d' Hd'. apply (no_file_above_files fs); [exact Hfiles|].
      apply Hmade. cbn. right. exact Hd'.
    + intros p Hp Hlook.
      assert (Hfs1 : fs1 = (mkdir (base ++ d) fs).2) by (rewrite Hmk; reflexivity).
      destruct (mkdir_from_lookup (base ++ d) [] fs (base ++ p)) as [Hsame|[_ Hpre]].
      * unfold mkdir in Hfs1. rewrite <- Hfs1 in Hsame. rewrite Hsame in Hlook.
        exact (Hsaved p Hp Hlook).
      * cbn in Hpre. apply prefix_app_inv in Hpre.
        apply (Hcf p d); [exact Hp | cbn; left | exact Hpre].
    + exists fs'. split; [|split; [|split]].
      * unfold run_ops. cbn [for_each run_op]. unfold ibind. rewrite Hmk. exact Hrun.
      * rewrite Hf', Hfiles. reflexivity.
      * intros q Hq Hne. apply Hkeep; [|exact Hne].
        assert (Hfs1 : fs1 = (mkdir_from [] (base ++ d) fs).2)
          by (unfold mkdir in Hmk; rewrite Hmk; reflexivity).
        rewrite Hfs1. apply mkdir_from_keeps_dir. exact Hq.
      * intros d' Hd' Hne. cbn in Hd'. apply elem_of_cons in Hd' as [->|Hd'].
        -- apply Hkeep; [apply Hdir; exact Hne|].
           intros p Hp Heq. apply app_inv_head in Heq. subst p.
           apply (Hcf d d); [exact Hp | cbn; left | reflexivity].
        -- apply Hdirs; assumption.
  - assert (Hnd : fs !! (base ++ p) <> Some Dir) by (apply Hsaved; cbn; left).
    destruct (IH (<[base ++ p := File f]> fs) (conflict_free_tail _ _ Hcf))
      as (fs' & Hrun & Hf' & Hkeep & Hdirs).
    + intros d Hd q f' Hq. destruct (decide (base ++ p = q)) as [<-|Hne].
      * exfalso. apply prefix_app_inv in Hq.
        apply (Hcf p d); [cbn; left | exact Hd | exact Hq].
      * rewrite lookup_insert_ne by assumption. apply (Hmade d Hd q f' Hq).
    + intros p' Hp'. destruct (decide (base ++ p = base ++ p')) as [<-|Hne].
      * rewrite lookup_insert_eq. discriminate.
      * rewrite lookup_insert_ne by assumption. apply Hsaved. cbn. right. exact Hp'.
    + exists fs'. split; [|split; [|split]].
      * unfold run_ops. cbn [for_each run_op]. unfold ibind.
        rewrite (save_ok _ _ _ Hnd). exact Hrun.
      * rewrite Hf', files_insert_file. reflexivity.
      * intros q Hq Hne. apply Hkeep.
        -- rewrite lookup_insert_ne; [exact Hq|]. apply Hne. cbn. left.
        -- intros p' Hp'. apply Hne. cbn. right. exact Hp'.
      * intros d Hd Hne. apply Hdirs; assumption.
Qed.

(** *** Programs as plans *)

Lemma run_ops_app base ops1 ops2 fs :
  run_ops base (ops1 ++ ops2) fs
  = ibind (run_ops base ops1) (fun _ => run_ops base ops2) fs.
Proof.
  revert fs. induction ops1 as [|o ops1 IH]; intros fs; [reflexivity|].
  unfold run_ops in *. cbn [app for_each]. unfold ibind in *.
  destruct (run_op base o fs) as [[[]|e] fs1]; [apply IH | reflexivity].
Qed.

Lemma runs_seq base m1 m2 ops1 ops2 :
  runs_as base m1 ops1 -> runs_as base m2 ops2 ->
  runs_as base (ibind m1 (fun _ => m2)) (ops1 ++ ops2).
Proof.
  intros H1 H2 fs. rewrite run_ops_app. unfold ibind. rewrite H1.
  destruct (run_ops base ops1 fs) as [[[]|e] fs1]; [apply H2 | reflexivity].
Qed.

Lemma runs_single base o : runs_as base (run_op base o) [o].
Proof.
  intros fs. unfold run_ops. cbn [for_each]. unfold ibind, iret.
  destruct (run_op base o fs) as [[[]|e] fs1]; reflexivity.
Qed.

Lemma runs_mkdir base d : runs_as base (mkdir (base ++ d)) [MkDir d].
Proof. apply (runs_single base (MkDir d)). Qed.

Lemma runs_save base p f : runs_as base (save (base ++ p) f) [Save p f].
Proof. apply (runs_single base (Save p f)). Qed.

Lemma parent_rel base rel : rel <> [] -> parent (base ++ rel) = base ++ removelast rel.
Proof. intros H. unfold parent. apply removelast_app, H. Qed.

Lemma runs_write_png base rel img :
  rel <> [] -> runs_as base (_write_png img (base ++ rel)) (write_plan rel (PngFile img)).
Proof.
  intros Hrel. unfold _write_png, write_plan. rewrite parent_rel by assumption.
  apply (runs_seq base _ _ [_] [_]); [apply runs_mkdir | apply runs_save].
Qed.

Lemma runs_for_each {A} base (body : A -> io unit) (plan : A -> list op) xs :
  (forall x, x ∈ xs -> runs_as base (body x) (plan x)) ->
  runs_as base (for_each xs body) (concat (plan <$> xs)).
Proof.
  induction xs as [|x xs IH]; intros H.
  - intros fs. reflexivity.
  - cbn [for_each fmap list_fmap concat].
    apply runs_seq; [apply H; left | apply IH].
    intros y Hy. apply H. right. exact Hy.
Qed.

End PlanFacts.

(** ** The engine-packaging target *)

Section UeTarget.
Import Fs FsFacts PlanFacts.

Variable pil_resize : Image -> Z * Z -> Z -> Image.
Hypothesis pil_resize_size :
  forall img w h r, 0 < w -> 0 < h -> size (pil_resize img (w, h) r) = (w, h).

Lemma runs_write_ico base rel src sizes m r :
  rel <> [] -> max_of sizes = Ok m ->
  runs_as base (_write_ico pil_resize src (base ++ rel) sizes r)
    (write_plan rel (IcoFile (_resize pil_resize src m r) ((fun s => (s, s)) <$> sizes))).
Proof.
  intros Hrel Hmax fs. unfold _write_ico, write_plan, run_ops.
  rewrite parent_rel by assumption. cbn [for_each run_op]. unfold ibind, lift, iret.
  rewrite Hmax. destruct (mkdir (base ++ removelast rel) fs) as [[[]|e] fs1]; [|reflexivity].
  destruct (save (base ++ rel) _ fs1) as [[[]|e] fs2]; reflexivity.
Qed.

Lemma generate_ue_runs opts src :
  runs_as (out_dir opts) (generate_ue pil_resize opts src) (ue_plan pil_resize opts src).
Proof.
  unfold generate_ue, ue_plan, join. rewrite <- !app_assoc. cbn [app].
  apply runs_seq; [apply runs_write_ico; [discriminate | reflexivity]|].
  apply (runs_seq _ _ _ [MkDir _]); [apply runs_mkdir|].
  apply runs_seq.
  { apply (runs_for_each (out_dir opts) _ (mac_plan pil_resize opts src)).
    intros [filename sz] _. unfold mac_plan. rewrite <- app_assoc. cbn [app].
    apply runs_write_png. discriminate. }
  apply runs_seq; apply runs_write_png; discriminate.
Qed.

Lemma ue_plan_saved opts src : saved (ue_plan pil_resize opts src) = ue_manifest pil_resize opts src.
Proof. reflexivity. Qed.

Lemma ue_plan_made opts src d : d ∈ made (ue_plan pil_resize opts src) -> d ∈ ue_dirs.
Proof.
  unfold ue_dirs. cbn. intros H.
  repeat (apply elem_of_cons in H as [->|H];
          [apply (bool_decide_unpack _); vm_compute; exact I|]).
  inversion H.
Qed.

Lemma ue_plan_conflict_free opts src : conflict_free (ue_plan pil_resize opts src).
Proof.
  intros p d Hp Hd. apply ue_plan_made in Hd. rewrite ue_plan_saved in Hp.
  revert d Hd. apply Forall_forall. revert p Hp. apply Forall_forall.
  cbn. repeat constructor; intros Hpre; apply prefix_length in Hpre as Hlen;
    cbn in Hlen; try lia;
    destruct Hpre as [k Hk]; discriminate Hk.
Qed.

Lemma ue_manifest_nodup opts src : NoDup (ue_manifest pil_resize opts src).*1.
Proof. apply (bool_decide_unpack _). vm_compute. exact I. Qed.

(** What the target leaves in the file system. *)
Lemma generate_ue_spec (opts : Options) (src : Image) (fs : FS) :
  (forall d, d ∈ ue_dirs -> no_file_above fs (out_dir opts ++ d)) ->
  (forall rel, rel ∈ (ue_manifest pil_resize opts src).*1 -> fs !! (out_dir opts ++ rel) <> Some Dir) ->
  exists fs' : FS,
    generate_ue pil_resize opts src fs = (Ok tt, fs')
    /\ (forall rel f, (rel, f) ∈ ue_manifest pil_resize opts src ->
          fs' !! (out_dir opts ++ rel) = Some (File f))
    /\ (forall q, (forall rel, rel ∈ (ue_manifest pil_resize opts src).*1 -> out_dir opts ++ rel <> q) ->
          files fs' !! q = files fs !! q)
    /\ (forall d, d ∈ ue_dirs -> fs' !! (out_dir opts ++ d) = Some Dir).
Proof.
  intros Hdirs Hfiles.
  destruct (run_ops_ok (out_dir opts) (ue_plan pil_resize opts src) fs (ue_plan_conflict_free opts src))
    as (fs' & Hrun & Hf' & _ & Hmade).
  - intros d Hd. apply Hdirs, (ue_plan_made opts src), Hd.
  - rewrite ue_plan_saved. exact Hfiles.
  - exists fs'. split; [rewrite generate_ue_runs; exact Hrun|]. split; [|split].
    + intros rel f Hin.
      assert (Hl : files fs' !! (out_dir opts ++ rel) = Some f).
      { rewrite Hf'. apply apply_saves_in; rewrite ue_plan_saved;
          [apply ue_manifest_nodup | exact Hin]. }
      rewrite files_lookup in Hl.
      destruct (fs' !! (out_dir opts ++ rel)) as [[|f']|]; try discriminate.
      injection Hl as ->. reflexivity.
    + intros q Hq. rewrite Hf'. apply apply_saves_other.
      rewrite ue_plan_saved. exact Hq.
    + intros d Hd. apply Hmade.
      * unfold ue_dirs in Hd.
        repeat (apply elem_of_cons in Hd as [->|Hd];
                [apply (bool_decide_unpack _); vm_compute; exact I|]).
        inversion Hd.
      * intros Hnil. apply app_eq_nil in Hnil as [_ ->]. unfold ue_dirs in Hd.
        repeat (apply elem_of_cons in Hd as [Hd|Hd]; [discriminate|]). inversion Hd.
Qed.

Lemma ue_sizes opts src :
  size (_resize pil_resize src 256 (resample opts)) = (256, 256)
  /\ forall rel n, (rel, n) ∈ ue_pngs ->
       size (_resize pil_resize src n (resample opts)) = (n, n).
Proof.
  split; [apply resize_size; [exact pil_resize_size | lia]|].
  intros rel n Hin. apply resize_size; [exact pil_resize_size|].
  assert (Hpos : Forall (fun e : path * Z => 0 < e.2) ue_pngs)
    by (cbn; repeat constructor; cbn; lia).
  rewrite Forall_forall in Hpos. exact (Hpos (rel, n) Hin).
Qed.

(** The relative paths of the manifest, in the order they are written. *)
Lemma ue_manifest_paths opts src :
  (ue_manifest pil_resize opts src).*1
  = [ ["ue"; "windows"; "icon.ico"];
      ["ue"; "mac"; "AppIcon.iconset"; "icon_16x16.png"];
      ["ue"; "mac"; "AppIcon.iconset"; "icon_16x16@2x.png"];
      ["ue"; "mac"; "AppIcon.iconset"; "icon_32x32.png"];
      ["ue"; "mac"; "AppIcon.iconset"; "icon_32x32@2x.png"];
      ["ue"; "mac"; "AppIcon.iconset"; "icon_128x128.png"];
      ["ue"; "mac"; "AppIcon.iconset"; "icon_128x128@2x.png"];
      ["ue"; "mac"; "AppIcon.iconset"; "icon_256x256.png"];
      ["ue"; "mac"; "AppIcon.iconset"; "icon_256x256@2x.png"];
      ["ue"; "mac"; "AppIcon.iconset"; "icon_512x512.png"];
      ["ue"; "mac"; "AppIcon.iconset"; "icon_512x512@2x.png"];
      ["ue"; "linux"; "icon-256.png"];
      ["ue"; "linux"; "icon-512.png"] ].
Proof. reflexivity. Qed.

(** C1: on a file system with no regular file in the way of the three
    directories and no directory in the way of the thirteen files, the
    engine-packaging generator ends normally and leaves, under the [ue]
    directory of the output directory: [ue/windows/icon.ico], a container
    saved from the 256 x 256 raster with the sizes 16, 24, 32, 48, 64, 128
    and 256; the ten PNG files of [ue/mac/AppIcon.iconset] at the sizes of
    [mac_entries]; [ue/linux/icon-256.png] and [ue/linux/icon-512.png];
    the three directories; and every other regular file as it was, so
    that an iconset directory that held no file holds exactly the ten. *)
Theorem generate_ue_outputs (opts : Options) (src : Image) (fs : FS) :
  (forall d, d ∈ ue_dirs -> no_file_above fs (out_dir opts ++ d)) ->
  (forall rel, rel ∈ (ue_manifest pil_resize opts src).*1 -> fs !! (out_dir opts ++ rel) <> Some Dir) ->
  exists fs' : FS,
    generate_ue pil_resize opts src fs = (Ok tt, fs')
    /\ fs' !! (out_dir opts ++ ["ue"; "windows"; "icon.ico"])
       = Some (File (IcoFile (_resize pil_resize src 256 (resample opts))
                       [(16, 16); (24, 24); (32, 32); (48, 48); (64, 64);
                        (128, 128); (256, 256)]))
    /\ size (_resize pil_resize src 256 (resample opts)) = (256, 256)
    /\ (forall rel n, (rel, n) ∈ ue_pngs ->
          fs' !! (out_dir opts ++ rel)
          = Some (File (PngFile (_resize pil_resize src n (resample opts))))
          /\ size (_resize pil_resize src n (resample opts)) = (n, n))
    /\ (forall d, d ∈ ue_dirs -> fs' !! (out_dir opts ++ d) = Some Dir)
    /\ (forall q, (forall rel, rel ∈ (ue_manifest pil_resize opts src).*1 -> out_dir opts ++ rel <> q) ->
          files fs' !! q = files fs !! q)
    /\ ((forall name,
           files fs !! (out_dir opts ++ ["ue"; "mac"; "AppIcon.iconset"; name]) = None) ->
        forall name,
          is_Some (files fs' !! (out_dir opts ++ ["ue"; "mac"; "AppIcon.iconset"; name]))
          <-> name ∈ mac_entries.*1).
Proof.
  intros Hdirs Hfiles.
  destruct (generate_ue_spec opts src fs Hdirs Hfiles) as (fs' & Hrun & Hin & Hother & Hmade).
  destruct (ue_sizes opts src) as [Hico Hpng].
  assert (Hpngs : forall rel n, (rel, n) ∈ ue_pngs ->
            fs' !! (out_dir opts ++ rel)
            = Some (File (PngFile (_resize pil_resize src n (resample opts))))).
  { intros rel n Hrel. apply Hin. unfold ue_manifest. right.
    apply list_elem_of_fmap. exists (rel, n). split; [reflexivity | exact Hrel]. }
  exists fs'. split; [exact Hrun|].
  split; [|split; [exact Hico|split; [|split; [|split]]]].
  - apply Hin. unfold ue_manifest. left.
  - intros rel n Hrel. split; [apply (Hpngs rel n Hrel) | apply (Hpng rel n Hrel)].
  - exact Hmade.
  - exact Hother.
  - intros Hfresh name. split.
    + intros Hsome. destruct (decide (name ∈ mac_entries.*1)) as [Hyes|Hno]; [exact Hyes|].
      exfalso. rewrite Hother, Hfresh in Hsome; [destruct Hsome; discriminate|].
      intros rel Hrel Heq. apply app_inv_head in Heq. subst rel.
      apply Hno. rewrite ue_manifest_paths in Hrel. cbn.
      repeat (apply elem_of_cons in Hrel as [Hrel|Hrel];
              [first [discriminate Hrel
                     | injection Hrel as ->;
                       apply (bool_decide_unpack _); vm_compute; exact I]|]).
      inversion Hrel.
    + intros Hname. apply list_elem_of_fmap in Hname as ([name' n] & -> & Hentry).
      cbn [fst]. rewrite files_lookup, (Hpngs ["ue"; "mac"; "AppIcon.iconset"; name'] n); [eauto|].
      unfold ue_pngs. apply elem_of_app. left.
      apply list_elem_of_fmap. exists (name', n). split; [reflexivity | exact Hentry].
Qed.

End UeTarget.

Example ue_pngs_table :
  ue_pngs
  = [ (["ue"; "mac"; "AppIcon.iconset"; "icon_16x16.png"], 16);
      (["ue"; "mac"; "AppIcon.iconset"; "icon_16x16@2x.png"], 32);
      (["ue"; "mac"; "AppIcon.iconset"; "icon_32x32.png"], 32);
      (["ue"; "mac"; "AppIcon.iconset"; "icon_32x32@2x.png"], 64);
      (["ue"; "mac"; "AppIcon.iconset"; "icon_128x128.png"], 128);
      (["ue"; "mac"; "AppIcon.iconset"; "icon_128x128@2x.png"], 256);
      (["ue"; "mac"; "AppIcon.iconset"; "icon_256x256.png"], 256);
      (["ue"; "mac"; "AppIcon.iconset"; "icon_256x256@2x.png"], 512);
      (["ue"; "mac"; "AppIcon.iconset"; "icon_512x512.png"], 512);
      (["ue"; "mac"; "AppIcon.iconset"; "icon_512x512@2x.png"], 1024);
      (["ue"; "linux"; "icon-256.png"], 256);
      (["ue"; "linux"; "icon-512.png"], 512) ].
Proof. reflexivity. Qed.

Lemma empty_fs_no_file d : Fs.no_file_above (∅ : FS) d.
Proof. intros q f _. rewrite lookup_empty. discriminate. Qed.

Lemma generate_ue_outputs_witness :
  exists fs' : FS,
    generate_ue Sample.nearest Sample.ue_opts Sample.square ∅ = (Ok tt, fs')
    /\ fs' !! ["dist"; "ue"; "mac"; "AppIcon.iconset"] = Some Dir
    /\ Fs.files fs' !! ["dist"; "favicon.ico"] = None.
Proof.
  destruct (generate_ue_outputs Sample.nearest nearest_size
              Sample.ue_opts Sample.square ∅)
    as (fs' & Hrun & _ & _ & _ & Hdirs & Hother & _).
  - intros d _. apply empty_fs_no_file.
  - intros rel _. rewrite lookup_empty. discriminate.
  - exists fs'. split; [exact Hrun|]. split.
    + apply (Hdirs ["ue"; "mac"; "AppIcon.iconset"]).
      unfold ue_dirs. right. left.
    + rewrite Hother; [rewrite FsFacts.files_lookup, lookup_empty; reflexivity|].
      rewrite ue_manifest_paths. apply Forall_forall.
      repeat constructor; discriminate.
Defined.

(** The claim of C1 read to the letter puts the files under [windows/],
    [mac/AppIcon.iconset/] and [linux/] of the output directory: after a
    run into [dist] on an empty file system there is no file there; the
    container is at [dist/ue/windows/icon.ico]. *)
Lemma generate_ue_not_under_out :
  exists fs' : FS,
    generate_ue Sample.nearest Sample.ue_opts Sample.square ∅ = (Ok tt, fs')
    /\ (forall name, Fs.files fs' !! ["dist"; "windows"; name] = None)
    /\ (forall name, Fs.files fs' !! ["dist"; "mac"; "AppIcon.iconset"; name] = None)
    /\ (forall name, Fs.files fs' !! ["dist"; "linux"; name] = None)
    /\ is_Some (Fs.files fs' !! ["dist"; "ue"; "windows"; "icon.ico"]).
Proof.
  destruct (generate_ue_spec Sample.nearest Sample.ue_opts Sample.square ∅)
    as (fs' & Hrun & Hin & Hother & _).
  - intros d _. apply empty_fs_no_file.
  - intros rel _. rewrite lookup_empty. discriminate.
  - assert (Hnone : forall q,
               Forall (fun rel => ["dist"] ++ rel <> q)
                 (ue_manifest Sample.nearest Sample.ue_opts Sample.square).*1 ->
               Fs.files fs' !! q = None).
    { intros q Hq. rewrite Hother; [rewrite FsFacts.files_lookup, lookup_empty; reflexivity|].
      apply Forall_forall. exact Hq. }
    exists fs'. split; [exact Hrun|].
    split; [|split; [|split]].
    + intros name. apply Hnone. rewrite ue_manifest_paths. repeat constructor; discriminate.
    + intros name. apply Hnone. rewrite ue_manifest_paths. repeat constructor; discriminate.
    + intros name. apply Hnone. rewrite ue_manifest_paths. repeat constructor; discriminate.
    + rewrite FsFacts.files_lookup.
      change ["dist"; "ue"; "windows"; "icon.ico"]
        with (out_dir Sample.ue_opts ++ ["ue"; "windows"; "icon.ico"]).
      erewrite Hin; [eauto|]. unfold ue_manifest. left.
Qed.

Lemma main_unknown_target_witness :
  exit_code (main Sample.nearest Sample.unreadable None 1 Sample.bogus_args ∅).1 <> 0
  /\ Fs.files (main Sample.nearest Sample.unreadable None 1 Sample.bogus_args ∅).2
     = Fs.files ∅.
Proof.
  destruct (main_unknown_target Sample.nearest Sample.unreadable None 1
              Sample.bogus_args ∅ "bogus") as (_ & Hexit & Hfiles & _).
  - vm_compute. left.
  - vm_compute. discriminate.
  - vm_compute. discriminate.
  - vm_compute. discriminate.
  - split; assumption.
Defined.

Lemma main_blank_targets_witness :
  _parse_targets " , " = Ok ∅
  /\ (main Sample.nearest (Sample.decodes Sample.square) None 1 Sample.blank_args ∅).1 = Ok 0
  /\ (main Sample.nearest (Sample.decodes Sample.square) None 1 Sample.blank_args ∅).2
       !! ["dist"] = Some Dir.
Proof.
  destruct (main_blank_targets Sample.nearest (Sample.decodes Sample.square) None 1
              Sample.blank_args ∅) as (Hparse & _ & Hrun).
  - vm_compute. repeat constructor.
  - destruct (Hrun (0, 0, 0, 255) Sample.square) as (Hok & _ & Hdir).
    + apply empty_fs_no_file.
    + reflexivity.
    + reflexivity.
    + apply PILFacts.wf_tabulate; lia.
    + split; [exact Hparse|]. split; [exact Hok|]. apply Hdir. discriminate.
Defined.

(** *** Runs of the parsers on concrete command lines *)

Example parse_targets_both : _parse_targets "web, UE" = Ok {[ "web"; "ue" ]}.
Proof. vm_compute. reflexivity. Qed.

Example parse_targets_bogus :
  _parse_targets "bogus" = Raise (UnknownTargets {[ "bogus" ]}).
Proof. vm_compute. reflexivity. Qed.

Example parse_targets_comma : _parse_targets "," = Ok ∅.
Proof. vm_compute. reflexivity. Qed.

Example main_bogus :
  main Sample.nearest Sample.unreadable None 1 Sample.bogus_args ∅
  = (Raise (UnknownTargets {[ "bogus" ]}), {[ ["dist"] := Dir ]}).
Proof. vm_compute. reflexivity. Qed.

Example main_blank :
  main Sample.nearest (Sample.decodes Sample.square) None 1 Sample.blank_args ∅
  = (Ok 0, {[ ["dist"] := Dir ]}).
Proof. vm_compute. reflexivity. Qed.

Example main_bad_color :
  (main Sample.nearest (Sample.decodes Sample.square) None 1
     (MkArgs ["icon.png"] ["dist"] "web" false "red" PyFloat.f0_80) ∅).1
  = Raise (InvalidColor "red").
Proof. vm_compute. reflexivity. Qed.

Example is_svg_cases :
  _is_svg ["art"; "logo.SVG"] = true
  /\ _is_svg ["logo.png"] = false
  /\ _is_svg [".svg"] = false.
Proof. repeat split. Qed.

(** * Further properties of the script *)

(** ** Target parsing *)

(** X1: target parsing succeeds exactly when every entry that is not blank
    is, once stripped and lowered, [web] or [ue]; the set returned holds
    those names and nothing else, and the error holds exactly the names
    that are neither. *)
Theorem parse_targets_characterised (value : string) :
  match _parse_targets value with
  | Ok found =>
      found ⊆ {[ "web"; "ue" ]}
      /\ forall name,
           name ∈ found
           <-> exists t, t ∈ PyStr.split "," value /\ PyStr.strip t <> EmptyString
                         /\ PyStr.lower (PyStr.strip t) = name
  | Raise e =>
      exists unknown,
        e = UnknownTargets unknown
        /\ unknown <> ∅
        /\ forall name,
             name ∈ unknown
             <-> name <> "web" /\ name <> "ue"
                 /\ exists t, t ∈ PyStr.split "," value /\ PyStr.strip t <> EmptyString
                              /\ PyStr.lower (PyStr.strip t) = name
  end.
Proof.
  unfold _parse_targets.
  set (found := list_to_set _ : gset string).
  assert (Hfound : forall name,
             name ∈ found
             <-> exists t, t ∈ PyStr.split "," value /\ PyStr.strip t <> EmptyString
                           /\ PyStr.lower (PyStr.strip t) = name).
  { intros name. unfold found. rewrite elem_of_list_to_set, list_elem_of_fmap. split.
    - intros (t & -> & Ht). apply list_elem_of_filter in Ht as [Hne Hin]. eauto.
    - intros (t & Hin & Hne & <-). exists t. split; [reflexivity|].
      apply list_elem_of_filter. split; assumption. }
  destruct (decide (_ = _)) as [Hempty|Hne].
  - split; [|exact Hfound].
    intros name Hname. destruct (decide (name ∈ ({[ "web"; "ue" ]} : gset string))) as [H|H];
      [exact H|].
    exfalso. assert (Hin : name ∈ found ∖ ({[ "web"; "ue" ]} : gset string))
      by (apply elem_of_difference; split; assumption).
    rewrite Hempty in Hin. exact (not_elem_of_empty _ Hin).
  - eexists. split; [reflexivity|]. split; [exact Hne|].
    intros name. rewrite elem_of_difference, elem_of_union, !elem_of_singleton, Hfound.
    split.
    + intros [Hex Hnot]. split; [|split]; [intros ->; apply Hnot; left; reflexivity
                                          | intros ->; apply Hnot; right; reflexivity | exact Hex].
    + intros (Hw & Hu & Hex). split; [exact Hex|]. intros [H|H]; contradiction.
Qed.

(** ** The colour parser *)

Section ColorParserMore.
Import PyStr PyStrFacts.

Lemma int16_two_hex_byte c1 c2 :
  is_hex c1 = true -> is_hex c2 = true ->
  exists v, int16 (String c1 (String c2 EmptyString)) = Ok v /\ 0 <= v <= 255.
Proof.
  intros H1%is_hex_value H2%is_hex_value.
  destruct (hex_value_plain _ _ H1) as (B1 & _). destruct (hex_value_plain _ _ H2) as (B2 & _).
  rewrite (int16_two_hex _ _ _ _ H1 H2). eexists. split; [reflexivity | lia].
Qed.

(** X2: whatever the string, when the parser returns a tuple the remainder
    has six or eight characters, and with six the alpha is 255. *)
Theorem parse_hex_color_ok_length (value : string) (r g b a : Z) :
  _parse_hex_color value = Ok (r, g, b, a) ->
  (String.length (color_remainder value) = 6%nat /\ a = 255)
  \/ String.length (color_remainder value) = 8%nat.
Proof.
  unfold _parse_hex_color, color_remainder.
  destruct (Nat.eqb _ 6) eqn:E6.
  - intros H. left. split; [apply Nat.eqb_eq, E6|].
    destruct (int16 (slice 0 2 _)); [|discriminate].
    destruct (int16 (slice 2 4 _)); [|discriminate].
    destruct (int16 (slice 4 6 _)); [|discriminate].
    cbn [rbind] in H. congruence.
  - destruct (Nat.eqb _ 8) eqn:E8; [|discriminate].
    intros _. right. apply Nat.eqb_eq, E8.
Qed.

Lemma parse_hex_color_ok_length_witness :
  (String.length (color_remainder "+1+2+3") = 6%nat /\ 255 = 255)
  \/ String.length (color_remainder "+1+2+3") = 8%nat.
Proof. apply (parse_hex_color_ok_length "+1+2+3" 1 2 3 255). reflexivity. Defined.

(** X3: when the remainder is six or eight hexadecimal digits the parser
    returns a tuple, and each of its four channels is a byte. *)
Theorem parse_hex_color_bytes (value : string) :
  all_hex (color_remainder value) = true ->
  String.length (color_remainder value) = 6%nat
  \/ String.length (color_remainder value) = 8%nat ->
  exists r g b a,
    _parse_hex_color value = Ok (r, g, b, a)
    /\ 0 <= r <= 255 /\ 0 <= g <= 255 /\ 0 <= b <= 255 /\ 0 <= a <= 255.
Proof.
  intros Hhex [Hlen|Hlen].
  - destruct (color_remainder value) as [|c1 [|c2 [|c3 [|c4 [|c5 [|c6 [|c7 v]]]]]]] eqn:Hv;
      try discriminate Hlen.
    cbn [all_hex list_ascii_of_string forallb] in Hhex.
    repeat (apply andb_prop in Hhex as [? Hhex]).
    rewrite (parse_hex_color_six _ _ _ _ _ _ _ Hv).
    destruct (int16_two_hex_byte c1 c2) as (r & -> & Hr); [assumption..|].
    destruct (int16_two_hex_byte c3 c4) as (g & -> & Hg); [assumption..|].
    destruct (int16_two_hex_byte c5 c6) as (b & -> & Hb); [assumption..|].
    exists r, g, b, 255. cbn [rbind]. repeat split; lia.
  - destruct (color_remainder value)
      as [|c1 [|c2 [|c3 [|c4 [|c5 [|c6 [|c7 [|c8 [|c9 v]]]]]]]]] eqn:Hv;
      try discriminate Hlen.
    cbn [all_hex list_ascii_of_string forallb] in Hhex.
    repeat (apply andb_prop in Hhex as [? Hhex]).
    rewrite (parse_hex_color_eight _ _ _ _ _ _ _ _ _ Hv).
    destruct (int16_two_hex_byte c1 c2) as (r & -> & Hr); [assumption..|].
    destruct (int16_two_hex_byte c3 c4) as (g & -> & Hg); [assumption..|].
    destruct (int16_two_hex_byte c5 c6) as (b & -> & Hb); [assumption..|].
    destruct (int16_two_hex_byte c7 c8) as (a & -> & Ha); [assumption..|].
    exists r, g, b, a. cbn [rbind]. repeat split; lia.
Qed.

Lemma parse_hex_color_bytes_witness :
  exists r g b a,
    _parse_hex_color " #FFaa0080 " = Ok (r, g, b, a)
    /\ 0 <= r <= 255 /\ 0 <= g <= 255 /\ 0 <= b <= 255 /\ 0 <= a <= 255.
Proof.
  apply (parse_hex_color_bytes " #FFaa0080 "); [reflexivity | right; reflexivity].
Defined.

End ColorParserMore.

(** *** Letter case *)

Module LowerFacts.
Import PyStr PyStrFacts.

(** Lowering a character changes none of the tests the parsers make. *)
Lemma lower_char_tests c :
  isspace (lower_char c) = isspace c
  /\ int_isspace (lower_char c) = int_isspace c
  /\ is_underscore (lower_char c) = is_underscore c
  /\ hex_value (lower_char c) = hex_value c
  /\ (code (lower_char c) =? 43) = (code c =? 43)
  /\ (code (lower_char c) =? 45) = (code c =? 45)
  /\ (code (lower_char c) =? 48) = (code c =? 48)
  /\ ((code (lower_char c) =? 120) || (code (lower_char c) =? 88))
     = ((code c =? 120) || (code c =? 88))
  /\ Ascii.eqb (lower_char c) "#" = Ascii.eqb c "#".
Proof. destruct c as [[] [] [] [] [] [] [] []]; vm_compute; repeat split. Qed.

Lemma lower_lstrip s : lstrip (lower s) = lower (lstrip s).
Proof.
  induction s as [|c s IH]; [reflexivity|]. cbn [lower lstrip].
  destruct (lower_char_tests c) as (-> & _). destruct (isspace c); [exact IH | reflexivity].
Qed.

Lemma lower_rstrip s : rstrip (lower s) = lower (rstrip s).
Proof.
  induction s as [|c s IH]; [reflexivity|]. cbn [lower rstrip]. rewrite IH.
  destruct (lower_char_tests c) as (-> & _).
  destruct (rstrip s); cbn [lower]; [destruct (isspace c)|]; reflexivity.
Qed.

Lemma lower_lstrip_hash s : lstrip_char "#" (lower s) = lower (lstrip_char "#" s).
Proof.
  induction s as [|c s IH]; [reflexivity|]. cbn [lower lstrip_char].
  destruct (lower_char_tests c) as (_ & _ & _ & _ & _ & _ & _ & _ & ->).
  destruct (Ascii.eqb c "#"); [exact IH | reflexivity].
Qed.

Lemma lower_remainder value : color_remainder (lower value) = lower (color_remainder value).
Proof.
  unfold color_remainder, strip. rewrite lower_lstrip, lower_rstrip. apply lower_lstrip_hash.
Qed.

Lemma lower_length s : String.length (lower s) = String.length s.
Proof. induction s as [|c s IH]; [reflexivity|]. cbn. rewrite IH. reflexivity. Qed.

Lemma lower_substring s : forall n m,
  String.substring n m (lower s) = lower (String.substring n m s).
Proof.
  induction s as [|c s IH]; intros [|n] [|m]; cbn; try reflexivity; rewrite ?IH; reflexivity.
Qed.

Lemma lower_skip_int_space s : skip_int_space (lower s) = lower (skip_int_space s).
Proof.
  induction s as [|c s IH]; [reflexivity|]. cbn [lower skip_int_space].
  destruct (lower_char_tests c) as (_ & -> & _). destruct (int_isspace c); [exact IH | reflexivity].
Qed.

Lemma lower_take_sign s :
  take_sign (lower s) = ((take_sign s).1, lower (take_sign s).2).
Proof.
  destruct s as [|c s]; [reflexivity|]. cbn [lower take_sign].
  destruct (lower_char_tests c) as (_ & _ & _ & _ & -> & -> & _).
  destruct (code c =? 43); [reflexivity|]. destruct (code c =? 45); reflexivity.
Qed.

Lemma lower_skip_0x s : skip_0x (lower s) = lower (skip_0x s).
Proof.
  destruct s as [|c0 [|c1 s]]; try reflexivity. cbn [lower skip_0x].
  destruct (lower_char_tests c0) as (_ & _ & _ & _ & _ & _ & -> & _).
  destruct (lower_char_tests c1) as (_ & _ & _ & _ & _ & _ & _ & -> & _).
  destruct ((code c0 =? 48) && ((code c1 =? 120) || (code c1 =? 88))); [|reflexivity].
  destruct s as [|c2 s]; [reflexivity|]. cbn [lower].
  destruct (lower_char_tests c2) as (_ & _ & -> & _).
  destruct (is_underscore c2); reflexivity.
Qed.

Lemma lower_scan_digits s : forall acc n prev,
  scan_digits (lower s) acc n prev
  = match scan_digits s acc n prev with
    | Some (v, k, rest) => Some (v, k, lower rest)
    | None => None
    end.
Proof.
  induction s as [|c s IH]; intros acc n prev; cbn [lower scan_digits].
  - destruct prev; reflexivity.
  - destruct (lower_char_tests c) as (_ & _ & -> & -> & _).
    destruct (is_underscore c).
    + destruct prev; [reflexivity | apply IH].
    + destruct (hex_value c); [apply IH|]. destruct prev; reflexivity.
Qed.

(** [int(s, 16)] reads a string and its lowering to the same number. *)
Lemma lower_int16 s z : int16 (lower s) = Ok z <-> int16 s = Ok z.
Proof.
  unfold int16. rewrite lower_skip_int_space, lower_take_sign.
  destruct (take_sign (skip_int_space s)) as [neg s1]. cbn [fst snd].
  rewrite lower_skip_0x. destruct (skip_0x s1) as [|c s2] eqn:E; [cbn; split; discriminate|].
  rewrite <- E at 2. rewrite lower_scan_digits. rewrite E. cbn [lower].
  destruct (lower_char_tests c) as (_ & _ & -> & _).
  destruct (is_underscore c); [split; discriminate|].
  destruct (scan_digits (String c s2) 0 0 false) as [[[v k] rest]|]; [|split; discriminate].
  destruct k; [split; discriminate|].
  rewrite lower_skip_int_space.
  destruct (skip_int_space rest); cbn [lower]; [reflexivity | split; discriminate].
Qed.

Lemma rbind_agree {A B} (r1 r2 : result A) (k1 k2 : A -> result B) :
  (forall a, r1 = Ok a <-> r2 = Ok a) ->
  (forall a b, k1 a = Ok b <-> k2 a = Ok b) ->
  forall b, rbind r1 k1 = Ok b <-> rbind r2 k2 = Ok b.
Proof.
  intros Hr Hk b. destruct r1 as [a1|e1], r2 as [a2|e2]; cbn [rbind].
  - assert (a1 = a2) as -> by (assert (H : Ok a1 = Ok a2 :> result A) by (apply Hr; reflexivity);
                               congruence).
    apply Hk.
  - exfalso. assert (H : Raise e2 = Ok a1 :> result A) by (apply Hr; reflexivity). discriminate.
  - exfalso. assert (H : Raise e1 = Ok a2 :> result A) by (apply Hr; reflexivity). discriminate.
  - split; discriminate.
Qed.

Lemma lower_parse_hex_color value t :
  _parse_hex_color (lower value) = Ok t <-> _parse_hex_color value = Ok t.
Proof.
  unfold _parse_hex_color. fold (color_remainder (lower value)). fold (color_remainder value).
  rewrite lower_remainder, lower_length. unfold slice. rewrite !lower_substring.
  destruct (Nat.eqb _ 6).
  - revert t. repeat (apply rbind_agree; [intros ?; apply lower_int16 | intros ?]).
    reflexivity.
  - destruct (Nat.eqb _ 8); [|split; discriminate].
    revert t. repeat (apply rbind_agree; [intros ?; apply lower_int16 | intros ?]).
    reflexivity.
Qed.

End LowerFacts.

(** X4: two colour strings with the same lowering, in particular two
    strings that differ in letter case only, parse to the same tuple or
    are both rejected. *)
Theorem parse_hex_color_case_insensitive (value1 value2 : string) (t : rgba_tuple) :
  PyStr.lower value1 = PyStr.lower value2 ->
  _parse_hex_color value1 = Ok t <-> _parse_hex_color value2 = Ok t.
Proof.
  intros Hlow. rewrite <- (LowerFacts.lower_parse_hex_color value1).
  rewrite <- (LowerFacts.lower_parse_hex_color value2). rewrite Hlow. reflexivity.
Qed.

Lemma parse_hex_color_case_insensitive_witness :
  _parse_hex_color "#FFAA0c" = Ok (255, 170, 12, 255)
  <-> _parse_hex_color "#ffaa0C" = Ok (255, 170, 12, 255).
Proof. apply parse_hex_color_case_insensitive. reflexivity. Defined.

(** ** Vector input *)

Section SvgDetection.
Import PyStr PyStrFacts Fs.

Lemma lower_char_dot c : Ascii.eqb (lower_char c) "." = Ascii.eqb c ".".
Proof. destruct c as [[] [] [] [] [] [] [] []]; reflexivity. Qed.

Lemma lower_no_dot s : from_last_dot (lower s) = None -> from_last_dot s = None.
Proof.
  induction s as [|c s IH]; [reflexivity|]. cbn [lower from_last_dot].
  destruct (from_last_dot (lower s)); [discriminate|]. rewrite IH by reflexivity.
  rewrite lower_char_dot. destruct (Ascii.eqb c "."); [discriminate | reflexivity].
Qed.

Lemma from_last_dot_app stem e :
  from_last_dot e = None -> from_last_dot (stem +:+ String "." e) = Some (String "." e).
Proof.
  intros He. induction stem as [|c stem IH].
  - rewrite append_nil. cbn [from_last_dot]. rewrite He. reflexivity.
  - rewrite append_cons. cbn [from_last_dot]. rewrite IH. reflexivity.
Qed.

(** X5: whatever the directories before it and whatever the letter case
    of the extension, a file name [stem.svg] counts as vector input
    exactly when the stem is not empty: the dot file [.svg] does not. *)
Theorem is_svg_by_extension (dir : path) (stem e : string) :
  lower e = "svg" ->
  _is_svg (dir ++ [stem +:+ String "." e]) = negb (String.eqb stem EmptyString).
Proof.
  intros He. assert (Hnodot : from_last_dot e = None)
    by (apply lower_no_dot; rewrite He; reflexivity).
  unfold _is_svg, suffix. rewrite last_snoc.
  destruct stem as [|c stem].
  - rewrite append_nil, Hnodot. reflexivity.
  - rewrite append_cons, (from_last_dot_app stem e Hnodot).
    assert (Hlen : Nat.ltb 1 (String.length (String "." e)) = true).
    { rewrite <- (LowerFacts.lower_length (String "." e)). cbn [lower]. rewrite He. reflexivity. }
    rewrite Hlen. cbn [lower]. rewrite He. reflexivity.
Qed.

Lemma is_svg_by_extension_witness :
  _is_svg (["art"; "final"] ++ ["logo.v2" +:+ String "." "SvG"])
  = negb (String.eqb "logo.v2" EmptyString).
Proof. apply is_svg_by_extension. reflexivity. Defined.

End SvgDetection.

(** ** Square normalization and resizing *)

Section ImageOpsMore.
Import PIL PILFacts.

Variable pil_resize : Image -> Z * Z -> Z -> Image.
Hypothesis pil_resize_size :
  forall img w h r, 0 < w -> 0 < h -> size (pil_resize img (w, h) r) = (w, h).

Lemma alpha_composite_at_wf self im d r :
  0 <= width self -> 0 <= height self ->
  alpha_composite_at self im d = Ok r -> wf_image r.
Proof.
  intros Hw Hh. unfold alpha_composite_at. destruct d as [dx dy].
  destruct (_ && _ && _ && _).
  - cbn [rbind]. destruct (alpha_composite self im); cbn [rbind]; [|discriminate].
    intros [= <-]. unfold paste. apply wf_tabulate; assumption.
  - destruct (crop self _); cbn [rbind]; [|discriminate].
    destruct (alpha_composite _ im); cbn [rbind]; [|discriminate].
    intros [= <-]. unfold paste. apply wf_tabulate; assumption.
Qed.

Lemma ensure_square_wf img pad bg sq :
  wf_image img -> _ensure_square img pad bg = Ok sq -> wf_image sq.
Proof.
  intros Hwf. pose proof Hwf as (Hw & Hh & _). unfold _ensure_square, size.
  destruct (width img =? height img); [intros [= <-]; exact Hwf|].
  destruct pad; cbn [negb].
  - rewrite new_ok by lia. cbn [rbind]. apply alpha_composite_at_wf; cbn; lia.
  - unfold crop. destruct (_ || _) eqn:E; [discriminate|]. intros [= <-].
    apply orb_false_elim in E as [E1 E2]. apply wf_tabulate; lia.
Qed.

Lemma ensure_square_width_height img pad bg sq :
  wf_image img -> _ensure_square img pad bg = Ok sq -> width sq = height sq.
Proof.
  intros Hwf Hsq. destruct (decide (width img = height img)) as [E|Hne].
  - rewrite (ensure_square_of_square img pad bg E) in Hsq. injection Hsq as <-. exact E.
  - destruct pad.
    + destruct (ensure_square_pad img bg Hwf Hne) as (sq' & H' & Hsize & _).
      rewrite H' in Hsq. injection Hsq as <-. injection Hsize as -> ->. reflexivity.
    + destruct (ensure_square_crop img bg Hwf Hne) as (sq' & H' & Hsize & _).
      rewrite H' in Hsq. injection Hsq as <-. injection Hsize as -> ->. reflexivity.
Qed.

(** X6: on every well-formed raster the square normalizer returns a
    well-formed raster as wide as it is high, and normalizing that one
    again, under any policy and background, changes nothing. *)
Theorem ensure_square_idempotent
        (img : Image) (pad pad' : bool) (bg bg' : rgba_tuple) :
  wf_image img ->
  exists sq,
    _ensure_square img pad bg = Ok sq
    /\ width sq = height sq
    /\ wf_image sq
    /\ _ensure_square sq pad' bg' = Ok sq.
Proof.
  intros Hwf. destruct (ensure_square_total img pad bg Hwf) as [sq Hsq].
  pose proof (ensure_square_width_height img pad bg sq Hwf Hsq) as Heq.
  exists sq. split; [exact Hsq|]. split; [exact Heq|].
  split; [apply (ensure_square_wf img pad bg sq Hwf Hsq)|].
  apply ensure_square_of_square, Heq.
Qed.

Lemma ensure_square_idempotent_witness :
  exists sq,
    _ensure_square Sample.wide true (0, 0, 0, 255) = Ok sq
    /\ width sq = height sq
    /\ wf_image sq
    /\ _ensure_square sq false (9, 9, 9, 9) = Ok sq.
Proof. apply ensure_square_idempotent. apply wf_tabulate; lia. Defined.

(** X7: resizing to a size and then to the same size again gives what
    the first resizing gave: the second call resamples nothing. *)
Theorem resize_twice (img : Image) (sz r r' : Z) :
  0 < sz ->
  _resize pil_resize (_resize pil_resize img sz r) sz r' = _resize pil_resize img sz r.
Proof.
  intros Hsz. pose proof (resize_size pil_resize pil_resize_size img sz r Hsz) as Hsize.
  unfold _resize at 1. destruct (decide (_ = _)); [reflexivity | contradiction].
Qed.

(** *** Compositing *)

Lemma channel_exact s : 0 <= s <= 255 ->
  Z.shiftr (SHIFTFORDIV255 (s * 32640 + 16384)) 7 = s.
Proof.
  intros Hs. unfold SHIFTFORDIV255. rewrite !Z.shiftr_div_pow2 by lia.
  change (2 ^ 8) with 256. change (2 ^ 7) with 128.
  Z.div_mod_to_equations. lia.
Qed.

(** An opaque pixel on top hides what is below. *)
Lemma composite_pixel_opaque_source dst src :
  byte_pixel src -> alpha src = 255 -> composite_pixel dst src = src.
Proof.
  intros (Hr & Hg & Hb & _) Ha. destruct src as [r g b a]. cbn in *. subst a.
  unfold composite_pixel. cbn [alpha red green blue]. cbn [Z.eqb].
  replace (alpha dst * (255 - 255)) with 0 by lia.
  change (255 * 255 + 0) with 65025.
  change (255 * 255 * 255 * Z.shiftl 1 PRECISION_BITS / 65025) with 32640.
  change (255 * Z.shiftl 1 PRECISION_BITS - 32640) with 0.
  change (Z.shiftl 128 PRECISION_BITS) with 16384. change PRECISION_BITS with 7.
  rewrite !Z.mul_0_r, !Z.add_0_r, !channel_exact by assumption.
  reflexivity.
Qed.

Lemma getpixel_Some_bounds img x y p :
  getpixel img x y = Some p -> 0 <= x < width img /\ 0 <= y < height img.
Proof.
  intros H. destruct (decide (0 <= x < width img /\ 0 <= y < height img)) as [Hb|Hb];
    [exact Hb|].
  rewrite (getpixel_outside img x y Hb) in H. discriminate.
Qed.

(** X8: under the pad policy a source pixel that is opaque reaches the
    square unchanged, at its place moved by the centring offsets, and a
    source pixel that is fully transparent is replaced by the background
    colour. *)
Theorem ensure_square_pad_pixel
        (img : Image) (bg : rgba_tuple) (sx sy : Z) (p : pixel) :
  wf_image img ->
  width img <> height img ->
  getpixel img sx sy = Some p ->
  exists sq,
    _ensure_square img true bg = Ok sq
    /\ (alpha p = 255 -> byte_pixel p ->
        getpixel sq ((Z.max (width img) (height img) - width img) / 2 + sx)
                    ((Z.max (width img) (height img) - height img) / 2 + sy) = Some p)
    /\ (alpha p = 0 ->
        getpixel sq ((Z.max (width img) (height img) - width img) / 2 + sx)
                    ((Z.max (width img) (height img) - height img) / 2 + sy)
        = Some (ink bg)).
Proof.
  intros Hwf Hne Hp. pose proof (getpixel_Some_bounds _ _ _ _ Hp) as [Hx Hy].
  destruct (ensure_square_pad img bg Hwf Hne) as (sq & Hsq & _ & Hpix).
  cbv zeta in Hpix.
  set (side := Z.max (width img) (height img)) in *.
  set (x0 := (side - width img) / 2) in *. set (y0 := (side - height img) / 2) in *.
  assert (Hx0 : 0 <= x0 /\ x0 + width img <= side).
  { unfold x0. split; [apply Z.div_pos; unfold side; lia|].
    assert (2 * ((side - width img) / 2) <= side - width img)
      by (apply Z.mul_div_le; lia).
    unfold side in *. lia. }
  assert (Hy0 : 0 <= y0 /\ y0 + height img <= side).
  { unfold y0. split; [apply Z.div_pos; unfold side; lia|].
    assert (2 * ((side - height img) / 2) <= side - height img)
      by (apply Z.mul_div_le; lia).
    unfold side in *. lia. }
  assert (Hat : getpixel sq (x0 + sx) (y0 + sy) = Some (composite_pixel (ink bg) p)).
  { rewrite Hpix by lia. unfold in_box.
    replace ((x0 <=? x0 + sx) && (x0 + sx <? x0 + width img)
             && (y0 <=? y0 + sy) && (y0 + sy <? y0 + height img)) with true
      by (symmetry; repeat (apply andb_true_intro; split); lia).
    unfold pixel_at. replace (x0 + sx - x0) with sx by lia.
    replace (y0 + sy - y0) with sy by lia. rewrite Hp. reflexivity. }
  exists sq. split; [exact Hsq|]. split.
  - intros Ha Hb. rewrite Hat, composite_pixel_opaque_source by assumption. reflexivity.
  - intros Ha. rewrite Hat, composite_pixel_transparent by assumption. reflexivity.
Qed.

Lemma ensure_square_pad_pixel_witness :
  exists sq,
    _ensure_square Sample.wide true (9, 9, 9, 255) = Ok sq
    /\ getpixel sq 1 0 = Some (Pixel 10 0 7 255).
Proof.
  destruct (ensure_square_pad_pixel Sample.wide (9, 9, 9, 255) 1 0 (Pixel 10 0 7 255))
    as (sq & Hsq & Hopaque & _).
  - apply wf_tabulate; lia.
  - cbn. lia.
  - reflexivity.
  - exists sq. split; [exact Hsq|]. apply Hopaque; [reflexivity|].
    unfold byte_pixel. cbn [red green blue alpha]. lia.
Defined.

End ImageOpsMore.

Lemma resize_twice_witness :
  _resize Sample.nearest (_resize Sample.nearest Sample.wide 5 1) 5 3
  = _resize Sample.nearest Sample.wide 5 1.
Proof. apply (resize_twice Sample.nearest nearest_size). lia. Defined.

(** ** The padded-fit composer *)

Section ComposerMore.
Import PIL PILFacts.

Variable pil_resize : Image -> Z * Z -> Z -> Image.
Hypothesis pil_resize_size :
  forall img w h r, 0 < w -> 0 < h -> size (pil_resize img (w, h) r) = (w, h).

(** X9: the composer lays the canvas out as a centred content square of
    side between 1 and the canvas side, with margins that differ by one
    pixel at most: outside the square every pixel is the background
    colour, inside it is the resized source composited over it. *)
Theorem fit_with_padding_layout
        (img : Image) (sz : Z) (content_scale : spec_float) (bg : rgba_tuple) (resample : Z) :
  0 < sz < 2 ^ 53 ->
  valid_binary 53 1024 content_scale = true ->
  exists canvas inner,
    _fit_with_padding pil_resize img sz content_scale bg resample = Ok canvas
    /\ inner_size sz content_scale = Ok inner
    /\ 1 <= inner <= sz
    /\ wf_image canvas
    /\ size canvas = (sz, sz)
    /\ 0 <= (sz - inner) / 2
    /\ (sz - inner) / 2 <= sz - ((sz - inner) / 2 + inner) <= (sz - inner) / 2 + 1
    /\ (forall x y,
          0 <= x < sz -> 0 <= y < sz ->
          ~ ((sz - inner) / 2 <= x < (sz - inner) / 2 + inner
             /\ (sz - inner) / 2 <= y < (sz - inner) / 2 + inner) ->
          getpixel canvas x y = Some (ink bg))
    /\ (forall x y,
          (sz - inner) / 2 <= x < (sz - inner) / 2 + inner ->
          (sz - inner) / 2 <= y < (sz - inner) / 2 + inner ->
          getpixel canvas x y
          = Some (composite_pixel (ink bg)
                    (pixel_at (_resize pil_resize img inner resample)
                       (x - (sz - inner) / 2) (y - (sz - inner) / 2)))).
Proof.
  intros Hsz Hv.
  destruct (inner_size_total sz content_scale Hsz Hv) as (inner & Hin & Hrange).
  destruct (fit_with_padding_spec pil_resize pil_resize_size img sz content_scale bg
              resample inner ltac:(lia) Hin Hrange) as (canvas & Hc & Hsize & Hpix).
  pose proof (resize_size pil_resize pil_resize_size img inner resample ltac:(lia)) as Hrs.
  injection Hrs as Hrw Hrh.
  pose proof (Z.div_mod (sz - inner) 2 ltac:(lia)) as Hdm.
  pose proof (Z.mod_pos_bound (sz - inner) 2 ltac:(lia)) as Hmb.
  exists canvas, inner. split; [exact Hc|]. split; [exact Hin|]. split; [exact Hrange|].
  split.
  { unfold _fit_with_padding in Hc. rewrite Hin in Hc. cbn [rbind] in Hc.
    rewrite new_ok in Hc by lia. cbn [rbind] in Hc.
    apply alpha_composite_at_wf in Hc; [exact Hc | cbn; lia | cbn; lia]. }
  split; [exact Hsize|]. split; [lia|]. split; [lia|]. split.
  - intros x y Hx Hy Hout. rewrite (Hpix x y Hx Hy). unfold in_box. rewrite Hrw, Hrh.
    destruct (_ && _ && _ && _) eqn:E; [|reflexivity].
    exfalso. apply Hout. repeat (apply andb_prop in E as [E ?]). lia.
  - intros x y Hx Hy. rewrite (Hpix x y ltac:(lia) ltac:(lia)). unfold in_box.
    rewrite Hrw, Hrh.
    replace (_ && _ && _ && _) with true
      by (symmetry; repeat (apply andb_true_intro; split); lia).
    reflexivity.
Qed.

End ComposerMore.

Lemma fit_with_padding_layout_witness :
  exists canvas inner,
    _fit_with_padding Sample.nearest Sample.square 10 PyFloat.f0_80 (1, 2, 3, 255) 1
    = Ok canvas
    /\ inner_size 10 PyFloat.f0_80 = Ok inner
    /\ 1 <= inner <= 10
    /\ PIL.getpixel canvas 0 9 = Some (PIL.ink (1, 2, 3, 255)).
Proof.
  destruct (fit_with_padding_layout Sample.nearest nearest_size Sample.square 10
              PyFloat.f0_80 (1, 2, 3, 255) 1 ltac:(lia) eq_refl)
    as (canvas & inner & Hc & Hin & Hr & _ & _ & _ & _ & Hout & _).
  exists canvas, inner. split; [exact Hc|]. split; [exact Hin|]. split; [exact Hr|].
  apply Hout; [lia | lia |].
  assert (inner = 8) as -> by (vm_compute in Hin; congruence).
  intros Hbox. change ((10 - 8) / 2) with 1 in Hbox. lia.
Defined.

(** X10: a content scale that is not above 0.1 (a NaN, zero, a negative
    number, minus infinity) gives the content size 0.1 gives, and one
    above 1.0 (plus infinity included) gives the content size 1.0 gives. *)
Theorem inner_size_clamped (sz : Z) (content_scale : spec_float) :
  (SFltb PyFloat.f0_1 content_scale = false ->
   inner_size sz content_scale = inner_size sz PyFloat.f0_1)
  /\ (SFltb PyFloat.f1_0 content_scale = true ->
      inner_size sz content_scale = inner_size sz PyFloat.f1_0).
Proof.
  assert (Hchain : SFltb PyFloat.f1_0 content_scale = true ->
                   SFltb PyFloat.f0_1 content_scale = true).
  { destruct content_scale as [s|s| |s m e]; try discriminate; try (destruct s; trivial).
    unfold SFltb, SFcompare, PyFloat.f0_1, PyFloat.f1_0.
    destruct (Z.compare_spec (-52) e); destruct (Z.compare_spec (-56) e);
      trivial; try discriminate; lia. }
  split; intros H.
  - assert (Hclamp : PyFloat.max PyFloat.f0_1 (PyFloat.min content_scale PyFloat.f1_0)
                     = PyFloat.f0_1).
    { unfold PyFloat.max, PyFloat.min, PyFloat.lt.
      destruct (SFltb PyFloat.f1_0 content_scale) eqn:E1.
      - rewrite (Hchain eq_refl) in H. discriminate.
      - rewrite H. reflexivity. }
    unfold inner_size. rewrite Hclamp. reflexivity.
  - assert (Hclamp : PyFloat.max PyFloat.f0_1 (PyFloat.min content_scale PyFloat.f1_0)
                     = PyFloat.f1_0).
    { unfold PyFloat.max, PyFloat.min, PyFloat.lt. rewrite H. reflexivity. }
    unfold inner_size. rewrite Hclamp. reflexivity.
Qed.

Example inner_size_edge_scales :
  inner_size 512 S754_nan = Ok 51
  /\ inner_size 512 (S754_zero false) = Ok 51
  /\ inner_size 512 (S754_infinity true) = Ok 51
  /\ inner_size 512 (S754_infinity false) = Ok 512
  /\ inner_size 512 PyFloat.f0_80 = Ok 410.
Proof. vm_compute. repeat split. Qed.

(** ** The two writers *)

Module WriterFacts.
Import Fs FsFacts PlanFacts.

Lemma not_prefix_of_parent (p : path) : p <> [] -> ~ p `prefix_of` parent p.
Proof.
  intros Hne Hpre. unfold parent in Hpre.
  destruct (exists_last Hne) as (q & c & ->).
  rewrite removelast_last in Hpre. exact (prefix_snoc_not _ _ Hpre).
Qed.

Lemma parent_neq (p : path) : p <> [] -> parent p <> p.
Proof. intros Hne Heq. apply (not_prefix_of_parent p Hne). rewrite Heq. reflexivity. Qed.

(** A directory is made, then the file is saved: what [_write_png] and
    [_write_ico] do to the file system. *)
Lemma mkdir_save_ok (p : path) (f : file) (fs : FS) :
  no_file_above fs (parent p) -> fs !! p <> Some Dir ->
  exists fs' : FS,
    ibind (mkdir (parent p)) (fun _ => save p f) fs = (Ok tt, fs')
    /\ fs' !! p = Some (File f)
    /\ (forall q, q <> p -> files fs' !! q = files fs !! q)
    /\ (parent p <> [] -> fs' !! parent p = Some Dir).
Proof.
  intros Hno Hnd. destruct (mkdir_ok _ _ Hno) as (fs1 & Hmk & Hfiles & Hdir).
  assert (Hnd1 : fs1 !! p <> Some Dir).
  { assert (Hfs1 : fs1 = (mkdir_from [] (parent p) fs).2)
      by (unfold mkdir in Hmk; rewrite Hmk; reflexivity).
    destruct (mkdir_from_lookup (parent p) [] fs p) as [Hsame|[_ Hpre]].
    - rewrite Hfs1, Hsame. exact Hnd.
    - cbn in Hpre. destruct p as [|c p]; [|exfalso; exact (not_prefix_of_parent (c :: p) ltac:(discriminate) Hpre)].
      cbn in Hfs1. subst fs1. exact Hnd. }
  exists (<[p := File f]> fs1). unfold ibind. rewrite Hmk, (save_ok _ _ _ Hnd1).
  split; [reflexivity|]. split; [apply lookup_insert_eq|]. split.
  - intros q Hq. rewrite files_insert_file, lookup_insert_ne, Hfiles by congruence. reflexivity.
  - intros Hp. destruct (decide (p = [])) as [->|Hne]; [contradiction|].
    rewrite lookup_insert_ne by (intros Heq; exact (parent_neq p Hne (eq_sym Heq))).
    exact (Hdir Hp).
Qed.

(** When it fails, no regular file has changed. *)
Lemma mkdir_save_failure (p : path) (f : file) (fs : FS) :
  (ibind (mkdir (parent p)) (fun _ => save p f) fs).1 <> Ok tt ->
  files (ibind (mkdir (parent p)) (fun _ => save p f) fs).2 = files fs.
Proof.
  unfold ibind. pose proof (mkdir_files (parent p) fs) as Hf.
  destruct (mkdir (parent p) fs) as [[[]|e] fs1]; cbn [fst snd] in *; [|intros _; exact Hf].
  unfold save. destruct (fs1 !! p) as [[|f']|]; cbn [fst snd]; try contradiction.
  intros _. exact Hf.
Qed.

Lemma mkdir_save_on_dir (p : path) (f : file) (fs : FS) :
  fs !! p = Some Dir ->
  (ibind (mkdir (parent p)) (fun _ => save p f) fs).1 <> Ok tt.
Proof.
  intros Hd. unfold ibind.
  pose proof (mkdir_from_keeps_dir (parent p) [] fs p Hd) as Hkeep. unfold mkdir.
  destruct (mkdir_from [] (parent p) fs) as [[[]|e] fs1]; cbn [fst snd] in *; [|discriminate].
  unfold save. rewrite Hkeep. discriminate.
Qed.

Lemma mkdir_save_on_dir_error (p : path) (f : file) (fs : FS) :
  fs !! p = Some Dir ->
  no_file_above fs (parent p) ->
  (ibind (mkdir (parent p)) (fun _ => save p f) fs).1 = Raise (IsADirectoryError p).
Proof.
  intros Hd Hno. destruct (mkdir_ok _ _ Hno) as (fs1 & Hmk & _ & _).
  pose proof (mkdir_from_keeps_dir (parent p) [] fs p Hd) as Hkeep.
  unfold mkdir in Hmk. rewrite Hmk in Hkeep. cbn [snd] in Hkeep.
  unfold ibind, mkdir. rewrite Hmk. unfold save. rewrite Hkeep. reflexivity.
Qed.

(** One step of [mkdir_from] leaves the files below in place. *)
Lemma mkdir_from_step (base : path) (c : string) (rest : list string) (fs : FS)
      (k : nat) (n : option node) :
  (k < length rest)%nat ->
  fs !! (base ++ take (S (S k)) (c :: rest)) = n ->
  <[join base c := Dir]> fs !! (join base c ++ take (S k) rest) = n.
Proof.
  intros Hk Hn. rewrite lookup_insert_ne.
  - unfold join. rewrite <- app_assoc. exact Hn.
  - unfold join. intros Heq. apply (f_equal length) in Heq.
    rewrite !length_app in Heq. destruct rest; cbn in Hk, Heq; lia.
Qed.

(** A regular file above the directory to make stops [mkdir] with
    [NotADirectoryError], a regular file at the directory itself with
    [FileExistsError]; either names the directory asked for. *)
Lemma mkdir_from_not_a_directory rest : forall base (fs : FS) k f,
  (0 < k < length rest)%nat ->
  fs !! (base ++ take k rest) = Some (File f) ->
  (mkdir_from base rest fs).1 = Raise (NotADirectoryError (base ++ rest)).
Proof.
  induction rest as [|c rest IH]; intros base fs k f Hk Hfile; [cbn in Hk; lia|].
  assert (Hpath : join base c ++ rest = base ++ c :: rest)
    by (unfold join; rewrite <- app_assoc; reflexivity).
  assert (Hrec : fs !! join base c <> Some (File f) ->
                 (mkdir_from (join base c) rest (<[join base c := Dir]> fs)).1
                 = Raise (NotADirectoryError (base ++ c :: rest))).
  { intros E. destruct k as [|[|k]]; [lia | contradiction |].
    rewrite <- Hpath. apply (IH _ _ (S k) f); [cbn in Hk; lia|].
    apply mkdir_from_step; [cbn in Hk; lia | exact Hfile]. }
  cbn [mkdir_from]. destruct (fs !! join base c) as [[|f']|] eqn:E.
  - apply Hrec. discriminate.
  - destruct rest as [|c' rest]; [cbn in Hk; lia|]. cbn [fst]. rewrite Hpath. reflexivity.
  - apply Hrec. discriminate.
Qed.

Lemma mkdir_from_file_exists rest : forall base (fs : FS) f,
  rest <> [] ->
  fs !! (base ++ rest) = Some (File f) ->
  (forall k f', (0 < k < length rest)%nat -> fs !! (base ++ take k rest) <> Some (File f')) ->
  (mkdir_from base rest fs).1 = Raise (FileExistsError (base ++ rest)).
Proof.
  induction rest as [|c rest IH]; intros base fs f Hne Hfile Hno; [contradiction|].
  cbn [mkdir_from]. destruct rest as [|c' rest].
  - unfold join. rewrite Hfile. reflexivity.
  - assert (Hpath : join base c ++ c' :: rest = base ++ c :: c' :: rest)
      by (unfold join; rewrite <- app_assoc; reflexivity).
    assert (Hrec : (mkdir_from (join base c) (c' :: rest) (<[join base c := Dir]> fs)).1
                   = Raise (FileExistsError (base ++ c :: c' :: rest))).
    { rewrite <- Hpath. apply (IH _ _ f); [discriminate | |].
      - rewrite lookup_insert_ne.
        + rewrite Hpath. exact Hfile.
        + unfold join. intros Heq. apply (f_equal length) in Heq.
          rewrite !length_app in Heq. cbn in Heq. lia.
      - intros k f' Hk Hk'. destruct k as [|k]; [lia|].
        assert (Hlt : (k < length (c' :: rest))%nat) by lia.
        rewrite (mkdir_from_step base c (c' :: rest) fs k _ Hlt eq_refl) in Hk'.
        apply (Hno (S (S k)) f'); [cbn in Hk |- *; lia | exact Hk']. }
    destruct (fs !! join base c) as [[|f']|] eqn:E; [exact Hrec | | exact Hrec].
    exfalso. apply (Hno 1%nat f'); [cbn; lia | exact E].
Qed.

Lemma mkdir_not_a_directory (d q : path) (f : file) (fs : FS) :
  q <> [] -> q `prefix_of` d -> q <> d -> fs !! q = Some (File f) ->
  (mkdir d fs).1 = Raise (NotADirectoryError d).
Proof.
  intros Hne [rest ->] Hnd Hfile. unfold mkdir.
  apply (mkdir_from_not_a_directory (q ++ rest) [] fs (length q) f).
  - rewrite length_app. destruct q; [contradiction|].
    destruct rest; [rewrite app_nil_r in Hnd; contradiction|]. cbn. lia.
  - cbn [app]. rewrite take_app_length. exact Hfile.
Qed.

Lemma mkdir_file_exists (d : path) (f : file) (fs : FS) :
  d <> [] -> fs !! d = Some (File f) ->
  (forall q f', q <> [] -> q `prefix_of` d -> q <> d -> fs !! q <> Some (File f')) ->
  (mkdir d fs).1 = Raise (FileExistsError d).
Proof.
  intros Hne Hfile Hno. unfold mkdir.
  apply (mkdir_from_file_exists d [] fs f Hne Hfile).
  intros k f' Hk. cbn [app]. apply Hno.
  - destruct d; [contradiction|]. destruct k; [lia | discriminate].
  - apply prefix_take.
  - intros Heq. apply (f_equal length) in Heq. rewrite length_take in Heq. lia.
Qed.

Lemma fold_left_max rest : forall a,
  a <= fold_left Z.max rest a
  /\ (forall s, s ∈ rest -> s <= fold_left Z.max rest a)
  /\ (fold_left Z.max rest a = a \/ fold_left Z.max rest a ∈ rest).
Proof.
  induction rest as [|b rest IH]; intros a; cbn [fold_left].
  - split; [lia|]. split; [intros s Hs; inversion Hs | left; reflexivity].
  - destruct (IH (Z.max a b)) as (H1 & H2 & H3). split; [lia|]. split.
    + intros s Hs. apply elem_of_cons in Hs as [->|Hs]; [lia | apply H2, Hs].
    + destruct H3 as [H3|H3]; [|right; right; exact H3].
      rewrite H3. destruct (Z.max_spec a b) as [[_ ->]|[_ ->]]; [right; left | left; reflexivity].
Qed.

End WriterFacts.

Section WritersMore.
Import Fs FsFacts WriterFacts.

Variable pil_resize : Image -> Z * Z -> Z -> Image.
Hypothesis pil_resize_size :
  forall img w h r, 0 < w -> 0 < h -> size (pil_resize img (w, h) r) = (w, h).

(** X11: when no regular file stands where the parent directory is due
    and the target is no directory, the PNG writer ends normally, the
    target then holds the raster, whether or not a file was there before,
    the parent directory exists, and every other regular file is as it
    was. *)
Theorem write_png_saves (img : Image) (p : path) (fs : FS) :
  no_file_above fs (parent p) ->
  fs !! p <> Some Dir ->
  exists fs' : FS,
    _write_png img p fs = (Ok tt, fs')
    /\ fs' !! p = Some (File (PngFile img))
    /\ (forall q, q <> p -> files fs' !! q = files fs !! q)
    /\ (parent p <> [] -> fs' !! parent p = Some Dir).
Proof. intros Hno Hnd. apply (mkdir_save_ok p (PngFile img) fs Hno Hnd). Qed.

(** X12: the PNG writer fails when its target is a directory, with
    [IsADirectoryError] when the parent directory can be made; it fails
    with [NotADirectoryError] when a regular file stands above the parent
    directory, and with [FileExistsError] when a regular file stands at
    the parent directory itself, both naming the parent directory;
    whenever it fails, every regular file is as it was. *)
Theorem write_png_failure (img : Image) (p : path) (fs : FS) :
  (fs !! p = Some Dir ->
   (_write_png img p fs).1 <> Ok tt
   /\ (no_file_above fs (parent p) ->
       (_write_png img p fs).1 = Raise (IsADirectoryError p)))
  /\ (forall q f, q <> [] -> q `prefix_of` parent p -> q <> parent p ->
        fs !! q = Some (File f) ->
        (_write_png img p fs).1 = Raise (NotADirectoryError (parent p)))
  /\ (forall f, parent p <> [] -> fs !! parent p = Some (File f) ->
        (forall q f', q <> [] -> q `prefix_of` parent p -> q <> parent p ->
           fs !! q <> Some (File f')) ->
        (_write_png img p fs).1 = Raise (FileExistsError (parent p)))
  /\ ((_write_png img p fs).1 <> Ok tt -> files (_write_png img p fs).2 = files fs).
Proof.
  assert (Hstop : forall e, (mkdir (parent p) fs).1 = Raise e ->
                            (_write_png img p fs).1 = Raise e).
  { intros e He. unfold _write_png, ibind.
    destruct (mkdir (parent p) fs) as [r fs1]. cbn [fst] in He. subst r. reflexivity. }
  split; [|split; [|split]].
  - intros Hd. split; [apply mkdir_save_on_dir, Hd|].
    intros Hno. apply mkdir_save_on_dir_error; assumption.
  - intros q f Hne Hpre Hnd Hfile. apply Hstop.
    apply (mkdir_not_a_directory _ q f); assumption.
  - intros f Hne Hfile Hno. apply Hstop. apply (mkdir_file_exists _ f); assumption.
  - apply mkdir_save_failure.
Qed.

(** X13: for a list of positive sizes that is not empty the container
    writer saves a container whose base raster is the source resized to
    the largest of the sizes, so at least as large as each of them, and
    which records the sizes in the order given. *)
Theorem write_ico_saves (src : Image) (p : path) (sizes : list Z) (r : Z) (fs : FS) :
  sizes <> [] ->
  (forall s, s ∈ sizes -> 0 < s) ->
  no_file_above fs (parent p) ->
  fs !! p <> Some Dir ->
  exists (fs' : FS) (m : Z),
    _write_ico pil_resize src p sizes r fs = (Ok tt, fs')
    /\ fs' !! p = Some (File (IcoFile (_resize pil_resize src m r)
                                      ((fun s => (s, s)) <$> sizes)))
    /\ m ∈ sizes
    /\ (forall s, s ∈ sizes -> s <= m)
    /\ size (_resize pil_resize src m r) = (m, m)
    /\ (forall q, q <> p -> files fs' !! q = files fs !! q).
Proof.
  intros Hne Hpos Hno Hnd. destruct sizes as [|a rest]; [contradiction|].
  destruct (fold_left_max rest a) as (Hge & Hall & Hmem).
  set (m := fold_left Z.max rest a) in *.
  assert (Hin : m ∈ a :: rest) by (destruct Hmem as [->|H]; [left | right; exact H]).
  destruct (mkdir_save_ok p (IcoFile (_resize pil_resize src m r)
                               ((fun s => (s, s)) <$> a :: rest)) fs Hno Hnd)
    as (fs' & Hrun & Hlook & Hother & _).
  exists fs', m. split.
  { rewrite <- Hrun. unfold _write_ico, ibind, lift. cbn [max_of]. fold m.
    destruct (mkdir (parent p) fs) as [[[]|e] fs1]; reflexivity. }
  split; [exact Hlook|]. split; [exact Hin|]. split.
  - intros s Hs. apply elem_of_cons in Hs as [->|Hs]; [exact Hge | apply Hall, Hs].
  - split; [|exact Hother].
    apply resize_size; [exact pil_resize_size | apply Hpos, Hin].
Qed.

(** X14: with no size at all the container writer fails and writes no
    file; when the parent directory can be made the failure is the one of
    [max] on an empty list, raised after the directory was made. *)
Theorem write_ico_no_sizes (src : Image) (p : path) (r : Z) (fs : FS) :
  exists e,
    (_write_ico pil_resize src p [] r fs).1 = Raise e
    /\ files (_write_ico pil_resize src p [] r fs).2 = files fs
    /\ (no_file_above fs (parent p) ->
        e = EmptySequence
        /\ (parent p <> [] ->
            (_write_ico pil_resize src p [] r fs).2 !! parent p = Some Dir)).
Proof.
  unfold _write_ico, ibind, lift. cbn [max_of].
  pose proof (mkdir_files (parent p) fs) as Hf.
  destruct (mkdir (parent p) fs) as [[[]|e] fs1] eqn:Hmk; cbn [fst snd] in *.
  - exists EmptySequence. split; [reflexivity|]. split; [exact Hf|].
    intros Hno. split; [reflexivity|]. intros Hp.
    destruct (mkdir_ok _ _ Hno) as (fs1' & Hmk' & _ & Hdir). rewrite Hmk in Hmk'.
    injection Hmk' as <-. exact (Hdir Hp).
  - exists e. split; [reflexivity|]. split; [exact Hf|].
    intros Hno. destruct (mkdir_ok _ _ Hno) as (fs1' & Hmk' & _). rewrite Hmk in Hmk'.
    discriminate.
Qed.

End WritersMore.

Lemma write_png_saves_witness :
  exists fs' : FS,
    _write_png Sample.square ["dist"; "a"; "icon.png"]
      {[ ["dist"; "a"; "icon.png"] := File (PngFile Sample.wide) ]} = (Ok tt, fs')
    /\ fs' !! ["dist"; "a"; "icon.png"] = Some (File (PngFile Sample.square))
    /\ fs' !! ["dist"; "a"] = Some Dir.
Proof.
  destruct (write_png_saves Sample.square ["dist"; "a"; "icon.png"]
              {[ ["dist"; "a"; "icon.png"] := File (PngFile Sample.wide) ]})
    as (fs' & Hrun & Hlook & _ & Hdir).
  - intros q f Hpre Hq. apply lookup_singleton_Some in Hq as [<- _].
    exact (WriterFacts.not_prefix_of_parent ["dist"; "a"; "icon.png"] ltac:(discriminate) Hpre).
  - rewrite lookup_singleton_eq. discriminate.
  - exists fs'. split; [exact Hrun|]. split; [exact Hlook|]. apply Hdir. discriminate.
Defined.

Lemma write_ico_saves_witness :
  exists (fs' : FS) (m : Z),
    _write_ico Sample.nearest Sample.square ["favicon.ico"] [32; 48; 16] 1 ∅ = (Ok tt, fs')
    /\ m ∈ [32; 48; 16]
    /\ (forall s, s ∈ [32; 48; 16] -> s <= m).
Proof.
  destruct (write_ico_saves Sample.nearest nearest_size Sample.square ["favicon.ico"]
              [32; 48; 16] 1 ∅) as (fs' & m & Hrun & _ & Hin & Hmax & _).
  - discriminate.
  - intros s Hs. repeat (apply elem_of_cons in Hs as [->|Hs]; [lia|]). inversion Hs.
  - apply empty_fs_no_file.
  - rewrite lookup_empty. discriminate.
  - exists fs', m. split; [exact Hrun|]. split; assumption.
Defined.

(** ** The web target *)

Lemma plan_outputs (base : path) (m : io unit) (ops : list op) (fs : FS) :
  runs_as base m ops ->
  conflict_free ops ->
  NoDup (saved ops).*1 ->
  (forall d, d ∈ made ops -> Fs.no_file_above fs (base ++ d)) ->
  (forall p, p ∈ (saved ops).*1 -> fs !! (base ++ p) <> Some Dir) ->
  exists fs' : FS,
    m fs = (Ok tt, fs')
    /\ (forall p f, (p, f) ∈ saved ops -> fs' !! (base ++ p) = Some (File f))
    /\ (forall q, (forall p, p ∈ (saved ops).*1 -> base ++ p <> q) ->
          Fs.files fs' !! q = Fs.files fs !! q).
Proof.
  intros Hruns Hcf Hnd Hmade Hsaved.
  destruct (PlanFacts.run_ops_ok base ops fs Hcf Hmade Hsaved) as (fs' & Hrun & Hf' & _).
  exists fs'. split; [rewrite Hruns; exact Hrun|]. split.
  - intros p f Hin.
    assert (Hl : Fs.files fs' !! (base ++ p) = Some f)
      by (rewrite Hf'; apply PlanFacts.apply_saves_in; assumption).
    rewrite FsFacts.files_lookup in Hl.
    destruct (fs' !! (base ++ p)) as [[|f']|]; try discriminate.
    injection Hl as ->. reflexivity.
  - intros q Hq. rewrite Hf'. apply PlanFacts.apply_saves_other. exact Hq.
Qed.

Lemma runs_lift {A} base (r : result A) (a : A) (k : A -> io unit) ops :
  r = Ok a -> runs_as base (k a) ops -> runs_as base (ibind (lift r) k) ops.
Proof. intros -> H fs. unfold ibind, lift. apply H. Qed.

Section WebTarget.
Import Fs FsFacts PlanFacts.

Variable pil_resize : Image -> Z * Z -> Z -> Image.
Hypothesis pil_resize_size :
  forall img w h r, 0 < w -> 0 < h -> size (pil_resize img (w, h) r) = (w, h).

Lemma generate_web_runs opts src bg maskable :
  _parse_hex_color (background opts) = Ok bg ->
  _fit_with_padding pil_resize src 512 (maskable_scale opts) bg (resample opts) = Ok maskable ->
  runs_as (out_dir opts) (generate_web pil_resize opts src)
    (web_plan pil_resize opts src maskable).
Proof.
  intros Hbg Hfit. unfold generate_web, web_plan, web_manifest, join.
  cbn [fmap list_fmap web_pngs app concat].
  apply runs_seq; [apply (runs_write_ico pil_resize); [discriminate | reflexivity]|].
  apply (runs_seq _ _ _ (write_plan _ _)); [apply runs_write_png; discriminate|].
  apply (runs_seq _ _ _ (write_plan _ _)); [apply runs_write_png; discriminate|].
  apply (runs_seq _ _ _ (write_plan _ _)); [apply runs_write_png; discriminate|].
  apply (runs_lift _ _ bg); [exact Hbg|].
  apply (runs_lift _ _ maskable); [exact Hfit|].
  rewrite app_nil_r. apply runs_write_png. discriminate.
Qed.

Lemma web_manifest_paths opts src maskable :
  (web_manifest pil_resize opts src maskable).*1 = web_paths.
Proof. reflexivity. Qed.

Lemma web_plan_saved opts src maskable :
  saved (web_plan pil_resize opts src maskable) = web_manifest pil_resize opts src maskable.
Proof. reflexivity. Qed.

Lemma web_plan_made opts src maskable d :
  d ∈ made (web_plan pil_resize opts src maskable) -> d = [].
Proof.
  cbn. intros H. repeat (apply elem_of_cons in H as [->|H]; [reflexivity|]). inversion H.
Qed.

Lemma web_plan_conflict_free opts src maskable :
  conflict_free (web_plan pil_resize opts src maskable).
Proof.
  intros p d Hp Hd. apply web_plan_made in Hd as ->. rewrite web_plan_saved in Hp.
  rewrite web_manifest_paths in Hp. intros Hpre. apply prefix_nil_inv in Hpre as ->.
  unfold web_paths in Hp.
  repeat (apply elem_of_cons in Hp as [Hp|Hp]; [discriminate|]). inversion Hp.
Qed.

Lemma fit_512_total src scale bg r :
  valid_binary 53 1024 scale = true ->
  exists maskable,
    _fit_with_padding pil_resize src 512 scale bg r = Ok maskable
    /\ size maskable = (512, 512).
Proof.
  intros Hv.
  assert (Hsz : 0 < 512 < 2 ^ 53) by (split; reflexivity).
  destruct (inner_size_total 512 scale Hsz Hv) as (inner & Hin & Hrange).
  destruct (fit_with_padding_spec pil_resize pil_resize_size src 512 scale bg r inner
              ltac:(lia) Hin Hrange) as (canvas & Hc & Hsize & _).
  eauto.
Qed.

(** X15: with a background colour that parses and a content scale that
    is a float, on a file system where the output directory can be made
    and none of the five targets is a directory, the web generator ends
    normally and leaves in the output directory [favicon.ico], saved from
    the 48 x 48 raster with the sizes 16, 32 and 48, the PNG files
    [apple-touch-icon.png] (180), [icon-192.png] (192) and [icon-512.png]
    (512), and [icon-maskable-512.png], the 512 x 512 canvas of the
    padded-fit composer; every other regular file is as it was. *)
Theorem generate_web_outputs (opts : Options) (src : Image) (bg : rgba_tuple) (fs : FS) :
  _parse_hex_color (background opts) = Ok bg ->
  valid_binary 53 1024 (maskable_scale opts) = true ->
  no_file_above fs (out_dir opts) ->
  (forall rel, rel ∈ web_paths -> fs !! (out_dir opts ++ rel) <> Some Dir) ->
  exists (fs' : FS) (maskable : Image),
    generate_web pil_resize opts src fs = (Ok tt, fs')
    /\ _fit_with_padding pil_resize src 512 (maskable_scale opts) bg (resample opts)
       = Ok maskable
    /\ size maskable = (512, 512)
    /\ fs' !! (out_dir opts ++ ["favicon.ico"])
       = Some (File (IcoFile (_resize pil_resize src 48 (resample opts))
                       [(16, 16); (32, 32); (48, 48)]))
    /\ size (_resize pil_resize src 48 (resample opts)) = (48, 48)
    /\ (forall rel n, (rel, n) ∈ web_pngs ->
          fs' !! (out_dir opts ++ rel)
          = Some (File (PngFile (_resize pil_resize src n (resample opts))))
          /\ size (_resize pil_resize src n (resample opts)) = (n, n))
    /\ fs' !! (out_dir opts ++ ["icon-maskable-512.png"]) = Some (File (PngFile maskable))
    /\ (forall q, (forall rel, rel ∈ web_paths -> out_dir opts ++ rel <> q) ->
          files fs' !! q = files fs !! q).
Proof.
  intros Hbg Hv Hno Hnd.
  destruct (fit_512_total src (maskable_scale opts) bg (resample opts) Hv)
    as (maskable & Hfit & Hsize).
  destruct (plan_outputs (out_dir opts) (generate_web pil_resize opts src)
              (web_plan pil_resize opts src maskable) fs
              (generate_web_runs opts src bg maskable Hbg Hfit)
              (web_plan_conflict_free opts src maskable))
    as (fs' & Hrun & Hin & Hother).
  - rewrite web_plan_saved, web_manifest_paths. apply (bool_decide_unpack _). vm_compute. exact I.
  - intros d Hd. apply web_plan_made in Hd as ->. rewrite app_nil_r. exact Hno.
  - rewrite web_plan_saved, web_manifest_paths. exact Hnd.
  - rewrite web_plan_saved in Hin. rewrite web_plan_saved, web_manifest_paths in Hother.
    exists fs', maskable. split; [exact Hrun|]. split; [exact Hfit|]. split; [exact Hsize|].
    split; [apply Hin; unfold web_manifest; left|].
    split; [apply resize_size; [exact pil_resize_size | lia]|].
    split; [|split; [|exact Hother]].
    + intros rel n Hrel. split.
      * apply Hin. unfold web_manifest. right. apply elem_of_app. left.
        apply list_elem_of_fmap. exists (rel, n). split; [reflexivity | exact Hrel].
      * apply resize_size; [exact pil_resize_size|].
        unfold web_pngs in Hrel.
        repeat (apply elem_of_cons in Hrel as [[= -> ->]|Hrel]; [lia|]). inversion Hrel.
    + apply Hin. unfold web_manifest. right. apply elem_of_app. right. left.
Qed.

End WebTarget.

Lemma generate_web_outputs_witness :
  exists (fs' : FS) (maskable : Image),
    generate_web Sample.nearest Sample.ue_opts Sample.square ∅ = (Ok tt, fs')
    /\ size maskable = (512, 512)
    /\ fs' !! ["dist"; "icon-maskable-512.png"] = Some (File (PngFile maskable)).
Proof.
  destruct (generate_web_outputs Sample.nearest nearest_size Sample.ue_opts Sample.square
              (0, 0, 0, 255) ∅) as (fs' & maskable & Hrun & _ & Hsize & _ & _ & _ & Hm & _).
  - reflexivity.
  - reflexivity.
  - apply empty_fs_no_file.
  - intros rel _. rewrite lookup_empty. discriminate.
  - exists fs', maskable. split; [exact Hrun|]. split; [exact Hsize | exact Hm].
Defined.

(** ** Whole runs *)

Section MainMore.
Import Fs FsFacts PlanFacts.

Variable pil_resize : Image -> Z * Z -> Z -> Image.
Variable image_open : FS -> path -> result Image.
Variable cairosvg : option (FS -> path -> result Image).
Variable LANCZOS : Z.
Hypothesis pil_resize_size :
  forall img w h r, 0 < w -> 0 < h -> size (pil_resize img (w, h) r) = (w, h).

Abbreviation run := (main pil_resize image_open cairosvg LANCZOS).

Lemma runs_skip base : runs_as base (iret tt) [].
Proof. intros fs. reflexivity. Qed.

Lemma selected_runs tg opts sq bg maskable :
  _parse_hex_color (background opts) = Ok bg ->
  _fit_with_padding pil_resize sq 512 (maskable_scale opts) bg (resample opts) = Ok maskable ->
  runs_as (out_dir opts)
    (ibind (if decide ("web" ∈ tg) then generate_web pil_resize opts sq else iret tt)
       (fun _ => if decide ("ue" ∈ tg) then generate_ue pil_resize opts sq else iret tt))
    (selected_plan pil_resize tg opts sq maskable).
Proof.
  intros Hbg Hfit. unfold selected_plan. apply runs_seq.
  - destruct (decide ("web" ∈ tg)); [apply (generate_web_runs _ _ _ bg); assumption | apply runs_skip].
  - destruct (decide ("ue" ∈ tg)); [apply generate_ue_runs | apply runs_skip].
Qed.

Lemma selected_saved tg opts sq maskable :
  saved (selected_plan pil_resize tg opts sq maskable)
  = (if decide ("web" ∈ tg) then web_manifest pil_resize opts sq maskable else [])
    ++ (if decide ("ue" ∈ tg) then ue_manifest pil_resize opts sq else []).
Proof.
  unfold selected_plan, saved. rewrite omap_app.
  destruct (decide ("web" ∈ tg)), (decide ("ue" ∈ tg)); reflexivity.
Qed.

Lemma selected_saved_paths tg opts sq maskable :
  (saved (selected_plan pil_resize tg opts sq maskable)).*1 = selected_paths tg.
Proof.
  rewrite selected_saved, fmap_app. unfold selected_paths.
  destruct (decide ("web" ∈ tg)), (decide ("ue" ∈ tg)); reflexivity.
Qed.

Lemma selected_made tg opts sq maskable d :
  d ∈ made (selected_plan pil_resize tg opts sq maskable) ->
  d = [] \/ ("ue" ∈ tg /\ d ∈ ue_dirs).
Proof.
  unfold selected_plan, made. rewrite omap_app, elem_of_app. intros [H|H].
  - left. destruct (decide ("web" ∈ tg)); [|inversion H].
    apply (web_plan_made pil_resize opts sq maskable), H.
  - right. destruct (decide ("ue" ∈ tg)) as [Hue|]; [|inversion H].
    split; [exact Hue|]. apply (ue_plan_made pil_resize opts sq), H.
Qed.

Lemma selected_paths_all tg p : p ∈ selected_paths tg -> p ∈ web_paths ++ ue_paths.
Proof.
  unfold selected_paths. rewrite !elem_of_app. intros [H|H].
  - left. destruct (decide ("web" ∈ tg)); [exact H | inversion H].
  - right. destruct (decide ("ue" ∈ tg)); [exact H | inversion H].
Qed.

Lemma all_paths_conflict_free :
  Forall (fun p => Forall (fun d => ~ p `prefix_of` d) ([] :: ue_dirs)) (web_paths ++ ue_paths).
Proof.
  cbn. repeat constructor; intros Hpre; apply prefix_length in Hpre as Hlen;
    cbn in Hlen; try lia;
    destruct Hpre as [k Hk]; discriminate Hk.
Qed.

Lemma selected_conflict_free tg opts sq maskable :
  conflict_free (selected_plan pil_resize tg opts sq maskable).
Proof.
  intros p d Hp Hd. rewrite selected_saved_paths in Hp. apply selected_paths_all in Hp.
  assert (Hd' : d ∈ [] :: ue_dirs).
  { apply selected_made in Hd as [->|[_ Hd]]; [left | right; exact Hd]. }
  pose proof all_paths_conflict_free as Hall.
  rewrite Forall_forall in Hall. specialize (Hall p Hp).
  rewrite Forall_forall in Hall. exact (Hall d Hd').
Qed.

Lemma selected_paths_nodup tg : NoDup (selected_paths tg).
Proof.
  unfold selected_paths.
  destruct (decide ("web" ∈ tg)), (decide ("ue" ∈ tg));
    apply (bool_decide_unpack _); vm_compute; exact I.
Qed.

Lemma selected_paths_nonempty tg p : p ∈ selected_paths tg -> p <> [].
Proof.
  intros Hp%selected_paths_all ->. revert Hp. apply (bool_decide_unpack _). vm_compute. exact I.
Qed.

Lemma gens_then_return (a b : io unit) (fs : FS) :
  ibind a (fun _ => ibind b (fun _ => iret 0)) fs
  = match ibind a (fun _ => b) fs with
    | (Ok _, fs') => (Ok 0, fs')
    | (Raise e, fs') => (Raise e, fs')
    end.
Proof.
  unfold ibind, iret. destruct (a fs) as [[[]|e] fs1]; [|reflexivity].
  destruct (b fs1) as [[[]|e] fs2]; reflexivity.
Qed.

(** A run whose first steps succeed is the plan of its targets, run after
    the output directory was made. *)
Lemma main_as_plan (args : Args) (fs : FS) (tg : gset string) (bg : rgba_tuple)
      (src sq : Image) :
  _parse_targets (arg_targets args) = Ok tg ->
  (mkdir (arg_out args) fs).1 = Ok tt ->
  _parse_hex_color (arg_background args) = Ok bg ->
  (_load_image image_open cairosvg (arg_input args) (mkdir (arg_out args) fs).2).1 = Ok src ->
  _ensure_square src (negb (arg_no_pad args)) bg = Ok sq ->
  run args fs
  = match ibind (if decide ("web" ∈ tg)
                 then generate_web pil_resize (main_options LANCZOS args tg) sq else iret tt)
            (fun _ => if decide ("ue" ∈ tg)
                      then generate_ue pil_resize (main_options LANCZOS args tg) sq
                      else iret tt)
            (mkdir (arg_out args) fs).2 with
    | (Ok _, fs') => (Ok 0, fs')
    | (Raise e, fs') => (Raise e, fs')
    end.
Proof.
  intros Hparse Hmk Hbg Hload Hsq. rewrite <- gens_then_return.
  unfold main. unfold ibind at 1.
  destruct (mkdir (arg_out args) fs) as [[[]|e] fs1]; cbn [fst snd] in *; [|discriminate].
  unfold ibind at 1. unfold lift at 1. rewrite Hparse.
  cbn [background input_path pad_to_square].
  unfold ibind at 1. unfold lift at 1. rewrite Hbg.
  unfold ibind at 1.
  pose proof (load_image_state image_open cairosvg (arg_input args) fs1) as Hst.
  destruct (_load_image image_open cairosvg (arg_input args) fs1) as [r fs2];
    cbn [fst snd] in *; subst fs2 r.
  unfold ibind at 1. unfold lift at 1. rewrite Hsq. reflexivity.
Qed.

(** X16: a run whose targets, background colour and input are accepted,
    on a file system where the directories can be made and no target path
    is a directory, ends with status 0 having written, from the square
    raster, every file of the web manifest when [web] is asked for and
    every file of the engine-packaging manifest when [ue] is, and having
    left every other regular file as it was. *)
Theorem main_outputs (args : Args) (fs : FS) (tg : gset string) (bg : rgba_tuple)
        (src : Image) :
  _parse_targets (arg_targets args) = Ok tg ->
  _parse_hex_color (arg_background args) = Ok bg ->
  valid_binary 53 1024 (arg_maskable_scale args) = true ->
  (_load_image image_open cairosvg (arg_input args) (mkdir (arg_out args) fs).2).1 = Ok src ->
  wf_image src ->
  no_file_above fs (arg_out args) ->
  ("ue" ∈ tg -> forall d, d ∈ ue_dirs -> no_file_above fs (arg_out args ++ d)) ->
  (forall rel, rel ∈ selected_paths tg -> fs !! (arg_out args ++ rel) <> Some Dir) ->
  exists (fs' : FS) (sq maskable : Image),
    run args fs = (Ok 0, fs')
    /\ _ensure_square src (negb (arg_no_pad args)) bg = Ok sq
    /\ _fit_with_padding pil_resize sq 512 (arg_maskable_scale args) bg LANCZOS = Ok maskable
    /\ ("web" ∈ tg ->
        forall rel f,
          (rel, f) ∈ web_manifest pil_resize (main_options LANCZOS args tg) sq maskable ->
          fs' !! (arg_out args ++ rel) = Some (File f))
    /\ ("ue" ∈ tg ->
        forall rel f,
          (rel, f) ∈ ue_manifest pil_resize (main_options LANCZOS args tg) sq ->
          fs' !! (arg_out args ++ rel) = Some (File f))
    /\ (forall q, (forall rel, rel ∈ selected_paths tg -> arg_out args ++ rel <> q) ->
          files fs' !! q = files fs !! q).
Proof.
  intros Hparse Hbg Hv Hload Hwf Hno Hue Hnd.
  destruct (ensure_square_total src (negb (arg_no_pad args)) bg Hwf) as [sq Hsq].
  destruct (fit_512_total pil_resize pil_resize_size sq (arg_maskable_scale args) bg LANCZOS Hv)
    as (maskable & Hfit & _).
  destruct (mkdir_ok _ _ Hno) as (fs1 & Hmk & Hfiles & _).
  assert (Hmk1 : (mkdir (arg_out args) fs).1 = Ok tt) by (rewrite Hmk; reflexivity).
  rewrite (main_as_plan args fs tg bg src sq Hparse Hmk1 Hbg Hload Hsq). rewrite Hmk. cbn [snd].
  set (opts := main_options LANCZOS args tg).
  destruct (plan_outputs (arg_out args) _ (selected_plan pil_resize tg opts sq maskable) fs1
              (selected_runs tg opts sq bg maskable Hbg Hfit)
              (selected_conflict_free tg opts sq maskable))
    as (fs' & Hrun & Hin & Hother).
  - rewrite selected_saved_paths. apply selected_paths_nodup.
  - intros d Hd. apply (no_file_above_files fs); [exact Hfiles|].
    apply selected_made in Hd as [->|[Hu Hd]]; [rewrite app_nil_r; exact Hno | exact (Hue Hu d Hd)].
  - rewrite selected_saved_paths. intros p Hp Hlook.
    assert (Hfs1 : fs1 = (mkdir_from [] (arg_out args) fs).2)
      by (unfold mkdir in Hmk; rewrite Hmk; reflexivity).
    destruct (mkdir_from_lookup (arg_out args) [] fs (arg_out args ++ p)) as [Hsame|[_ Hpre]].
    + rewrite <- Hfs1, Hlook in Hsame. exact (Hnd p Hp (eq_sym Hsame)).
    + cbn in Hpre. apply prefix_length in Hpre. rewrite length_app in Hpre.
      pose proof (selected_paths_nonempty tg p Hp). destruct p; [contradiction | cbn in Hpre; lia].
  - rewrite Hrun.
    exists fs', sq, maskable. split; [reflexivity|]. split; [exact Hsq|]. split; [exact Hfit|].
    rewrite selected_saved in Hin. rewrite selected_saved_paths in Hother.
    split; [|split].
    + intros Hw rel f Hrel. apply Hin. apply elem_of_app. left.
      destruct (decide ("web" ∈ tg)); [exact Hrel | contradiction].
    + intros Hu rel f Hrel. apply Hin. apply elem_of_app. right.
      destruct (decide ("ue" ∈ tg)); [exact Hrel | contradiction].
    + intros q Hq. rewrite <- Hfiles. apply Hother. exact Hq.
Qed.

End MainMore.

Lemma main_outputs_witness :
  exists (fs' : FS) (sq maskable : Image),
    main Sample.nearest (Sample.decodes Sample.wide) None 1 both_args ∅ = (Ok 0, fs')
    /\ _ensure_square Sample.wide true (0, 0, 0, 255) = Ok sq
    /\ fs' !! ["dist"; "favicon.ico"]
       = Some (File (IcoFile (_resize Sample.nearest sq 48 1) [(16, 16); (32, 32); (48, 48)]))
    /\ fs' !! ["dist"; "ue"; "windows"; "icon.ico"]
       = Some (File (IcoFile (_resize Sample.nearest sq 256 1)
                       [(16, 16); (24, 24); (32, 32); (48, 48); (64, 64);
                        (128, 128); (256, 256)])).
Proof.
  destruct (main_outputs Sample.nearest (Sample.decodes Sample.wide) None 1 nearest_size
              both_args ∅ {[ "web"; "ue" ]} (0, 0, 0, 255) Sample.wide)
    as (fs' & sq & maskable & Hrun & Hsq & _ & Hweb & Hue & _).
  - vm_compute. reflexivity.
  - reflexivity.
  - reflexivity.
  - reflexivity.
  - apply PILFacts.wf_tabulate; lia.
  - apply empty_fs_no_file.
  - intros _ d _. apply empty_fs_no_file.
  - intros rel _. rewrite lookup_empty. discriminate.
  - exists fs', sq, maskable. split; [exact Hrun|]. split; [exact Hsq|]. split.
    + apply (Hweb ltac:(apply elem_of_union; left; apply elem_of_singleton; reflexivity)
               ["favicon.ico"]).
      unfold web_manifest. left.
    + apply (Hue ltac:(apply elem_of_union; right; apply elem_of_singleton; reflexivity)
               ["ue"; "windows"; "icon.ico"]).
      unfold ue_manifest. left.
Defined.

(** ** Runs that fail *)

Section MainFailures.
Import Fs FsFacts.

Variable pil_resize : Image -> Z * Z -> Z -> Image.
Variable image_open : FS -> path -> result Image.
Variable cairosvg : option (FS -> path -> result Image).
Variable LANCZOS : Z.

(** X17: when target parsing, the parsing of the background colour or the
    loading of the input fails, the run ends in an exception, so with exit
    status 1, and every regular file is as it was: nothing is generated
    before these three have succeeded. *)
Theorem main_early_failure (args : Args) (fs : FS) :
  (exists e, _parse_targets (arg_targets args) = Raise e)
  \/ (exists e, _parse_hex_color (arg_background args) = Raise e)
  \/ (exists e, (_load_image image_open cairosvg (arg_input args)
                   (mkdir (arg_out args) fs).2).1 = Raise e) ->
  (exists e, (main pil_resize image_open cairosvg LANCZOS args fs).1 = Raise e)
  /\ exit_code (main pil_resize image_open cairosvg LANCZOS args fs).1 = 1
  /\ files (main pil_resize image_open cairosvg LANCZOS args fs).2 = files fs.
Proof.
  intros Hfail.
  assert (Hmain : exists e,
             main pil_resize image_open cairosvg LANCZOS args fs
             = (Raise e, (mkdir (arg_out args) fs).2)).
  { unfold main, ibind.
    destruct (mkdir (arg_out args) fs) as [[[]|e0] fs1]; cbn [fst snd] in *; [|eauto].
    unfold lift. destruct (_parse_targets (arg_targets args)) as [tg|e1]; [|eauto].
    cbn [background input_path pad_to_square].
    destruct (_parse_hex_color (arg_background args)) as [bg|e2]; [|eauto].
    pose proof (load_image_state image_open cairosvg (arg_input args) fs1) as Hst.
    destruct (_load_image image_open cairosvg (arg_input args) fs1) as [[src|e3] fs2];
      cbn [fst snd] in *; subst fs2; [|eauto].
    exfalso. destruct Hfail as [[e H]|[[e H]|[e H]]]; discriminate. }
  destruct Hmain as [e ->]. cbn [fst snd exit_code].
  split; [eauto|]. split; [reflexivity | apply mkdir_files].
Qed.

(** X18: for an input whose name ends in [.svg], when CairoSVG is not
    installed and the targets and the colour are accepted, the run stops
    with the [SystemExit] that asks for CairoSVG or a PNG export, whatever
    the file holds, and writes no file. *)
Theorem main_svg_without_cairosvg (args : Args) (fs : FS) (tg : gset string)
        (bg : rgba_tuple) :
  _is_svg (arg_input args) = true ->
  no_file_above fs (arg_out args) ->
  _parse_targets (arg_targets args) = Ok tg ->
  _parse_hex_color (arg_background args) = Ok bg ->
  (main pil_resize image_open None LANCZOS args fs).1
  = Raise (SystemExit
      "SVG input requires CairoSVG (pip install cairosvg) or export SVG to a 1024x1024 PNG first.")
  /\ files (main pil_resize image_open None LANCZOS args fs).2 = files fs.
Proof.
  intros Hsvg Hno Hparse Hbg. destruct (mkdir_ok _ _ Hno) as (fs1 & Hmk & Hfiles & _).
  unfold main, ibind. rewrite Hmk. unfold lift. rewrite Hparse.
  cbn [background input_path pad_to_square]. rewrite Hbg.
  unfold _load_image. rewrite Hsvg. cbn [fst snd]. split; [reflexivity | exact Hfiles].
Qed.

End MainFailures.

Lemma main_early_failure_witness :
  exit_code (main Sample.nearest Sample.unreadable None 1 both_args ∅).1 = 1
  /\ Fs.files (main Sample.nearest Sample.unreadable None 1 both_args ∅).2 = Fs.files ∅.
Proof.
  destruct (main_early_failure Sample.nearest Sample.unreadable None 1 both_args ∅)
    as (_ & Hexit & Hfiles).
  - right. right. eexists. reflexivity.
  - split; assumption.
Defined.

Lemma main_svg_without_cairosvg_witness :
  (main Sample.nearest (Sample.decodes Sample.wide) None 1 svg_args ∅).1
  = Raise (SystemExit
      "SVG input requires CairoSVG (pip install cairosvg) or export SVG to a 1024x1024 PNG first.")
  /\ Fs.files (main Sample.nearest (Sample.decodes Sample.wide) None 1 svg_args ∅).2
     = Fs.files ∅.
Proof.
  apply (main_svg_without_cairosvg Sample.nearest (Sample.decodes Sample.wide) 1 svg_args ∅
           {[ "web" ]} (0, 0, 0, 255)).
  - reflexivity.
  - apply empty_fs_no_file.
  - vm_compute. reflexivity.
  - reflexivity.
Defined.

(** ** Running a target twice *)

(** A plan that ran can run again on the result, and writes the same
    files. *)
Lemma plan_rerun (base : path) (m : io unit) (ops : list op) (fs : FS) :
  runs_as base m ops ->
  conflict_free ops ->
  NoDup (saved ops).*1 ->
  (forall d, d ∈ made ops -> Fs.no_file_above fs (base ++ d)) ->
  (forall p, p ∈ (saved ops).*1 -> fs !! (base ++ p) <> Some Dir) ->
  exists fs' fs'' : FS,
    m fs = (Ok tt, fs') /\ m fs' = (Ok tt, fs'') /\ Fs.files fs'' = Fs.files fs'.
Proof.
  intros Hruns Hcf Hnd Hmade Hsaved.
  destruct (plan_outputs base m ops fs Hruns Hcf Hnd Hmade Hsaved)
    as (fs' & Hrun & Hin & Hother).
  assert (Hfile : forall p, p ∈ (saved ops).*1 -> exists f, fs' !! (base ++ p) = Some (File f)).
  { intros p Hp. apply list_elem_of_fmap in Hp as ([p' f] & -> & Hpf).
    exists f. apply Hin, Hpf. }
  destruct (plan_outputs base m ops fs' Hruns Hcf Hnd) as (fs'' & Hrun' & Hin' & Hother').
  - intros d Hd q f Hpre Hq.
    destruct (decide (Exists (fun p => base ++ p = q) (saved ops).*1)) as [Hex|Hnex].
    + apply Exists_exists in Hex as (p & Hp & <-).
      apply prefix_app_inv in Hpre. exact (Hcf p d Hp Hd Hpre).
    + assert (Hq' : Fs.files fs' !! q = Fs.files fs !! q).
      { apply Hother. intros p Hp Heq. apply Hnex, Exists_exists. eauto. }
      rewrite !FsFacts.files_lookup, Hq in Hq'.
      destruct (fs !! q) as [[|f']|] eqn:E; try discriminate.
      exact (Hmade d Hd q f' Hpre E).
  - intros p Hp. destruct (Hfile p Hp) as [f ->]. discriminate.
  - exists fs', fs''. split; [exact Hrun|]. split; [exact Hrun'|].
    apply map_eq. intros q.
    destruct (decide (Exists (fun p => base ++ p = q) (saved ops).*1)) as [Hex|Hnex].
    + apply Exists_exists in Hex as (p & Hp & <-).
      apply list_elem_of_fmap in Hp as ([p' f] & -> & Hpf). cbn [fst].
      rewrite !FsFacts.files_lookup, (Hin _ _ Hpf), (Hin' _ _ Hpf). reflexivity.
    + apply Hother'. intros p Hp Heq. apply Hnex, Exists_exists. eauto.
Qed.

Section Rerun.
Import Fs FsFacts PlanFacts.

Variable pil_resize : Image -> Z * Z -> Z -> Image.
Hypothesis pil_resize_size :
  forall img w h r, 0 < w -> 0 < h -> size (pil_resize img (w, h) r) = (w, h).

(** X20: the packaging target can be run again over its own output: when
    a first run is possible (no regular file in the way of its three
    directories, no directory in the way of its files) it succeeds, a
    second run on the resulting file system succeeds too, and leaves every
    regular file as the first run left it. *)
Theorem generate_ue_rerun (opts : Options) (src : Image) (fs : FS) :
  (forall d, d ∈ ue_dirs -> no_file_above fs (out_dir opts ++ d)) ->
  (forall rel, rel ∈ ue_paths -> fs !! (out_dir opts ++ rel) <> Some Dir) ->
  exists fs' fs'' : FS,
    generate_ue pil_resize opts src fs = (Ok tt, fs')
    /\ generate_ue pil_resize opts src fs' = (Ok tt, fs'')
    /\ files fs'' = files fs'.
Proof.
  intros Hdirs Hnd.
  apply (plan_rerun (out_dir opts) _ (ue_plan pil_resize opts src)).
  - apply generate_ue_runs.
  - apply ue_plan_conflict_free.
  - apply ue_manifest_nodup.
  - intros d Hd. apply Hdirs, (ue_plan_made pil_resize opts src), Hd.
  - exact Hnd.
Qed.

(** X21: likewise for the web target, for a background colour that parses
    and a content scale that is a binary64 value. *)
Theorem generate_web_rerun (opts : Options) (src : Image) (bg : rgba_tuple) (fs : FS) :
  _parse_hex_color (background opts) = Ok bg ->
  valid_binary 53 1024 (maskable_scale opts) = true ->
  no_file_above fs (out_dir opts) ->
  (forall rel, rel ∈ web_paths -> fs !! (out_dir opts ++ rel) <> Some Dir) ->
  exists fs' fs'' : FS,
    generate_web pil_resize opts src fs = (Ok tt, fs')
    /\ generate_web pil_resize opts src fs' = (Ok tt, fs'')
    /\ files fs'' = files fs'.
Proof.
  intros Hbg Hv Hno Hnd.
  destruct (fit_512_total pil_resize pil_resize_size src (maskable_scale opts) bg
              (resample opts) Hv) as (maskable & Hfit & _).
  apply (plan_rerun (out_dir opts) _ (web_plan pil_resize opts src maskable)).
  - apply (generate_web_runs pil_resize opts src bg maskable Hbg Hfit).
  - apply web_plan_conflict_free.
  - apply (bool_decide_unpack _). vm_compute. exact I.
  - intros d Hd. apply web_plan_made in Hd as ->. rewrite app_nil_r. exact Hno.
  - exact Hnd.
Qed.

End Rerun.

Lemma generate_ue_rerun_witness :
  exists fs' fs'' : FS,
    generate_ue Sample.nearest Sample.ue_opts Sample.wide ∅ = (Ok tt, fs')
    /\ generate_ue Sample.nearest Sample.ue_opts Sample.wide fs' = (Ok tt, fs'')
    /\ Fs.files fs'' = Fs.files fs'.
Proof.
  apply (generate_ue_rerun Sample.nearest Sample.ue_opts Sample.wide ∅).
  - intros d _. apply empty_fs_no_file.
  - intros rel _. rewrite lookup_empty. discriminate.
Defined.

Lemma generate_web_rerun_witness :
  exists fs' fs'' : FS,
    generate_web Sample.nearest Sample.ue_opts Sample.square ∅ = (Ok tt, fs')
    /\ generate_web Sample.nearest Sample.ue_opts Sample.square fs' = (Ok tt, fs'')
    /\ Fs.files fs'' = Fs.files fs'.
Proof.
  apply (generate_web_rerun Sample.nearest nearest_size Sample.ue_opts Sample.square
           (0, 0, 0, 255) ∅).
  - reflexivity.
  - reflexivity.
  - apply empty_fs_no_file.
  - intros rel _. rewrite lookup_empty. discriminate.
Defined.

(** ** Instances of the properties above *)

Lemma inner_size_clamped_witness :
  inner_size 512 (S754_zero false) = inner_size 512 PyFloat.f0_1
  /\ inner_size 512 (S754_infinity false) = inner_size 512 PyFloat.f1_0.
Proof.
  split.
  - apply (proj1 (inner_size_clamped 512 (S754_zero false))). reflexivity.
  - apply (proj2 (inner_size_clamped 512 (S754_infinity false))). reflexivity.
Defined.

Lemma write_png_failure_witness :
  (_write_png Sample.square ["icons"] (<[ ["icons"] := Dir ]> ∅)).1
  = Raise (IsADirectoryError ["icons"])
  /\ (_write_png Sample.square ["dist"; "web"; "icon.png"]
        (<[ ["dist"] := File (PngFile Sample.wide) ]> ∅)).1
     = Raise (NotADirectoryError ["dist"; "web"])
  /\ (_write_png Sample.square ["dist"; "icon.png"]
        (<[ ["dist"] := File (PngFile Sample.wide) ]> ∅)).1
     = Raise (FileExistsError ["dist"]).
Proof.
  split; [|split].
  - apply (proj1 (write_png_failure Sample.square ["icons"] (<[ ["icons"] := Dir ]> ∅))).
    + reflexivity.
    + intros q f Hpre. apply prefix_nil_inv in Hpre as ->.
      rewrite lookup_insert_ne by discriminate. rewrite lookup_empty. discriminate.
  - apply (proj1 (proj2 (write_png_failure Sample.square ["dist"; "web"; "icon.png"]
                           (<[ ["dist"] := File (PngFile Sample.wide) ]> ∅)))
             ["dist"] (PngFile Sample.wide)).
    + discriminate.
    + exists ["web"]. reflexivity.
    + discriminate.
    + reflexivity.
  - apply (proj1 (proj2 (proj2 (write_png_failure Sample.square ["dist"; "icon.png"]
                                   (<[ ["dist"] := File (PngFile Sample.wide) ]> ∅))))
             (PngFile Sample.wide)).
    + discriminate.
    + reflexivity.
    + intros q f' Hne [r Hr] Hnd. destruct q as [|a [|b q]]; [contradiction | | discriminate].
      cbn in Hr. injection Hr as <- _. contradiction.
Defined.

Lemma write_ico_no_sizes_witness :
  (_write_ico Sample.nearest Sample.square ["dist"; "favicon.ico"] [] 1 ∅).1
  = Raise EmptySequence.
Proof.
  destruct (write_ico_no_sizes Sample.nearest Sample.square ["dist"; "favicon.ico"] 1 ∅)
    as (e & Hr & _ & He).
  destruct (He (empty_fs_no_file _)) as [-> _]. exact Hr.
Defined.
